(** * Piano-roll scroll test: tick/pixel layout, cursor-follow scrolling,
      the playback counter and the timer/UI resync handshake.

    Shallow embedding of [src/main.cpp].  C++ [int] and [int32_t] values are
    integers of [Z] whose arithmetic is reduced to 32 bits ([wrap32]);
    classes are records and their member functions are functions that return
    the updated record. *)

From Stdlib Require Import ZArith List Bool Lia.
From Equations Require Import Equations.
Import ListNotations.

Local Open Scope Z_scope.

(** ** 32-bit signed arithmetic ([int], [int32_t]) *)

Definition INT_MIN : Z := - 2 ^ 31.
Definition INT_MAX : Z := 2 ^ 31 - 1.

Definition in_int (z : Z) : Prop := INT_MIN <= z <= INT_MAX.

(** Reduction of an integer to its two's-complement 32-bit representative. *)
Definition wrap32 (z : Z) : Z := (z + 2 ^ 31) mod 2 ^ 32 - 2 ^ 31.

Definition int_add (a b : Z) : Z := wrap32 (a + b).
Definition int_sub (a b : Z) : Z := wrap32 (a - b).
Definition int_mul (a b : Z) : Z := wrap32 (a * b).
(** [/] and [%] of C++ truncate towards zero. *)
Definition int_div (a b : Z) : Z := wrap32 (Z.quot a b).
Definition int_rem (a b : Z) : Z := Z.rem a b.

(** [size_t] is unsigned and 64 bits wide; an [int] operand of a mixed
    expression is converted to it, and the result is converted back when it
    is returned as [int]. *)
Definition wrap_size (z : Z) : Z := z mod 2 ^ 64.

Declare Scope int_scope.
Delimit Scope int_scope with int.
Arguments int_add (a b)%_int_scope.
Arguments int_sub (a b)%_int_scope.
Arguments int_mul (a b)%_int_scope.
Arguments int_div (a b)%_int_scope.
Infix "+" := int_add : int_scope.
Infix "-" := int_sub : int_scope.
Infix "*" := int_mul : int_scope.
Infix "/" := int_div : int_scope.

(** ** Note model *)

Inductive Pitch : Set :=
| REST | C_NAT | C_SHARP | D_NAT | D_SHARP | E_NAT | F_NAT
| F_SHARP | G_NAT | G_SHARP | A_NAT | A_SHARP | B_NAT.

(** [(int)pitch]: the enumerators are numbered from 0 in declaration order. *)
Definition Pitch_to_int (p : Pitch) : Z :=
  match p with
  | REST => 0 | C_NAT => 1 | C_SHARP => 2 | D_NAT => 3 | D_SHARP => 4
  | E_NAT => 5 | F_NAT => 6 | F_SHARP => 7 | G_NAT => 8 | G_SHARP => 9
  | A_NAT => 10 | A_SHARP => 11 | B_NAT => 12
  end.

(** [(Pitch)z] for a [z] that is the number of an enumerator.  The only cast
    in the program is applied to [rand() % 12 + 1], which lies in 1..12; other
    integers are not enumerators and are sent to [REST] here. *)
Definition Pitch_of_int (z : Z) : Pitch :=
  match z with
  | 1 => C_NAT | 2 => C_SHARP | 3 => D_NAT | 4 => D_SHARP
  | 5 => E_NAT | 6 => F_NAT | 7 => F_SHARP | 8 => G_NAT | 9 => G_SHARP
  | 10 => A_NAT | 11 => A_SHARP | 12 => B_NAT
  | _ => REST
  end.

Definition Pitch_eqb (p q : Pitch) : bool := Pitch_to_int p =? Pitch_to_int q.

Record Note_View : Set := mkNote_View {
  note_length : Z;
  note_pitch : Pitch;
  note_octave : Z;
  note_speed : Z
}.

(** The colours are values computed by the toolkit ([fl_rgb_color],
    [fl_lighter]); the program only stores and compares them. *)
Inductive Fl_Color : Set :=
| NOTE_RED | NOTE_BLUE | NOTE_GREEN | NOTE_BROWN
| NOTE_RED_LIGHT | NOTE_BLUE_LIGHT | NOTE_GREEN_LIGHT | NOTE_BROWN_LIGHT.

Definition Fl_Color_eqb (c d : Fl_Color) : bool :=
  match c, d with
  | NOTE_RED, NOTE_RED | NOTE_BLUE, NOTE_BLUE | NOTE_GREEN, NOTE_GREEN
  | NOTE_BROWN, NOTE_BROWN | NOTE_RED_LIGHT, NOTE_RED_LIGHT
  | NOTE_BLUE_LIGHT, NOTE_BLUE_LIGHT | NOTE_GREEN_LIGHT, NOTE_GREEN_LIGHT
  | NOTE_BROWN_LIGHT, NOTE_BROWN_LIGHT => true
  | _, _ => false
  end.

Definition NUM_WHITE_NOTES : Z := 7.
Definition NUM_BLACK_NOTES : Z := 5.
Definition NUM_NOTES_PER_OCTAVE : Z := wrap_size (NUM_WHITE_NOTES + NUM_BLACK_NOTES).
Definition NUM_OCTAVES : Z := 8.

Definition WHITE_KEY_WIDTH : Z := 150.
Definition WHITE_KEY_HEIGHT : Z := 24.
Definition BLACK_KEY_WIDTH : Z := 100.
Definition BLACK_KEY_HEIGHT : Z := 20.

Definition TICK_WIDTH : Z := 3.
Definition TICKS_PER_STEP : Z := 12.

Definition SONG_LENGTH : Z := 3072.

(** A note box: the note it shows, its tick, and the widget rectangle and
    colour kept by the toolkit's [Fl_Box]. *)
Record Note_Box : Set := mkNote_Box {
  note_view : Note_View;
  tick : Z;
  box_x : Z;
  box_y : Z;
  box_w : Z;
  box_h : Z;
  box_color : Fl_Color
}.

(** ** Row and column sizes ([Piano_Roll::white_key_height] ... [tick_width]) *)

Definition white_key_height : Z := WHITE_KEY_HEIGHT.
Definition black_key_height : Z := BLACK_KEY_HEIGHT.
Definition octave_height : Z :=
  wrap32 (wrap_size (wrap_size white_key_height * NUM_WHITE_NOTES)).
Definition note_row_height : Z :=
  wrap32 (wrap_size octave_height / NUM_NOTES_PER_OCTAVE).
Definition black_key_offset : Z :=
  (note_row_height / 2 - black_key_height / 2)%int.
Definition tick_width : Z := TICK_WIDTH.

(** ** Tick/pixel mapping

    The two lambdas are written out twice in the source, once in
    [Piano_Timeline::set_channel] and once in [Piano_Timeline::calc_sizes];
    both copies are embedded, each next to the function that owns it.  [X] and
    [Y] are the timeline's [x()] and [y()]. *)

Module Set_Channel.
Definition tick_to_x_pos (X t : Z) : Z :=
  (X + WHITE_KEY_WIDTH + t * tick_width)%int.
Definition pitch_to_y_pos (Y : Z) (p : Pitch) (o : Z) : Z :=
  (Y + (wrap32 NUM_OCTAVES - o) * octave_height
     + (wrap32 NUM_NOTES_PER_OCTAVE - Pitch_to_int p) * note_row_height)%int.
End Set_Channel.

Module Calc_Sizes.
Definition tick_to_x_pos (X t : Z) : Z :=
  (X + WHITE_KEY_WIDTH + t * tick_width)%int.
Definition pitch_to_y_pos (Y : Z) (p : Pitch) (o : Z) : Z :=
  (Y + (wrap32 NUM_OCTAVES - o) * octave_height
     + (wrap32 NUM_NOTES_PER_OCTAVE - Pitch_to_int p) * note_row_height)%int.
End Calc_Sizes.

(** [Piano_Timeline::set_channel]: the loop over [notes].  [channel] is the
    vector the boxes are pushed onto and [t] the running tick. *)
Fixpoint set_channel_loop (X Y : Z) (color : Fl_Color)
    (notes : list Note_View) (t : Z) (channel : list Note_Box)
  : list Note_Box :=
  match notes with
  | [] => channel
  | note :: notes' =>
      let channel' :=
        if negb (Pitch_eqb (note_pitch note) REST) then
          channel ++
          [ {| note_view := note;
               tick := t;
               box_x := Set_Channel.tick_to_x_pos X t;
               box_y := Set_Channel.pitch_to_y_pos Y (note_pitch note) (note_octave note);
               box_w := (note_length note * note_speed note * tick_width)%int;
               box_h := note_row_height;
               box_color := color |} ]
        else channel in
      set_channel_loop X Y color notes'
        (t + note_length note * note_speed note)%int channel'
  end.

Definition set_channel (X Y : Z) (channel : list Note_Box)
    (notes : list Note_View) (color : Fl_Color) : list Note_Box :=
  set_channel_loop X Y color notes 0 channel.

(** [Piano_Timeline::calc_sizes]: [resize_notes] applied to one channel. *)
Definition resize_note (X Y : Z) (note : Note_Box) : Note_Box :=
  {| note_view := note_view note;
     tick := tick note;
     box_x := Calc_Sizes.tick_to_x_pos X (tick note);
     box_y := Calc_Sizes.pitch_to_y_pos Y (note_pitch (note_view note))
                (note_octave (note_view note));
     box_w := (note_length (note_view note) * note_speed (note_view note)
               * tick_width)%int;
     box_h := note_row_height;
     box_color := box_color note |}.

Definition resize_notes (X Y : Z) (notes : list Note_Box) : list Note_Box :=
  map (resize_note X Y) notes.

(** A widget moved by [(dx, dy)], as the toolkit's [Fl_Group::resize] does to
    every child of a group whose position changes. *)
Definition move_note (dx dy : Z) (note : Note_Box) : Note_Box :=
  {| note_view := note_view note;
     tick := tick note;
     box_x := (box_x note + dx)%int;
     box_y := (box_y note + dy)%int;
     box_w := box_w note;
     box_h := box_h note;
     box_color := box_color note |}.

Definition color_note (c : Fl_Color) (note : Note_Box) : Note_Box :=
  {| note_view := note_view note;
     tick := tick note;
     box_x := box_x note;
     box_y := box_y note;
     box_w := box_w note;
     box_h := box_h note;
     box_color := c |}.

(** ** [Piano_Keys]

    The pitch and octave sounding on each channel, and the position of the
    keyboard widget.  The colours of the 96 key boxes are only painted, by
    [update_key_colors] and [reset_key_colors], and are not part of the
    record. *)

Module Piano_Keys.

Record t : Set := mk {
  x : Z;
  y : Z;
  _channel_1_pitch : Pitch;
  _channel_1_octave : Z;
  _channel_2_pitch : Pitch;
  _channel_2_octave : Z;
  _channel_3_pitch : Pitch;
  _channel_3_octave : Z;
  _channel_4_pitch : Pitch;
  _channel_4_octave : Z
}.

Definition set_channel_1_pitch (p : Pitch) (o : Z) (k : t) : t :=
  mk (x k) (y k) p o
     (_channel_2_pitch k) (_channel_2_octave k)
     (_channel_3_pitch k) (_channel_3_octave k)
     (_channel_4_pitch k) (_channel_4_octave k).

Definition set_channel_2_pitch (p : Pitch) (o : Z) (k : t) : t :=
  mk (x k) (y k) (_channel_1_pitch k) (_channel_1_octave k)
     p o
     (_channel_3_pitch k) (_channel_3_octave k)
     (_channel_4_pitch k) (_channel_4_octave k).

Definition set_channel_3_pitch (p : Pitch) (o : Z) (k : t) : t :=
  mk (x k) (y k) (_channel_1_pitch k) (_channel_1_octave k)
     (_channel_2_pitch k) (_channel_2_octave k)
     p o
     (_channel_4_pitch k) (_channel_4_octave k).

Definition set_channel_4_pitch (p : Pitch) (o : Z) (k : t) : t :=
  mk (x k) (y k) (_channel_1_pitch k) (_channel_1_octave k)
     (_channel_2_pitch k) (_channel_2_octave k)
     (_channel_3_pitch k) (_channel_3_octave k)
     p o.

(** [assert(channel_number >= 1 && channel_number <= 4)]: a failed assertion
    aborts the program, which is the result [None]. *)
Definition set_channel_pitch (channel_number : Z) (p : Pitch) (o : Z) (k : t)
  : option t :=
  if (channel_number >=? 1) && (channel_number <=? 4) then
    if channel_number =? 1 then Some (set_channel_1_pitch p o k)
    else if channel_number =? 2 then Some (set_channel_2_pitch p o k)
    else if channel_number =? 3 then Some (set_channel_3_pitch p o k)
    else Some (set_channel_4_pitch p o k)
  else None.

Definition reset_channel_pitches (k : t) : t :=
  set_channel_4_pitch REST 0
    (set_channel_3_pitch REST 0
      (set_channel_2_pitch REST 0
        (set_channel_1_pitch REST 0 k))).

Definition position (X Y : Z) (k : t) : t :=
  mk X Y (_channel_1_pitch k) (_channel_1_octave k)
     (_channel_2_pitch k) (_channel_2_octave k)
     (_channel_3_pitch k) (_channel_3_octave k)
     (_channel_4_pitch k) (_channel_4_octave k).

(** Which channel a dispatch wrote: the pair stored for channel [n]. *)
Definition channel_pitch (n : Z) (k : t) : Pitch * Z :=
  if n =? 1 then (_channel_1_pitch k, _channel_1_octave k)
  else if n =? 2 then (_channel_2_pitch k, _channel_2_octave k)
  else if n =? 3 then (_channel_3_pitch k, _channel_3_octave k)
  else (_channel_4_pitch k, _channel_4_octave k).

End Piano_Keys.

(** ** [Piano_Timeline] *)

Module Piano_Timeline.

Record t : Set := mk {
  x : Z;
  y : Z;
  w : Z;
  h : Z;
  _keys : Piano_Keys.t;
  _channel_1_notes : list Note_Box;
  _channel_2_notes : list Note_Box;
  _channel_3_notes : list Note_Box;
  _channel_4_notes : list Note_Box
}.

Definition set_w (W : Z) (tl : t) : t :=
  mk (x tl) (y tl) W (h tl) (_keys tl)
     (_channel_1_notes tl) (_channel_2_notes tl)
     (_channel_3_notes tl) (_channel_4_notes tl).

Definition set_keys (k : Piano_Keys.t) (tl : t) : t :=
  mk (x tl) (y tl) (w tl) (h tl) k
     (_channel_1_notes tl) (_channel_2_notes tl)
     (_channel_3_notes tl) (_channel_4_notes tl).

(** [Fl_Widget::position] on the timeline: the group and all its children
    move by the same offset. *)
Definition move (dx dy : Z) (tl : t) : t :=
  mk (x tl + dx)%int (y tl + dy)%int (w tl) (h tl)
     (Piano_Keys.position (Piano_Keys.x (_keys tl) + dx)%int
        (Piano_Keys.y (_keys tl) + dy)%int (_keys tl))
     (map (move_note dx dy) (_channel_1_notes tl))
     (map (move_note dx dy) (_channel_2_notes tl))
     (map (move_note dx dy) (_channel_3_notes tl))
     (map (move_note dx dy) (_channel_4_notes tl)).

Definition calc_sizes (tl : t) : t :=
  mk (x tl) (y tl) (w tl) (h tl) (_keys tl)
     (resize_notes (x tl) (y tl) (_channel_1_notes tl))
     (resize_notes (x tl) (y tl) (_channel_2_notes tl))
     (resize_notes (x tl) (y tl) (_channel_3_notes tl))
     (resize_notes (x tl) (y tl) (_channel_4_notes tl)).

Definition reset_note_colors (tl : t) : t :=
  mk (x tl) (y tl) (w tl) (h tl) (_keys tl)
     (map (color_note NOTE_RED) (_channel_1_notes tl))
     (map (color_note NOTE_BLUE) (_channel_2_notes tl))
     (map (color_note NOTE_GREEN) (_channel_3_notes tl))
     (map (color_note NOTE_BROWN) (_channel_4_notes tl)).

(** The loop of [highlight_tick]; [return] inside the loop leaves the
    remaining notes untouched. *)
Fixpoint highlight_tick_loop (channel_number tk : Z) (color : Fl_Color)
    (notes : list Note_Box) (k : Piano_Keys.t)
  : option (Piano_Keys.t * list Note_Box) :=
  match notes with
  | [] => Some (k, [])
  | note :: notes' =>
      let view := note_view note in
      let t_left := tick note in
      let t_right := (t_left + note_length view * note_speed view)%int in
      if t_left >? tk then Some (k, note :: notes')
      else
        match (if t_right >? tk
               then Piano_Keys.set_channel_pitch channel_number
                      (note_pitch view) (note_octave view) k
               else Some k) with
        | None => None
        | Some k' =>
            let note' :=
              if negb (Fl_Color_eqb (box_color note) color)
              then color_note color note else note in
            match highlight_tick_loop channel_number tk color notes' k' with
            | None => None
            | Some (k'', rest) => Some (k'', note' :: rest)
            end
        end
  end.

Definition highlight_tick (notes : list Note_Box) (channel_number tk : Z)
    (color : Fl_Color) (k : Piano_Keys.t)
  : option (Piano_Keys.t * list Note_Box) :=
  match Piano_Keys.set_channel_pitch channel_number REST 0 k with
  | None => None
  | Some k' => highlight_tick_loop channel_number tk color notes k'
  end.

Definition highlight_channel_1_tick (tk : Z) (tl : t) : option t :=
  match highlight_tick (_channel_1_notes tl) 1 tk NOTE_RED_LIGHT (_keys tl) with
  | None => None
  | Some (k, notes) =>
      Some (mk (x tl) (y tl) (w tl) (h tl) k notes (_channel_2_notes tl)
               (_channel_3_notes tl) (_channel_4_notes tl))
  end.

Definition highlight_channel_2_tick (tk : Z) (tl : t) : option t :=
  match highlight_tick (_channel_2_notes tl) 2 tk NOTE_BLUE_LIGHT (_keys tl) with
  | None => None
  | Some (k, notes) =>
      Some (mk (x tl) (y tl) (w tl) (h tl) k (_channel_1_notes tl) notes
               (_channel_3_notes tl) (_channel_4_notes tl))
  end.

Definition highlight_channel_3_tick (tk : Z) (tl : t) : option t :=
  match highlight_tick (_channel_3_notes tl) 3 tk NOTE_GREEN_LIGHT (_keys tl) with
  | None => None
  | Some (k, notes) =>
      Some (mk (x tl) (y tl) (w tl) (h tl) k (_channel_1_notes tl)
               (_channel_2_notes tl) notes (_channel_4_notes tl))
  end.

Definition highlight_channel_4_tick (tk : Z) (tl : t) : option t :=
  match highlight_tick (_channel_4_notes tl) 4 tk NOTE_BROWN_LIGHT (_keys tl) with
  | None => None
  | Some (k, notes) =>
      Some (mk (x tl) (y tl) (w tl) (h tl) k (_channel_1_notes tl)
               (_channel_2_notes tl) (_channel_3_notes tl) notes)
  end.

Definition set_channel_1 (notes : list Note_View) (tl : t) : t :=
  mk (x tl) (y tl) (w tl) (h tl) (_keys tl)
     (set_channel (x tl) (y tl) (_channel_1_notes tl) notes NOTE_RED)
     (_channel_2_notes tl) (_channel_3_notes tl) (_channel_4_notes tl).

Definition set_channel_2 (notes : list Note_View) (tl : t) : t :=
  mk (x tl) (y tl) (w tl) (h tl) (_keys tl) (_channel_1_notes tl)
     (set_channel (x tl) (y tl) (_channel_2_notes tl) notes NOTE_BLUE)
     (_channel_3_notes tl) (_channel_4_notes tl).

Definition set_channel_3 (notes : list Note_View) (tl : t) : t :=
  mk (x tl) (y tl) (w tl) (h tl) (_keys tl) (_channel_1_notes tl)
     (_channel_2_notes tl)
     (set_channel (x tl) (y tl) (_channel_3_notes tl) notes NOTE_GREEN)
     (_channel_4_notes tl).

Definition set_channel_4 (notes : list Note_View) (tl : t) : t :=
  mk (x tl) (y tl) (w tl) (h tl) (_keys tl) (_channel_1_notes tl)
     (_channel_2_notes tl) (_channel_3_notes tl)
     (set_channel (x tl) (y tl) (_channel_4_notes tl) notes NOTE_BROWN).

End Piano_Timeline.

(** ** The synthetic note sequence ([Piano_Roll::build_note_view])

    [rand()] returns a non-negative [int]; the sequence of its results is a
    stream of naturals [rs], and the number of values already drawn is passed
    along.  Each turn of the loop draws the speed, the length and the pitch in
    that order. *)

Definition rand_stream : Type := nat -> N.

Definition rand (rs : rand_stream) (i : nat) : Z := Z.of_N (rs i).

Definition drawn_note (rs : rand_stream) (i : nat) (channel_number : Z)
  : Note_View :=
  let speed := (int_rem (rand rs i) 4 + 1)%int in
  let length := (int_rem (rand rs (i + 1)) 4 + 1)%int in
  let pitch := Pitch_of_int (int_rem (rand rs (i + 2)) 12 + 1)%int in
  {| note_length := length;
     note_pitch := pitch;
     note_octave := channel_number;
     note_speed := speed |}.

(** Upper bound on the turns the loop still takes from tick [t]. *)
Definition turns_left (t : Z) : nat := Z.to_nat (3072 - 16 - t).

Equations? build_note_view_loop (rs : rand_stream) (channel_number : Z)
    (i : nat) (t : Z) (notes : list Note_View)
  : list Note_View * nat by wf (turns_left t) lt :=
  build_note_view_loop rs channel_number i t notes
    with Z_lt_dec t (3072 - 16) => {
    | left _ :=
        let note := drawn_note rs i channel_number in
        build_note_view_loop rs channel_number (i + 3)
          (t + note_length note * note_speed note)%int (notes ++ [note]);
    | right _ := (notes, i) }.
Proof.
  clear build_note_view_loop.
  unfold drawn_note, int_add, int_mul, int_rem, rand; cbn [note_length note_speed].
  set (a := Z.of_N (rs (i + 1)%nat)). set (b := Z.of_N (rs i)).
  assert (Ha : 0 <= Z.rem a 4 < 4) by (apply Z.rem_bound_pos; subst a; lia).
  assert (Hb : 0 <= Z.rem b 4 < 4) by (apply Z.rem_bound_pos; subst b; lia).
  assert (Hw : forall z, - 2 ^ 31 <= z < 2 ^ 31 -> wrap32 z = z).
  { intros z Hz. unfold wrap32. rewrite Z.mod_small; lia. }
  rewrite (Hw (Z.rem a 4 + 1)), (Hw (Z.rem b 4 + 1)) by lia.
  assert (Hp : 1 <= (Z.rem a 4 + 1) * (Z.rem b 4 + 1) <= 16) by nia.
  rewrite (Hw ((Z.rem a 4 + 1) * (Z.rem b 4 + 1))) by lia.
  set (p := (Z.rem a 4 + 1) * (Z.rem b 4 + 1)) in *.
  destruct (Z_lt_dec t (- 2 ^ 31)) as [Hlow | Hlow].
  - assert (- 2 ^ 31 <= wrap32 (t + p)).
    { unfold wrap32. pose proof (Z.mod_pos_bound (t + p + 2 ^ 31) (2 ^ 32)). lia. }
    unfold turns_left. lia.
  - rewrite Hw by lia. unfold turns_left. lia.
Qed.

Definition build_note_view (rs : rand_stream) (i : nat) (channel_number : Z)
    (notes : list Note_View) : list Note_View * nat :=
  build_note_view_loop rs channel_number i 0 notes.

(** [std::vector::back] on a non-empty vector. *)
Fixpoint back {A : Type} (l : list A) : option A :=
  match l with
  | [] => None
  | [a] => Some a
  | _ :: l' => back l'
  end.

(** ** [Piano_Roll]

    The scroll container.  [x] ... [hscrollbar_h] are the state of the
    toolkit's [Fl_Scroll] base class that the program reads: the widget
    rectangle, the scroll position and the thickness of the two scrollbars.
    [Piano_Timeline::_cursor_tick] and the damage flags are written and read
    by the drawing code only and are left out. *)

Module Piano_Roll.

Record t : Type := mk {
  x : Z;
  y : Z;
  w : Z;
  h : Z;
  xposition : Z;
  yposition : Z;
  scrollbar_w : Z;
  hscrollbar_h : Z;
  _tick : Z;
  _following : bool;
  _continuous : bool;
  _paused : bool;
  _ticks_per_step : Z;
  _piano_timeline : Piano_Timeline.t;
  _channel_1_notes : list Note_View;
  _channel_2_notes : list Note_View;
  _channel_3_notes : list Note_View;
  _channel_4_notes : list Note_View;
  _song_length : Z
}.

Definition ticks_per_step (r : t) : Z := _ticks_per_step r.

Definition with_size (W H : Z) (r : t) : t :=
  mk (x r) (y r) W H (xposition r) (yposition r) (scrollbar_w r)
     (hscrollbar_h r) (_tick r) (_following r) (_continuous r) (_paused r)
     (_ticks_per_step r) (_piano_timeline r) (_channel_1_notes r)
     (_channel_2_notes r) (_channel_3_notes r) (_channel_4_notes r)
     (_song_length r).

Definition with_scroll (X Y : Z) (tl : Piano_Timeline.t) (r : t) : t :=
  mk (x r) (y r) (w r) (h r) X Y (scrollbar_w r)
     (hscrollbar_h r) (_tick r) (_following r) (_continuous r) (_paused r)
     (_ticks_per_step r) tl (_channel_1_notes r)
     (_channel_2_notes r) (_channel_3_notes r) (_channel_4_notes r)
     (_song_length r).

Definition with_timeline (tl : Piano_Timeline.t) (r : t) : t :=
  with_scroll (xposition r) (yposition r) tl r.

Definition with_tick (tk : Z) (r : t) : t :=
  mk (x r) (y r) (w r) (h r) (xposition r) (yposition r) (scrollbar_w r)
     (hscrollbar_h r) tk (_following r) (_continuous r) (_paused r)
     (_ticks_per_step r) (_piano_timeline r) (_channel_1_notes r)
     (_channel_2_notes r) (_channel_3_notes r) (_channel_4_notes r)
     (_song_length r).

Definition with_following (following paused : bool) (r : t) : t :=
  mk (x r) (y r) (w r) (h r) (xposition r) (yposition r) (scrollbar_w r)
     (hscrollbar_h r) (_tick r) following (_continuous r) paused
     (_ticks_per_step r) (_piano_timeline r) (_channel_1_notes r)
     (_channel_2_notes r) (_channel_3_notes r) (_channel_4_notes r)
     (_song_length r).

Definition set_continuous_scroll (c : bool) (r : t) : t :=
  mk (x r) (y r) (w r) (h r) (xposition r) (yposition r) (scrollbar_w r)
     (hscrollbar_h r) (_tick r) (_following r) c (_paused r)
     (_ticks_per_step r) (_piano_timeline r) (_channel_1_notes r)
     (_channel_2_notes r) (_channel_3_notes r) (_channel_4_notes r)
     (_song_length r).

Definition with_song (notes1 notes2 notes3 notes4 : list Note_View)
    (song_length : Z) (r : t) : t :=
  mk (x r) (y r) (w r) (h r) (xposition r) (yposition r) (scrollbar_w r)
     (hscrollbar_h r) (_tick r) (_following r) (_continuous r) (_paused r)
     (_ticks_per_step r) (_piano_timeline r) notes1 notes2 notes3 notes4
     song_length.

(** [Fl_Scroll::scroll_to] of the toolkit: the position is recorded and every
    child other than the scrollbars, here the timeline, is moved by the
    difference between the old and the new position (by nothing when the
    position is the current one). *)
Definition scroll_to (X Y : Z) (r : t) : t :=
  let dx := (xposition r - X)%int in
  let dy := (yposition r - Y)%int in
  with_scroll X Y (Piano_Timeline.move dx dy (_piano_timeline r)) r.

(** [Fl_Widget::position] on the scroll widget: the toolkit's
    [Fl_Scroll::resize] moves the widget and, by the same offset, its
    children. *)
Definition position (X Y : Z) (r : t) : t :=
  let dx := (X - x r)%int in
  let dy := (Y - y r)%int in
  mk X Y (w r) (h r) (xposition r) (yposition r) (scrollbar_w r)
     (hscrollbar_h r) (_tick r) (_following r) (_continuous r) (_paused r)
     (_ticks_per_step r) (Piano_Timeline.move dx dy (_piano_timeline r))
     (_channel_1_notes r) (_channel_2_notes r) (_channel_3_notes r)
     (_channel_4_notes r) (_song_length r).

Definition scroll_x_max (r : t) : Z :=
  (Piano_Timeline.w (_piano_timeline r) - (w r - scrollbar_w r))%int.

Definition scroll_y_max (r : t) : Z :=
  (Piano_Timeline.h (_piano_timeline r) - (h r - hscrollbar_h r))%int.

Definition sticky_keys (r : t) : t :=
  let keys := Piano_Timeline._keys (_piano_timeline r) in
  with_timeline
    (Piano_Timeline.set_keys (Piano_Keys.position 0 (Piano_Keys.y keys) keys)
       (_piano_timeline r)) r.

Definition scroll_to_y_max (r : t) : t :=
  scroll_to (xposition r) (scroll_y_max r) r.

Definition get_channel_last_note_x (tl : Piano_Timeline.t)
    (notes : list Note_Box) : Z :=
  match back notes with
  | Some note => (box_x note - Piano_Timeline.x tl)%int
  | None => 0
  end.

Definition get_last_note_x (r : t) : Z :=
  let tl := _piano_timeline r in
  Z.max (Z.max (Z.max
    (get_channel_last_note_x tl (Piano_Timeline._channel_1_notes tl))
    (get_channel_last_note_x tl (Piano_Timeline._channel_2_notes tl)))
    (get_channel_last_note_x tl (Piano_Timeline._channel_3_notes tl)))
    (get_channel_last_note_x tl (Piano_Timeline._channel_4_notes tl)).

Definition set_timeline_width (r : t) : t :=
  let r1 :=
    with_timeline
      (Piano_Timeline.set_w
         (Z.max (WHITE_KEY_WIDTH + _song_length r * tick_width)%int
                (w r - scrollbar_w r)%int)
         (_piano_timeline r)) r in
  let last_note_x := get_last_note_x r1 in
  let width := (last_note_x + w r1 - scrollbar_w r1 - WHITE_KEY_WIDTH)%int in
  if width >? Piano_Timeline.w (_piano_timeline r1) then
    with_timeline (Piano_Timeline.set_w width (_piano_timeline r1)) r1
  else r1.

Definition set_size (W H : Z) (r : t) : t :=
  if negb (W =? w r) || negb (H =? h r) then
    let r1 := set_timeline_width (with_size W H r) in
    let r2 :=
      if xposition r1 >? scroll_x_max r1
      then sticky_keys (scroll_to (scroll_x_max r1) (yposition r1) r1)
      else r1 in
    if yposition r2 >? scroll_y_max r2
    then scroll_to (xposition r2) (scroll_y_max r2) r2
    else r2
  else r.

(** [set_timeline]: the four channels are generated one after the other from
    the same random stream; the result carries the number of values drawn. *)
Definition set_timeline (rs : rand_stream) (i : nat) (r : t) : t * nat :=
  let '(notes1, i1) := build_note_view rs i 1 (_channel_1_notes r) in
  let '(notes2, i2) := build_note_view rs i1 2 (_channel_2_notes r) in
  let '(notes3, i3) := build_note_view rs i2 3 (_channel_3_notes r) in
  let '(notes4, i4) := build_note_view rs i3 4 (_channel_4_notes r) in
  let r1 := with_song notes1 notes2 notes3 notes4 3072 r in
  let tl :=
    Piano_Timeline.set_channel_4 notes4
      (Piano_Timeline.set_channel_3 notes3
        (Piano_Timeline.set_channel_2 notes2
          (Piano_Timeline.set_channel_1 notes1 (_piano_timeline r1)))) in
  (set_timeline_width (with_timeline tl r1), i4).

Definition reset_following (r : t) : t :=
  let tl := Piano_Timeline.reset_note_colors (_piano_timeline r) in
  with_timeline
    (Piano_Timeline.set_keys
       (Piano_Keys.reset_channel_pitches (Piano_Timeline._keys tl)) tl) r.

Definition start_following (r : t) : t :=
  let r1 := reset_following (with_following true false r) in
  if _tick r1 =? -1 then sticky_keys (scroll_to 0 (yposition r1) r1) else r1.

Definition unpause_following (r : t) : t := with_following true false r.

Definition stop_following (r : t) : t :=
  reset_following (with_tick (-1) (with_following false false r)).

Definition pause_following (r : t) : t := with_following false true r.

(** The cursor's pixel offset from the start of the timeline's note area. *)
Definition cursor_x_pos (r : t) : Z :=
  ((_tick r / ticks_per_step r * ticks_per_step r) * tick_width)%int.

(** The tick at which [Piano_Timeline::draw] paints the cursor
    ([_cursor_tick]): the roll's tick, rounded down to a step when there is
    one (it is not -1) and the roll is following or paused. *)
Definition cursor_tick (r : t) : Z :=
  if negb (_tick r =? -1) && (_following r || _paused r)
  then (_tick r / ticks_per_step r * ticks_per_step r)%int
  else _tick r.

(** Where [Piano_Timeline::draw] puts the cursor line on the screen. *)
Definition cursor_screen_x (r : t) : Z :=
  (Piano_Timeline.x (_piano_timeline r)
   + cursor_tick r * tick_width
   + WHITE_KEY_WIDTH)%int.

(** The position [focus_cursor] passes to [scroll_to] when it scrolls. *)
Definition focus_target (center : bool) (r : t) : Z :=
  let x_pos := cursor_x_pos r in
  let scroll_pos :=
    if center then (x_pos + WHITE_KEY_WIDTH - w r / 2)%int else x_pos in
  Z.min (Z.max scroll_pos 0) (scroll_x_max r).

Definition focus_cursor (center : bool) (r : t) : t :=
  let x_pos := cursor_x_pos r in
  if (_following r && _continuous r)
     || (x_pos >? (xposition r + w r - WHITE_KEY_WIDTH * 2)%int)
     || (x_pos <? xposition r)
  then sticky_keys (scroll_to (focus_target center r) (yposition r) r)
  else r.

Definition highlight_channels (tk : Z) (tl : Piano_Timeline.t)
  : option Piano_Timeline.t :=
  match Piano_Timeline.highlight_channel_1_tick tk tl with
  | None => None
  | Some tl1 =>
      match Piano_Timeline.highlight_channel_2_tick tk tl1 with
      | None => None
      | Some tl2 =>
          match Piano_Timeline.highlight_channel_3_tick tk tl2 with
          | None => None
          | Some tl3 => Piano_Timeline.highlight_channel_4_tick tk tl3
          end
      end
  end.

(** [highlight_tick]; [focus_cursor()] is called with its default argument
    [center = false]. *)
Definition highlight_tick (tk : Z) (r : t) : option t :=
  if _tick r =? tk then Some r
  else
    let r1 := with_tick tk r in
    match highlight_channels (_tick r1) (_piano_timeline r1) with
    | None => None
    | Some tl => Some (focus_cursor false (with_timeline tl r1))
    end.

(** The scrollbar callbacks; [value] is the scrollbar's [value()]. *)
Definition scrollbar_cb (value : Z) (r : t) : t :=
  scroll_to (xposition r) (Z.min value (scroll_y_max r)) r.

Definition hscrollbar_cb (value : Z) (r : t) : t :=
  let r1 :=
    sticky_keys (scroll_to (Z.min value (scroll_x_max r)) (yposition r) r) in
  if _following r1 then focus_cursor false r1 else r1.

(** The constructor: an [Fl_Scroll] at [(X, Y)] of size [W] by [H] with
    scrollbars of thickness [sb], holding a timeline of width [W - sb]. *)
Definition make (rs : rand_stream) (X Y W H sb : Z) : t :=
  let keys := Piano_Keys.mk X Y REST 0 REST 0 REST 0 REST 0 in
  let tl :=
    Piano_Timeline.mk X Y (W - sb)%int
      (wrap32 (wrap_size (NUM_OCTAVES * wrap_size octave_height)))
      keys [] [] [] [] in
  fst (set_timeline rs 0
         (mk X Y W H 0 0 sb sb (-1) false true false TICKS_PER_STEP tl
             [] [] [] [] (-1))).

End Piano_Roll.

(** ** [IT_Module]: the playback counter *)

Module IT_Module.

Record t : Set := mk {
  _current_tick : Z;
  _playing : bool;
  _paused : bool;
  _speed : Z
}.

Definition init : t := mk 0 false false 1.

Definition ready (m : t) : bool := true.
Definition playing (m : t) : bool := _playing m.
Definition paused (m : t) : bool := _paused m.
Definition stopped (m : t) : bool := negb (playing m) && negb (paused m).

Definition start (m : t) : t := mk (_current_tick m) true false (_speed m).
Definition stop (m : t) : t := mk 0 false false (_speed m).
Definition pause (m : t) : t := mk (_current_tick m) false true (_speed m).

Definition current_tick (m : t) : Z := _current_tick m.
Definition speed (m : t) : Z := _speed m.
Definition set_speed (s : Z) (m : t) : t :=
  mk (_current_tick m) (_playing m) (_paused m) s.

Definition play (m : t) : t :=
  if negb (ready m) || negb (playing m) then m
  else
    let count := 1 in
    let m1 := mk (_current_tick m + _speed m)%int (_playing m) (_paused m)
                 (_speed m) in
    let m2 := if _current_tick m1 >=? 3072
              then mk 0 (_playing m1) (_paused m1) (_speed m1) else m1 in
    if count =? 0 then stop m2 else m2.

(** The calls a client can make on the module. *)
Inductive call : Set :=
| Start | Stop | Pause | Play | Speed (s : Z).

Definition run_call (c : call) (m : t) : t :=
  match c with
  | Start => start m
  | Stop => stop m
  | Pause => pause m
  | Play => play m
  | Speed s => set_speed s m
  end.

Definition run_calls (cs : list call) (m : t) : t :=
  fold_left (fun m c => run_call c m) cs m.

End IT_Module.

(** ** [Main_Window]: the timer thread and the UI thread

    [audio_thread] is the playback thread when one is running, given by the
    value of its local variable [tick]; [awake_queue] is the number of
    [sync_cb] handlers handed to the toolkit with [Fl::awake] and not yet run.
    The body of one turn of the thread's loop runs with [_audio_mutex] held,
    and so does [sync_cb]; the UI callbacks that touch the module without the
    mutex first join the thread.  Each of them is therefore one step. *)

Module Main_Window.

Record t : Type := mk {
  _piano_roll : Piano_Roll.t;
  _it_module : IT_Module.t;
  _tick : Z;
  _sync_requested : bool;
  audio_thread : option Z;
  awake_queue : nat
}.

Definition init (pr : Piano_Roll.t) : t :=
  mk pr IT_Module.init (-1) false None 0.

Definition MENU_BAR_HEIGHT : Z := 21.
Definition STATUS_BAR_HEIGHT : Z := 23.

Definition playing (mw : t) : bool := IT_Module.playing (_it_module mw).
Definition paused (mw : t) : bool := IT_Module.paused (_it_module mw).
Definition stopped (mw : t) : bool := IT_Module.stopped (_it_module mw).

(** [if (!mw->_sync_requested) { Fl::awake(sync_cb, mw);
    mw->_sync_requested = true; }] *)
Definition request_sync (mw : t) : t :=
  if negb (_sync_requested mw) then
    mk (_piano_roll mw) (_it_module mw) (_tick mw) true (audio_thread mw)
       (S (awake_queue mw))
  else mw.

(** One turn of the loop of [playback_thread] in which [try_lock] succeeds;
    [tick] is the thread's local variable.  A turn that does not get the mutex
    changes nothing. *)
Definition playback_turn (tick : Z) (mw : t) : t :=
  if IT_Module.playing (_it_module mw) then
    let m := IT_Module.play (_it_module mw) in
    let tk := IT_Module.current_tick m in
    if negb (tick =? tk) then
      request_sync
        (mk (_piano_roll mw) m tk (_sync_requested mw) (Some tk)
            (awake_queue mw))
    else
      mk (_piano_roll mw) m (_tick mw) (_sync_requested mw) (Some tick)
         (awake_queue mw)
  else
    request_sync
      (mk (_piano_roll mw) (_it_module mw) (-1) (_sync_requested mw) None
          (awake_queue mw)).

(** [sync_cb]; the result is [None] when an assertion fails on the way. *)
Definition sync_cb (mw : t) : option t :=
  if IT_Module.playing (_it_module mw) && (_tick mw >? 0) then
    match Piano_Roll.highlight_tick (_tick mw) (_piano_roll mw) with
    | None => None
    | Some pr =>
        Some (mk pr (_it_module mw) (_tick mw) false (audio_thread mw)
                 (awake_queue mw))
    end
  else if IT_Module.stopped (_it_module mw) then
    Some (mk (Piano_Roll.stop_following (_piano_roll mw)) (_it_module mw)
             (-1) false (audio_thread mw) (awake_queue mw))
  else
    Some (mk (_piano_roll mw) (_it_module mw) (_tick mw) false
             (audio_thread mw) (awake_queue mw)).

(** The toolkit takes one queued handler off its queue to run it. *)
Definition take_awake (mw : t) : option t :=
  match awake_queue mw with
  | O => None
  | S n =>
      Some (mk (_piano_roll mw) (_it_module mw) (_tick mw)
               (_sync_requested mw) (audio_thread mw) n)
  end.

Definition start_audio_thread (mw : t) : t :=
  mk (_piano_roll mw) (_it_module mw) (_tick mw) (_sync_requested mw)
     (Some (-1)) (awake_queue mw).

Definition stop_audio_thread (mw : t) : t :=
  mk (_piano_roll mw) (_it_module mw) (_tick mw) (_sync_requested mw)
     None (awake_queue mw).

Definition with_playback (pr : Piano_Roll.t) (m : IT_Module.t) (mw : t) : t :=
  mk pr m (_tick mw) (_sync_requested mw) (audio_thread mw) (awake_queue mw).

Definition toggle_playback (mw : t) : t :=
  let mw := stop_audio_thread mw in
  if stopped mw then
    start_audio_thread
      (with_playback (Piano_Roll.start_following (_piano_roll mw))
         (IT_Module.start (_it_module mw)) mw)
  else if paused mw then
    start_audio_thread
      (with_playback (Piano_Roll.unpause_following (_piano_roll mw))
         (IT_Module.start (_it_module mw)) mw)
  else
    with_playback (Piano_Roll.pause_following (_piano_roll mw))
      (IT_Module.pause (_it_module mw)) mw.

Definition stop_playback (mw : t) : t :=
  let mw := stop_audio_thread mw in
  if negb (IT_Module.stopped (_it_module mw)) then
    mk (Piano_Roll.stop_following (_piano_roll mw))
       (IT_Module.stop (_it_module mw)) (-1) (_sync_requested mw)
       (audio_thread mw) (awake_queue mw)
  else mw.

(** [speed] is the slider's value converted to [int]. *)
Definition speed_slider_cb (speed : Z) (mw : t) : t :=
  if negb (speed =? IT_Module.speed (_it_module mw)) then
    with_playback (_piano_roll mw) (IT_Module.set_speed speed (_it_module mw))
      mw
  else mw.

Definition continuous_cb (c : bool) (mw : t) : t :=
  with_playback (Piano_Roll.set_continuous_scroll c (_piano_roll mw))
    (_it_module mw) mw.

(** [resize], as far as the piano roll goes; the window's own
    [Fl_Double_Window::resize], called last, belongs to the toolkit. *)
Definition resize (W H : Z) (mw : t) : t :=
  with_playback
    (Piano_Roll.set_size W (H - MENU_BAR_HEIGHT - STATUS_BAR_HEIGHT)%int
       (Piano_Roll.position 0 MENU_BAR_HEIGHT (_piano_roll mw)))
    (_it_module mw) mw.

(** The steps of the two threads: a turn of the playback thread, the
    toolkit running a queued [sync_cb], and the UI callbacks. *)
Inductive step : t -> t -> Prop :=
| step_continuous mw c :
    step mw (continuous_cb c mw)
| step_resize mw W H :
    step mw (resize W H mw)
| step_scrollbar mw value :
    step mw (with_playback (Piano_Roll.scrollbar_cb value (_piano_roll mw))
               (_it_module mw) mw)
| step_hscrollbar mw value :
    step mw (with_playback (Piano_Roll.hscrollbar_cb value (_piano_roll mw))
               (_it_module mw) mw)
| step_playback_turn mw tick :
    audio_thread mw = Some tick ->
    step mw (playback_turn tick mw)
| step_sync mw mw1 mw2 :
    take_awake mw = Some mw1 ->
    sync_cb mw1 = Some mw2 ->
    step mw mw2
| step_toggle_playback mw :
    step mw (toggle_playback mw)
| step_stop_playback mw :
    step mw (stop_playback mw)
| step_speed_slider mw speed :
    step mw (speed_slider_cb speed mw).

Inductive reachable (pr : Piano_Roll.t) : t -> Prop :=
| reachable_init : reachable pr (init pr)
| reachable_step mw mw' :
    reachable pr mw -> step mw mw' -> reachable pr mw'.

End Main_Window.

(** ** Quantities the statements below speak about *)

(** Ticks a note lasts, and the ticks taken by a sequence of notes. *)
Definition note_ticks (n : Note_View) : Z := note_length n * note_speed n.

Definition sum_ticks (notes : list Note_View) : Z :=
  fold_right Z.add 0 (map note_ticks notes).

Definition is_note (n : Note_View) : bool := negb (Pitch_eqb (note_pitch n) REST).

(** A box whose rectangle is the one [calc_sizes] gives it at origin
    [(X, Y)]. *)
Definition laid_out (X Y : Z) (note : Note_Box) : Prop :=
  resize_note X Y note = note.

(** A box whose rectangle is the one the mapping [x_pos], [y_pos] gives for
    its tick and its note. *)
Definition mapped_by (x_pos : Z -> Z) (y_pos : Pitch -> Z -> Z)
    (b : Note_Box) : Prop :=
  box_x b = x_pos (tick b)
  /\ box_y b = y_pos (note_pitch (note_view b)) (note_octave (note_view b))
  /\ box_w b
     = (note_length (note_view b) * note_speed (note_view b) * tick_width)%int
  /\ box_h b = note_row_height.

(** What [calc_sizes] makes of one channel of a timeline at [(X, Y)]: the
    boxes keep their note, tick and colour, and each has the rectangle of the
    mapping. *)
Definition resized_channel (X Y : Z) (old new : list Note_Box) : Prop :=
  map note_view new = map note_view old
  /\ map tick new = map tick old
  /\ map box_color new = map box_color old
  /\ Forall (mapped_by (Calc_Sizes.tick_to_x_pos X)
               (Calc_Sizes.pitch_to_y_pos Y)) new.

(** The scroll container keeps the timeline at its own origin less the
    scroll position. *)
Definition timeline_scrolled (r : Piano_Roll.t) : Prop :=
  Piano_Timeline.x (Piano_Roll._piano_timeline r)
  = (Piano_Roll.x r - Piano_Roll.xposition r)%int.

(** The running tick of [set_channel] after the notes [pre], from [t]. *)
Fixpoint running_tick (t : Z) (pre : list Note_View) : Z :=
  match pre with
  | [] => t
  | note :: pre' =>
      running_tick (t + note_length note * note_speed note)%int pre'
  end.

(** The invariant of the playback flags. *)
Definition not_both (m : IT_Module.t) : Prop :=
  IT_Module.playing m && IT_Module.paused m = false.

(** What a channel dispatch may change in the keyboard: nothing but the
    pair of channel [n]. *)
Definition only_channel (n : Z) (k k' : Piano_Keys.t) : Prop :=
  Piano_Keys.x k' = Piano_Keys.x k
  /\ Piano_Keys.y k' = Piano_Keys.y k
  /\ forall n', 1 <= n' <= 4 -> n' <> n ->
       Piano_Keys.channel_pitch n' k' = Piano_Keys.channel_pitch n' k.

(** What highlighting may change in the timeline: the keyboard's channel
    pairs and the colours of note boxes, never the geometry. *)
Definition same_geometry (tl tl' : Piano_Timeline.t) : Prop :=
  Piano_Timeline.x tl' = Piano_Timeline.x tl
  /\ Piano_Timeline.y tl' = Piano_Timeline.y tl
  /\ Piano_Timeline.w tl' = Piano_Timeline.w tl
  /\ Piano_Timeline.h tl' = Piano_Timeline.h tl.

(** The cursor line sits in the middle of the scroll widget. *)
Definition cursor_centered (r : Piano_Roll.t) : Prop :=
  Piano_Roll.cursor_screen_x r = Piano_Roll.x r + Z.quot (Piano_Roll.w r) 2.

(** A random stream (every note it yields is 16 ticks long) and the piano
    roll the program builds from it in its 800 by 600 window (scrollbars 16
    pixels thick), scrolled to the bottom as the window's constructor leaves
    it, then following the cursor. *)
Definition example_stream : rand_stream :=
  fun i => let n := N.of_nat i in (4 * (n + n / 3) + 3)%N.

Definition example_roll : Piano_Roll.t :=
  Piano_Roll.scroll_to_y_max (Piano_Roll.make example_stream 0 21 800 556 16).

Definition example_following : Piano_Roll.t :=
  Piano_Roll.start_following example_roll.

(** The example roll with continuous scrolling switched off, at tick 60. *)
Definition example_stepping : Piano_Roll.t :=
  Piano_Roll.with_tick 60
    (Piano_Roll.set_continuous_scroll false example_following).

(** What the statements about the example read off a piano roll: the scroll
    position, the cursor's screen position and the middle of the viewport. *)
Definition cursor_readout (r : Piano_Roll.t) : Z * Z * Z :=
  (Piano_Roll.xposition r, Piano_Roll.cursor_screen_x r,
   Piano_Roll.x r + Z.quot (Piano_Roll.w r) 2).

(** The reading of "continuous mode recenters every frame": whenever a new
    tick is highlighted while following in continuous mode, the cursor ends
    up in the middle of the viewport. *)
Definition recenters_every_tick : Prop :=
  forall (r r' : Piano_Roll.t) (tk : Z),
    Piano_Roll._following r = true ->
    Piano_Roll._continuous r = true ->
    Piano_Roll._tick r <> tk ->
    Piano_Roll.highlight_tick tk r = Some r' ->
    cursor_centered r'.

(** A wakeup is queued exactly when the request flag is set; in particular
    at most one is queued. *)
Definition coalesced (mw : Main_Window.t) : Prop :=
  Main_Window.awake_queue mw
  = if Main_Window._sync_requested mw then 1%nat else 0%nat.

(** A generated note as the generator promises it. *)
Definition generated_note (channel_number : Z) (n : Note_View) : Prop :=
  note_pitch n <> REST
  /\ 1 <= Pitch_to_int (note_pitch n) <= 12
  /\ 1 <= note_length n <= 4
  /\ 1 <= note_speed n <= 4
  /\ note_octave n = channel_number.

From Stdlib Require String.
Import String.StringSyntax.
Delimit Scope string_scope with string.

(** ** The keyboard's key boxes ([Piano_Keys::_keys])

    The layout table, the 96 key boxes the constructor creates and the
    functions that place and colour them.  The two nested loops of the source
    run through the keys in the order of the array, [_y] from 0 to 7 and
    [_x] from 0 to 11 within it; [key_slots] is that sequence of
    [(_y, NOTE_KEYS[_x])], and the loops are recursions along it. *)

Record Note_Key : Set := mkNote_Key {
  key_y : Z;
  key_delta : Z;
  key_pitch : Pitch;
  key_white : bool
}.

Definition NOTE_KEYS : list Note_Key :=
  [ mkNote_Key 0 0 B_NAT true;
    mkNote_Key 1 0 A_NAT true;
    mkNote_Key 2 1 G_NAT true;
    mkNote_Key 3 1 F_NAT true;
    mkNote_Key 4 (-1) E_NAT true;
    mkNote_Key 5 (-1) D_NAT true;
    mkNote_Key 6 0 C_NAT true;
    mkNote_Key 1 0 A_SHARP false;
    mkNote_Key 3 0 G_SHARP false;
    mkNote_Key 5 0 F_SHARP false;
    mkNote_Key 8 0 D_SHARP false;
    mkNote_Key 10 0 C_SHARP false ].

Definition PITCH_TO_KEY_INDEX : list Z :=
  [6; 11; 5; 10; 4; 3; 9; 2; 8; 1; 7; 0].

Definition C_KEY_LABELS : list String.string :=
  [ "C1"%string; "C2"%string; "C3"%string; "C4"%string;
    "C5"%string; "C6"%string; "C7"%string; "C8"%string ].

Definition is_white_key (i : Z) : bool :=
  negb ((i =? 1) || (i =? 3) || (i =? 5) || (i =? 8) || (i =? 10)).

(** The colours of a key: the toolkit's [FL_WHITE] and
    [FL_FOREGROUND_COLOR], or one of the note colours. *)
Inductive Key_Color : Set :=
| FL_WHITE
| FL_FOREGROUND_COLOR
| FL_NOTE (c : Fl_Color).

(** A key box: its rectangle, whether it is a [White_Key_Box], its label
    and its colour. *)
Record Key_Box : Set := mkKey_Box {
  key_box_x : Z;
  key_box_y : Z;
  key_box_w : Z;
  key_box_h : Z;
  key_box_white : bool;
  key_box_label : option String.string;
  key_box_color : Key_Color
}.

(** The values of [_y], and the keys in array order. *)
Definition octave_rows : list Z := [0; 1; 2; 3; 4; 5; 6; 7].

Definition key_slots : list (Z * Note_Key) :=
  flat_map (fun _y => map (pair _y) NOTE_KEYS) octave_rows.

(** The body of the constructor's loops: the box made for [NOTE_KEYS[_x]]
    in row [_y]. *)
Definition new_key (X Y : Z) (slot : Z * Note_Key) : Key_Box :=
  let '(_y, nk) := slot in
  if key_white nk then
    {| key_box_x := X; key_box_y := Y; key_box_w := 0; key_box_h := 0;
       key_box_white := true;
       key_box_label :=
         if Pitch_eqb (key_pitch nk) C_NAT
         then nth_error C_KEY_LABELS
                (Z.to_nat (wrap_size (NUM_OCTAVES - _y - 1)))
         else None;
       key_box_color := FL_WHITE |}
  else
    {| key_box_x := X; key_box_y := Y; key_box_w := 0; key_box_h := 0;
       key_box_white := false;
       key_box_label := None;
       key_box_color := FL_FOREGROUND_COLOR |}.

(** The key array after the loops of the [Piano_Keys] constructor. *)
Definition new_keys (X Y : Z) : list Key_Box := map (new_key X Y) key_slots.

Definition resize_key (X Y W H : Z) (key : Key_Box) : Key_Box :=
  {| key_box_x := X; key_box_y := Y; key_box_w := W; key_box_h := H;
     key_box_white := key_box_white key;
     key_box_label := key_box_label key;
     key_box_color := key_box_color key |}.

Definition color_key (c : Key_Color) (key : Key_Box) : Key_Box :=
  {| key_box_x := key_box_x key; key_box_y := key_box_y key;
     key_box_w := key_box_w key; key_box_h := key_box_h key;
     key_box_white := key_box_white key;
     key_box_label := key_box_label key;
     key_box_color := c |}.

(** The loops of [Piano_Keys::calc_sizes]; [white_delta] and [black_delta]
    run on from one octave to the next. *)
Fixpoint calc_sizes_loop (y_top : Z) (slots : list (Z * Note_Key))
    (keys : list Key_Box) (white_delta black_delta : Z) : list Key_Box :=
  match slots, keys with
  | (_y, nk) :: slots', key :: keys' =>
      let y_pos := (octave_height * wrap32 _y)%int in
      let delta := key_delta nk in
      if key_white nk then
        resize_key (key_box_x key)
          (y_top + y_pos + key_y nk * white_key_height + white_delta)%int
          WHITE_KEY_WIDTH
          (white_key_height + delta)%int key
        :: calc_sizes_loop y_top slots' keys'
             (white_delta + delta)%int black_delta
      else
        resize_key (key_box_x key)
          (y_top + y_pos + key_y nk * note_row_height + black_key_offset
           + black_delta)%int
          BLACK_KEY_WIDTH
          (black_key_height + delta)%int key
        :: calc_sizes_loop y_top slots' keys'
             white_delta (black_delta + delta)%int
  | _, _ => []
  end.

(** [Piano_Keys::calc_sizes] on the key array; [y_top] is read off the first
    key. *)
Definition keys_calc_sizes (keys : list Key_Box) : list Key_Box :=
  match keys with
  | [] => []
  | key0 :: _ => calc_sizes_loop (key_box_y key0) key_slots keys 0 0
  end.

(** The height [calc_sizes] gives the keyboard group. *)
Definition keys_height : Z :=
  wrap32 (wrap_size (NUM_OCTAVES * wrap_size octave_height)).

(** The index [set_key_color] computes, in [size_t] arithmetic; [None]
    when a table or the key array would be read outside its bounds. *)
Definition key_index (pitch : Pitch) (octave : Z) : option nat :=
  let _y := wrap_size (NUM_OCTAVES - octave) in
  let p := wrap_size (Pitch_to_int pitch - 1) in
  if p <? NUM_NOTES_PER_OCTAVE then
    match nth_error PITCH_TO_KEY_INDEX (Z.to_nat p) with
    | None => None
    | Some _x =>
        let i := wrap_size (_y * NUM_NOTES_PER_OCTAVE + _x) in
        if i <? NUM_NOTES_PER_OCTAVE * NUM_OCTAVES then Some (Z.to_nat i)
        else None
    end
  else None.

(** [keys[i]->color(c)]. *)
Fixpoint color_key_at (i : nat) (c : Key_Color) (keys : list Key_Box)
  : list Key_Box :=
  match keys, i with
  | [], _ => []
  | key :: keys', O => color_key c key :: keys'
  | key :: keys', S i' => key :: color_key_at i' c keys'
  end.

Definition set_key_color (pitch : Pitch) (octave : Z) (color : Key_Color)
    (keys : list Key_Box) : option (list Key_Box) :=
  match key_index pitch octave with
  | None => None
  | Some i =>
      match nth_error keys i with
      | None => None
      | Some _ => Some (color_key_at i color keys)
      end
  end.

Fixpoint reset_key_colors_loop (slots : list (Z * Note_Key))
    (keys : list Key_Box) : list Key_Box :=
  match slots, keys with
  | (_, nk) :: slots', key :: keys' =>
      color_key (if key_white nk then FL_WHITE else FL_FOREGROUND_COLOR) key
      :: reset_key_colors_loop slots' keys'
  | _, _ => []
  end.

Definition reset_key_colors (keys : list Key_Box) : list Key_Box :=
  reset_key_colors_loop key_slots keys.

(** One of the four guarded calls of [update_key_colors]. *)
Definition set_channel_key_color (pitch : Pitch) (octave : Z) (c : Fl_Color)
    (keys : option (list Key_Box)) : option (list Key_Box) :=
  match keys with
  | None => None
  | Some keys =>
      if negb (Pitch_eqb pitch REST)
      then set_key_color pitch octave (FL_NOTE c) keys
      else Some keys
  end.

Definition update_key_colors (k : Piano_Keys.t) (keys : list Key_Box)
  : option (list Key_Box) :=
  set_channel_key_color (Piano_Keys._channel_4_pitch k)
    (Piano_Keys._channel_4_octave k) NOTE_BROWN_LIGHT
    (set_channel_key_color (Piano_Keys._channel_3_pitch k)
       (Piano_Keys._channel_3_octave k) NOTE_GREEN_LIGHT
       (set_channel_key_color (Piano_Keys._channel_2_pitch k)
          (Piano_Keys._channel_2_octave k) NOTE_BLUE_LIGHT
          (set_channel_key_color (Piano_Keys._channel_1_pitch k)
             (Piano_Keys._channel_1_octave k) NOTE_RED_LIGHT
             (Some (reset_key_colors keys))))).

(** ** The rows [Piano_Timeline::draw] paints

    For each of the 96 rows, from the top: its [y_pos] and whether it is
    painted in the light colour. *)
Fixpoint draw_rows_loop (rows : list Z) (y_pos : Z) : list (Z * bool) :=
  match rows with
  | [] => []
  | _x :: rows' =>
      (y_pos, is_white_key _x)
      :: draw_rows_loop rows' (y_pos + note_row_height)%int
  end.

Definition row_slots : list Z :=
  flat_map (fun _ : Z => [0; 1; 2; 3; 4; 5; 6; 7; 8; 9; 10; 11]) octave_rows.

Definition draw_rows (Y : Z) : list (Z * bool) := draw_rows_loop row_slots Y.

(** ** The frame counter of [Main_Window::draw] *)

Module Frame_Counter.

Record t : Set := mk {
  _frames : Z;
  _frames_per_second : Z;
  _frame_time : Z
}.

(** The counter update of [draw] at time [current_time] (in seconds).  The
    difference of the two [time_t] values is converted to [int]. *)
Definition draw (current_time : Z) (c : t) : t :=
  let frames := (_frames c + 1)%int in
  if current_time >? _frame_time c then
    mk 0
       ((_frames_per_second c
         + 3 * frames / wrap32 (current_time - _frame_time c)) / 4)%int
       current_time
  else mk frames (_frames_per_second c) (_frame_time c).

End Frame_Counter.

(** ** Quantities the further statements speak about *)

(** A key of the keyboard built at the origin, put at [(X, Y)]. *)
Definition place_key (X Y : Z) (key : Key_Box) : Key_Box :=
  resize_key X (wrap32 (Y + key_box_y key)) (key_box_w key) (key_box_h key)
    key.

(** The keyboard built at the origin and laid out. *)
Definition origin_keys : list Key_Box := keys_calc_sizes (new_keys 0 0).

(** The pitches of notes, and the octaves of the keyboard. *)
Definition note_pitches : list Pitch :=
  [ C_NAT; C_SHARP; D_NAT; D_SHARP; E_NAT; F_NAT;
    F_SHARP; G_NAT; G_SHARP; A_NAT; A_SHARP; B_NAT ].

Definition keyboard_octaves : list Z := [1; 2; 3; 4; 5; 6; 7; 8].

(** The colour [reset_key_colors] gives the key at index [i]. *)
Definition key_base_color (i : nat) : Key_Color :=
  match nth_error key_slots i with
  | Some (_, nk) => if key_white nk then FL_WHITE else FL_FOREGROUND_COLOR
  | None => FL_FOREGROUND_COLOR
  end.

(** Whether a channel sounding [pitch] in [octave] lights the key at [i]. *)
Definition lights_key (pitch : Pitch) (octave : Z) (i : nat) : bool :=
  negb (Pitch_eqb pitch REST)
  && match key_index pitch octave with
     | Some j => Nat.eqb j i
     | None => false
     end.

(** The colour the key at [i] shows for the channel pairs of [k]: that of
    the highest channel lighting it, its base colour if there is none. *)
Definition shown_color (k : Piano_Keys.t) (i : nat) : Key_Color :=
  if lights_key (Piano_Keys._channel_4_pitch k) (Piano_Keys._channel_4_octave k) i
  then FL_NOTE NOTE_BROWN_LIGHT
  else if lights_key (Piano_Keys._channel_3_pitch k)
            (Piano_Keys._channel_3_octave k) i
  then FL_NOTE NOTE_GREEN_LIGHT
  else if lights_key (Piano_Keys._channel_2_pitch k)
            (Piano_Keys._channel_2_octave k) i
  then FL_NOTE NOTE_BLUE_LIGHT
  else if lights_key (Piano_Keys._channel_1_pitch k)
            (Piano_Keys._channel_1_octave k) i
  then FL_NOTE NOTE_RED_LIGHT
  else key_base_color i.

(** A channel pair the keyboard can show: a rest, or an octave from 1 to 8. *)
Definition showable (pitch : Pitch) (octave : Z) : Prop :=
  pitch = REST \/ 1 <= octave <= 8.

(** A painted row of the timeline drawn at the origin, moved down by [Y]. *)
Definition place_row (Y : Z) (row : Z * bool) : Z * bool :=
  (wrap32 (Y + fst row), snd row).

(** The offset of the note row of [(p, o)] below the top of the timeline. *)
Definition row_offset (p : Pitch) (o : Z) : Z :=
  (8 - o) * 168 + (12 - Pitch_to_int p) * 14.

(** The tick at which a note box ends, as [highlight_tick] computes it. *)
Definition t_right (note : Note_Box) : Z :=
  (tick note + note_length (note_view note) * note_speed (note_view note))%int.

(** A note that does not last a negative number of ticks. *)
Definition lasting (n : Note_View) : Prop := 0 <= note_ticks n.

(** The width [set_timeline_width] gives the timeline. *)
Definition timeline_width_for (r : Piano_Roll.t) : Z :=
  let song_width :=
    Z.max (WHITE_KEY_WIDTH + Piano_Roll._song_length r * tick_width)%int
          (Piano_Roll.w r - Piano_Roll.scrollbar_w r)%int in
  let width :=
    (Piano_Roll.get_last_note_x r + Piano_Roll.w r - Piano_Roll.scrollbar_w r
     - WHITE_KEY_WIDTH)%int in
  if width >? song_width then width else song_width.

(** The note boxes of channel [n] of a timeline, and the notes of channel
    [n] of a piano roll. *)
Definition channel_boxes (n : Z) (tl : Piano_Timeline.t) : list Note_Box :=
  if n =? 1 then Piano_Timeline._channel_1_notes tl
  else if n =? 2 then Piano_Timeline._channel_2_notes tl
  else if n =? 3 then Piano_Timeline._channel_3_notes tl
  else Piano_Timeline._channel_4_notes tl.

Definition channel_notes (n : Z) (r : Piano_Roll.t) : list Note_View :=
  if n =? 1 then Piano_Roll._channel_1_notes r
  else if n =? 2 then Piano_Roll._channel_2_notes r
  else if n =? 3 then Piano_Roll._channel_3_notes r
  else Piano_Roll._channel_4_notes r.

(** The colour [set_timeline] gives the boxes of channel [n]. *)
Definition channel_color (n : Z) : Fl_Color :=
  if n =? 1 then NOTE_RED
  else if n =? 2 then NOTE_BLUE
  else if n =? 3 then NOTE_GREEN
  else NOTE_BROWN.

(** What playback keeps of a piano roll however it is scrolled or resized:
    whether it follows, whether it is paused, and its tick. *)
Definition same_mode (r r' : Piano_Roll.t) : Prop :=
  Piano_Roll._following r' = Piano_Roll._following r
  /\ Piano_Roll._paused r' = Piano_Roll._paused r
  /\ Piano_Roll._tick r' = Piano_Roll._tick r.

(** How the window's piano roll, module and playback thread stand to each
    other. *)
Definition playback_inv (mw : Main_Window.t) : Prop :=
  Piano_Roll._following (Main_Window._piano_roll mw) = Main_Window.playing mw
  /\ Piano_Roll._paused (Main_Window._piano_roll mw) = Main_Window.paused mw
  /\ Main_Window.playing mw && Main_Window.paused mw = false
  /\ (Main_Window.audio_thread mw <> None <-> Main_Window.playing mw = true)
  /\ (Main_Window.stopped mw = true ->
      Piano_Roll._tick (Main_Window._piano_roll mw) = -1
      /\ Main_Window._tick mw = -1
      /\ IT_Module.current_tick (Main_Window._it_module mw) = 0).

(** A piano roll as the constructor leaves it: not following, not paused,
    without cursor. *)
Definition fresh_roll (pr : Piano_Roll.t) : Prop :=
  Piano_Roll._following pr = false
  /\ Piano_Roll._paused pr = false
  /\ Piano_Roll._tick pr = -1.

(** A speed with which the tick counter cannot overflow. *)
Definition speed_ok (s : Z) : Prop := 0 <= s <= INT_MAX - 3071.

Definition call_speed_ok (c : IT_Module.call) : Prop :=
  match c with
  | IT_Module.Speed s => speed_ok s
  | _ => True
  end.

(** The window of the example after Play and one turn of the playback
    thread, and the same after Stop. *)
Definition example_window : Main_Window.t :=
  Main_Window.playback_turn (-1)
    (Main_Window.toggle_playback (Main_Window.init example_roll)).

Definition example_stopped_window : Main_Window.t :=
  Main_Window.stop_playback example_window.

(** A module whose tick counter is inside the song and whose speed cannot
    make it overflow. *)
Definition tick_ok (m : IT_Module.t) : Prop :=
  0 <= IT_Module.current_tick m < 3072 /\ speed_ok (IT_Module.speed m).

(** * Properties *)

(** ** 32-bit arithmetic *)

Lemma wrap32_small (z : Z) : in_int z -> wrap32 z = z.
Proof.
  unfold in_int, INT_MIN, INT_MAX, wrap32. intros Hz.
  rewrite Z.mod_small; lia.
Qed.

Lemma wrap32_in_int (z : Z) : in_int (wrap32 z).
Proof.
  unfold in_int, INT_MIN, INT_MAX, wrap32.
  pose proof (Z.mod_pos_bound (z + 2 ^ 31) (2 ^ 32)). lia.
Qed.

Lemma wrap32_congr (a b : Z) :
  a mod 2 ^ 32 = b mod 2 ^ 32 -> wrap32 a = wrap32 b.
Proof.
  intros Hab. unfold wrap32.
  rewrite <- (Zplus_mod_idemp_l a), <- (Zplus_mod_idemp_l b), Hab.
  reflexivity.
Qed.

Lemma wrap32_mod (a : Z) : wrap32 a mod 2 ^ 32 = a mod 2 ^ 32.
Proof.
  unfold wrap32.
  rewrite <- Zminus_mod_idemp_l, Z.mod_mod by lia.
  rewrite Zminus_mod_idemp_l. f_equal. lia.
Qed.

Lemma wrap32_idem (a : Z) : wrap32 (wrap32 a) = wrap32 a.
Proof. apply wrap32_congr, wrap32_mod. Qed.

Lemma wrap32_add_l (a b : Z) : wrap32 (wrap32 a + b) = wrap32 (a + b).
Proof.
  apply wrap32_congr.
  rewrite <- Zplus_mod_idemp_l, wrap32_mod, Zplus_mod_idemp_l. reflexivity.
Qed.

Lemma wrap32_add_r (a b : Z) : wrap32 (a + wrap32 b) = wrap32 (a + b).
Proof. rewrite Z.add_comm, wrap32_add_l, Z.add_comm. reflexivity. Qed.

Lemma wrap32_sub_l (a b : Z) : wrap32 (wrap32 a - b) = wrap32 (a - b).
Proof.
  apply wrap32_congr.
  rewrite <- Zminus_mod_idemp_l, wrap32_mod, Zminus_mod_idemp_l. reflexivity.
Qed.

Lemma wrap32_sub_r (a b : Z) : wrap32 (a - wrap32 b) = wrap32 (a - b).
Proof.
  apply wrap32_congr.
  rewrite <- Zminus_mod_idemp_r, wrap32_mod, Zminus_mod_idemp_r. reflexivity.
Qed.

Lemma wrap32_mul_l (a b : Z) : wrap32 (wrap32 a * b) = wrap32 (a * b).
Proof.
  apply wrap32_congr.
  rewrite <- Zmult_mod_idemp_l, wrap32_mod, Zmult_mod_idemp_l. reflexivity.
Qed.

Lemma wrap32_mul_r (a b : Z) : wrap32 (a * wrap32 b) = wrap32 (a * b).
Proof. rewrite Z.mul_comm, wrap32_mul_l, Z.mul_comm. reflexivity. Qed.

Create Rewrite HintDb int32.
#[export] Hint Rewrite wrap32_idem wrap32_add_l wrap32_add_r wrap32_sub_l
  wrap32_sub_r wrap32_mul_l wrap32_mul_r : int32.

(** Push every intermediate reduction of an [int] expression to the outside. *)
Ltac int_norm :=
  unfold int_add, int_sub, int_mul; autorewrite with int32.

Lemma sizes_values :
  octave_height = 168 /\ note_row_height = 14 /\ tick_width = 3
  /\ wrap32 NUM_OCTAVES = 8 /\ wrap32 NUM_NOTES_PER_OCTAVE = 12.
Proof. repeat split; reflexivity. Qed.

(** ** Tick/pixel mapping *)

Lemma tick_to_x_pos_wrap (X t : Z) :
  Set_Channel.tick_to_x_pos X t = wrap32 (X + 150 + t * 3).
Proof.
  unfold Set_Channel.tick_to_x_pos, WHITE_KEY_WIDTH, tick_width, TICK_WIDTH.
  int_norm. reflexivity.
Qed.

Lemma pitch_to_y_pos_wrap (Y : Z) (p : Pitch) (o : Z) :
  Set_Channel.pitch_to_y_pos Y p o
  = wrap32 (Y + (8 - o) * 168 + (12 - Pitch_to_int p) * 14).
Proof.
  unfold Set_Channel.pitch_to_y_pos.
  destruct sizes_values as (-> & -> & _ & -> & ->).
  int_norm. reflexivity.
Qed.

Lemma resize_notes_laid_out (X Y : Z) (notes : list Note_Box) :
  Forall (laid_out X Y) notes -> resize_notes X Y notes = notes.
Proof.
  unfold resize_notes.
  induction 1 as [| note notes Hnote _ IH]; cbn; [reflexivity |].
  rewrite Hnote, IH. reflexivity.
Qed.

Lemma set_channel_loop_laid_out (X Y : Z) (color : Fl_Color)
    (notes : list Note_View) :
  forall (t : Z) (channel : list Note_Box),
    Forall (laid_out X Y) channel ->
    Forall (laid_out X Y) (set_channel_loop X Y color notes t channel).
Proof.
  induction notes as [| note notes IH]; intros t channel Hch; cbn; [exact Hch |].
  apply IH.
  destruct (negb (Pitch_eqb (note_pitch note) REST)); [| exact Hch].
  apply Forall_app. split; [exact Hch |].
  constructor; [reflexivity | constructor].
Qed.

Lemma set_channel_loop_mapped (X Y : Z) (color : Fl_Color)
    (notes : list Note_View) :
  forall (t : Z) (channel : list Note_Box),
  exists new,
    set_channel_loop X Y color notes t channel = channel ++ new
    /\ map note_view new = filter is_note notes
    /\ Forall (mapped_by (Set_Channel.tick_to_x_pos X)
                 (Set_Channel.pitch_to_y_pos Y)) new.
Proof.
  induction notes as [| note notes IH]; intros t channel; cbn [set_channel_loop].
  - exists []. rewrite app_nil_r. repeat split. constructor.
  - cbv zeta. cbn [filter]. unfold is_note at 1.
    destruct (negb (Pitch_eqb (note_pitch note) REST)).
    + match goal with
      | |- context [set_channel_loop _ _ _ _ ?t' (channel ++ [?box])] =>
          destruct (IH t' (channel ++ [box])) as (new & -> & Hviews & Hmapped);
          exists (box :: new)
      end.
      rewrite <- app_assoc. cbn [app map note_view]. rewrite Hviews.
      split; [reflexivity |]. split; [reflexivity |].
      constructor; [| exact Hmapped]. repeat split.
    + apply IH.
Qed.

Lemma resize_notes_resized (X Y : Z) (notes : list Note_Box) :
  resized_channel X Y notes (resize_notes X Y notes).
Proof.
  unfold resized_channel, resize_notes. rewrite !map_map.
  split; [apply map_ext; reflexivity |].
  split; [apply map_ext; reflexivity |].
  split; [apply map_ext; reflexivity |].
  apply Forall_forall. intros b Hin.
  apply in_map_iff in Hin. destruct Hin as (b0 & <- & _). repeat split.
Qed.

(** C1.  The tick/pixel mapping is arithmetic on the timeline origin: the x
    position of tick [t] is [X + 150 + t * 3] and the y position of pitch [p]
    in octave [o] is [Y + (8 - o) * 168 + (12 - p) * 14], as [int] values
    (and exactly so whenever the value fits an [int]); the octave height is
    [24 * 7 = 168] and the row height [168 / 12 = 14].  The mapping is what
    places the boxes, when they are created and when they are resized:
    [set_channel] appends one box for every note that is not a rest, in
    order, each with x the mapping of its tick, y the mapping of its pitch
    and octave, and the row height as height; [calc_sizes] gives every box of
    the four channels, wherever it was, the x, y and height of the same
    mapping for its tick and note, at the timeline's origin; so resizing the
    boxes that [set_channel] has just created changes none of them. *)
Theorem tick_pixel_mapping (X Y t o : Z) (p : Pitch) :
  Set_Channel.tick_to_x_pos X t
    = wrap32 (X + WHITE_KEY_WIDTH + t * tick_width)
  /\ (in_int (X + 150 + t * 3) ->
      Set_Channel.tick_to_x_pos X t = X + 150 + t * 3)
  /\ Set_Channel.pitch_to_y_pos Y p o
     = wrap32 (Y + (NUM_OCTAVES - o) * octave_height
               + (NUM_NOTES_PER_OCTAVE - Pitch_to_int p) * note_row_height)
  /\ (in_int (Y + (8 - o) * 168 + (12 - Pitch_to_int p) * 14) ->
      Set_Channel.pitch_to_y_pos Y p o
      = Y + (8 - o) * 168 + (12 - Pitch_to_int p) * 14)
  /\ octave_height = 24 * 7
  /\ note_row_height = 168 / 12
  /\ note_row_height = 14
  /\ Calc_Sizes.tick_to_x_pos X t = Set_Channel.tick_to_x_pos X t
  /\ Calc_Sizes.pitch_to_y_pos Y p o = Set_Channel.pitch_to_y_pos Y p o
  /\ (forall (notes : list Note_View) (color : Fl_Color),
        resize_notes X Y (set_channel X Y [] notes color)
        = set_channel X Y [] notes color)
  /\ (forall (channel : list Note_Box) (notes : list Note_View)
             (color : Fl_Color),
        exists new,
          set_channel X Y channel notes color = channel ++ new
          /\ map note_view new = filter is_note notes
          /\ Forall (mapped_by (Set_Channel.tick_to_x_pos X)
                       (Set_Channel.pitch_to_y_pos Y)) new)
  /\ (forall note : Note_Box,
        mapped_by (Calc_Sizes.tick_to_x_pos X) (Calc_Sizes.pitch_to_y_pos Y)
          (resize_note X Y note)
        /\ note_view (resize_note X Y note) = note_view note
        /\ tick (resize_note X Y note) = tick note)
  /\ (forall tl : Piano_Timeline.t,
        let tl' := Piano_Timeline.calc_sizes tl in
        resized_channel (Piano_Timeline.x tl) (Piano_Timeline.y tl)
          (Piano_Timeline._channel_1_notes tl)
          (Piano_Timeline._channel_1_notes tl')
        /\ resized_channel (Piano_Timeline.x tl) (Piano_Timeline.y tl)
             (Piano_Timeline._channel_2_notes tl)
             (Piano_Timeline._channel_2_notes tl')
        /\ resized_channel (Piano_Timeline.x tl) (Piano_Timeline.y tl)
             (Piano_Timeline._channel_3_notes tl)
             (Piano_Timeline._channel_3_notes tl')
        /\ resized_channel (Piano_Timeline.x tl) (Piano_Timeline.y tl)
             (Piano_Timeline._channel_4_notes tl)
             (Piano_Timeline._channel_4_notes tl')).
Proof.
  repeat match goal with |- _ /\ _ => split end;
    try reflexivity.
  - apply tick_to_x_pos_wrap.
  - intros Hx. rewrite tick_to_x_pos_wrap. apply wrap32_small, Hx.
  - apply pitch_to_y_pos_wrap.
  - intros Hy. rewrite pitch_to_y_pos_wrap. apply wrap32_small, Hy.
  - intros notes color. apply resize_notes_laid_out.
    unfold set_channel. apply set_channel_loop_laid_out. constructor.
  - intros channel notes color. unfold set_channel.
    apply set_channel_loop_mapped.
  - intros note. repeat split.
  - intros tl. cbv zeta. unfold Piano_Timeline.calc_sizes.
    cbn [Piano_Timeline._channel_1_notes Piano_Timeline._channel_2_notes
         Piano_Timeline._channel_3_notes Piano_Timeline._channel_4_notes].
    repeat split; apply resize_notes_resized.
Qed.

(** A misplaced box in the example: [calc_sizes] puts it where [set_channel]
    creates the box of the same note at the same tick. *)
Lemma tick_pixel_mapping_witness :
  Set_Channel.tick_to_x_pos 0 10 = 180
  /\ Set_Channel.pitch_to_y_pos 21 C_NAT 4 = 847
  /\ (exists new,
        set_channel 0 21 []
          [mkNote_View 2 REST 0 5; mkNote_View 1 C_NAT 4 3] NOTE_RED
        = [] ++ new
        /\ map (fun b => (tick b, box_x b, box_y b, box_h b)) new
           = [(10, 180, 847, 14)])
  /\ mapped_by (fun _ => 180) (fun _ _ => 847)
       (resize_note 0 21
          (mkNote_Box (mkNote_View 1 C_NAT 4 3) 10 7 7 7 7 NOTE_RED)).
Proof.
  destruct (tick_pixel_mapping 0 21 10 4 C_NAT)
    as (_ & Hx & _ & Hy & _ & _ & _ & _ & _ & _ & Hcreate & Hresize & _).
  assert (Hx' : Set_Channel.tick_to_x_pos 0 10 = 180).
  { rewrite Hx; [reflexivity |]. unfold in_int, INT_MIN, INT_MAX. lia. }
  assert (Hy' : Set_Channel.pitch_to_y_pos 21 C_NAT 4 = 847).
  { rewrite Hy; [reflexivity |]. unfold in_int, INT_MIN, INT_MAX. cbn. lia. }
  split; [exact Hx' |]. split; [exact Hy' |]. split.
  - destruct (Hcreate [] [mkNote_View 2 REST 0 5; mkNote_View 1 C_NAT 4 3]
                NOTE_RED) as (new & Hnew & _ & _).
    exists new. split; [exact Hnew |].
    cbn [app] in Hnew. rewrite <- Hnew. vm_compute. reflexivity.
  - destruct (Hresize
                (mkNote_Box (mkNote_View 1 C_NAT 4 3) 10 7 7 7 7 NOTE_RED))
      as ((Hbx & Hby & Hbw & Hbh) & _ & _).
    unfold mapped_by. rewrite Hbx, Hby, Hbw, Hbh. vm_compute.
    repeat split.
Defined.

(** ** Notes at cumulative ticks *)

Lemma running_tick_sum (pre : list Note_View) :
  forall t, wrap32 (running_tick t pre) = wrap32 (t + sum_ticks pre).
Proof.
  induction pre as [| note pre IH]; intros t; cbn.
  - f_equal. unfold sum_ticks. cbn. lia.
  - rewrite IH. unfold sum_ticks, note_ticks. cbn. int_norm. f_equal. lia.
Qed.

Lemma running_tick_in_int (pre : list Note_View) :
  forall t, in_int t -> in_int (running_tick t pre).
Proof.
  induction pre as [| note pre IH]; intros t Ht; cbn; [exact Ht |].
  apply IH. apply wrap32_in_int.
Qed.

Lemma running_tick_0 (pre : list Note_View) :
  running_tick 0 pre = wrap32 (sum_ticks pre).
Proof.
  rewrite <- (wrap32_small (running_tick 0 pre)).
  - apply running_tick_sum.
  - apply running_tick_in_int. unfold in_int, INT_MIN, INT_MAX. lia.
Qed.

Lemma set_channel_loop_from (X Y : Z) (color : Fl_Color)
    (notes : list Note_View) :
  forall (t : Z) (channel : list Note_Box),
    set_channel_loop X Y color notes t channel
    = channel ++ set_channel_loop X Y color notes t [].
Proof.
  induction notes as [| note notes IH]; intros t channel; cbn.
  - rewrite app_nil_r. reflexivity.
  - destruct (negb (Pitch_eqb (note_pitch note) REST)).
    + rewrite IH. rewrite (IH _ [_]). rewrite <- app_assoc. reflexivity.
    + apply IH.
Qed.

Lemma set_channel_loop_app (X Y : Z) (color : Fl_Color)
    (pre post : list Note_View) :
  forall (t : Z) (channel : list Note_Box),
    set_channel_loop X Y color (pre ++ post) t channel
    = set_channel_loop X Y color post (running_tick t pre)
        (set_channel_loop X Y color pre t channel).
Proof.
  induction pre as [| note pre IH]; intros t channel; cbn; [reflexivity |].
  apply IH.
Qed.

Lemma set_channel_loop_views (X Y : Z) (color : Fl_Color)
    (notes : list Note_View) :
  forall t : Z,
    map note_view (set_channel_loop X Y color notes t [])
    = filter is_note notes.
Proof.
  induction notes as [| note notes IH]; intros t; cbn; [reflexivity |].
  unfold is_note at 1.
  destruct (negb (Pitch_eqb (note_pitch note) REST)).
  - rewrite set_channel_loop_from. cbn. rewrite IH. reflexivity.
  - apply IH.
Qed.

Lemma Pitch_eqb_eq (p q : Pitch) : Pitch_eqb p q = true <-> p = q.
Proof.
  unfold Pitch_eqb. rewrite Z.eqb_eq.
  split; [| intros ->; reflexivity].
  destruct p, q; cbn; intros H; try reflexivity; discriminate H.
Qed.

Lemma is_note_true (n : Note_View) : is_note n = true <-> note_pitch n <> REST.
Proof.
  unfold is_note. rewrite negb_true_iff, <- not_true_iff_false, Pitch_eqb_eq.
  reflexivity.
Qed.

(** C7.  [set_channel] creates one box per non-rest note, in sequence order,
    behind the boxes already in the channel.  For a non-rest note preceded by
    the notes [pre] (rests included), the box is the one numbered by the
    non-rest notes of [pre]; its tick is the sum of [length * speed] over
    [pre] and its width is [length * speed * tick_width], as [int] values. *)
Theorem set_channel_cumulative_ticks (X Y : Z) (channel : list Note_Box)
    (notes : list Note_View) (color : Fl_Color) :
  (exists boxes,
      set_channel X Y channel notes color = channel ++ boxes
      /\ map note_view boxes = filter is_note notes)
  /\ forall (pre post : list Note_View) (note : Note_View),
       notes = pre ++ note :: post ->
       note_pitch note <> REST ->
       exists box,
         nth_error (set_channel X Y channel notes color)
           (length channel + length (filter is_note pre)) = Some box
         /\ note_view box = note
         /\ tick box = wrap32 (sum_ticks pre)
         /\ (in_int (sum_ticks pre) -> tick box = sum_ticks pre)
         /\ box_w box
            = wrap32 (note_length note * note_speed note * tick_width)
         /\ box_x box = Set_Channel.tick_to_x_pos X (tick box)
         /\ box_color box = color.
Proof.
  unfold set_channel. split.
  - eexists. split; [apply set_channel_loop_from |].
    apply set_channel_loop_views.
  - intros pre post note -> Hnote.
    rewrite set_channel_loop_app. cbn.
    apply is_note_true in Hnote. unfold is_note in Hnote. rewrite Hnote.
    rewrite set_channel_loop_from.
    rewrite (set_channel_loop_from _ _ _ pre 0 channel).
    rewrite <- !app_assoc, nth_error_app2 by lia.
    replace (length channel + length (filter is_note pre) - length channel)%nat
      with (length (filter is_note pre)) by lia.
    rewrite <- (set_channel_loop_views X Y color pre 0), length_map.
    rewrite nth_error_app2, Nat.sub_diag by lia. cbn.
    eexists. split; [reflexivity |]. cbn.
    rewrite running_tick_0.
    repeat split.
    + intros Hs. apply wrap32_small, Hs.
    + int_norm. reflexivity.
Qed.

Lemma set_channel_cumulative_ticks_witness :
  exists box,
    nth_error
      (set_channel 0 21 []
         [ mkNote_View 2 REST 3 3; mkNote_View 1 C_NAT 3 2;
           mkNote_View 4 G_NAT 3 1; mkNote_View 2 B_NAT 3 2 ] NOTE_RED)
      1 = Some box
    /\ tick box = 8.
Proof.
  destruct
    (proj2
       (set_channel_cumulative_ticks 0 21 []
          [ mkNote_View 2 REST 3 3; mkNote_View 1 C_NAT 3 2;
            mkNote_View 4 G_NAT 3 1; mkNote_View 2 B_NAT 3 2 ] NOTE_RED)
       [ mkNote_View 2 REST 3 3; mkNote_View 1 C_NAT 3 2 ]
       [ mkNote_View 2 B_NAT 3 2 ]
       (mkNote_View 4 G_NAT 3 1) eq_refl)
    as (box & Hnth & _ & _ & Htick & _).
  - cbn. discriminate.
  - exists box. split; [exact Hnth |].
    apply Htick. unfold in_int, INT_MIN, INT_MAX. cbn. lia.
Defined.

(** ** The playback counter *)

(** C5.  While playing, with a speed of at least 1 and a sum that fits an
    [int], [play] adds the speed to the tick when the sum stays below 3072 and
    sets the tick to 0 otherwise, so the tick decreases only by that reset;
    the flags and the speed are kept.  When not playing, [play] changes
    nothing. *)
Theorem play_advances_or_wraps (m : IT_Module.t) :
  (IT_Module.playing m = true ->
   1 <= IT_Module.speed m ->
   in_int (IT_Module.current_tick m + IT_Module.speed m) ->
   let m' := IT_Module.play m in
   ((IT_Module.current_tick m + IT_Module.speed m < 3072
     /\ IT_Module.current_tick m' = IT_Module.current_tick m + IT_Module.speed m)
    \/ (IT_Module.current_tick m + IT_Module.speed m >= 3072
        /\ IT_Module.current_tick m' = 0))
   /\ (IT_Module.current_tick m' < IT_Module.current_tick m ->
       IT_Module.current_tick m' = 0
       /\ IT_Module.current_tick m + IT_Module.speed m >= 3072)
   /\ IT_Module.playing m' = true
   /\ IT_Module.paused m' = IT_Module.paused m
   /\ IT_Module.speed m' = IT_Module.speed m)
  /\ (IT_Module.playing m = false -> IT_Module.play m = m).
Proof.
  destruct m as [tk playing paused speed].
  unfold IT_Module.play, IT_Module.playing, IT_Module.ready,
    IT_Module.current_tick, IT_Module.speed.
  cbn. split.
  - intros -> Hspeed Hsum. cbn.
    unfold int_add. rewrite (wrap32_small _ Hsum).
    destruct (Z.geb_spec (tk + speed) 3072) as [Hge | Hlt]; cbn.
    + repeat split; try reflexivity; lia.
    + repeat split; try reflexivity; lia.
  - intros ->. reflexivity.
Qed.

Lemma play_advances_or_wraps_witness :
  IT_Module.current_tick (IT_Module.play (IT_Module.mk 3070 true false 3)) = 0
  /\ IT_Module.current_tick (IT_Module.play (IT_Module.mk 100 true false 3))
     = 103.
Proof.
  split.
  - destruct (proj1 (play_advances_or_wraps (IT_Module.mk 3070 true false 3)))
      as ([[Hlt _] | [_ H]] & _).
    + reflexivity.
    + cbn. lia.
    + unfold in_int, INT_MIN, INT_MAX. cbn. lia.
    + cbn in Hlt. lia.
    + exact H.
  - destruct (proj1 (play_advances_or_wraps (IT_Module.mk 100 true false 3)))
      as ([[_ H] | [Hge _]] & _).
    + reflexivity.
    + cbn. lia.
    + unfold in_int, INT_MIN, INT_MAX. cbn. lia.
    + exact H.
    + cbn in Hge. lia.
Defined.

Lemma run_call_not_both (c : IT_Module.call) (m : IT_Module.t) :
  not_both m -> not_both (IT_Module.run_call c m).
Proof.
  unfold not_both. destruct m as [tk playing paused speed].
  destruct c; cbn; try reflexivity; try (intros H; exact H).
  unfold IT_Module.play, IT_Module.playing, IT_Module.paused. cbn.
  destruct playing; cbn; [| intros H; exact H].
  intros H. destruct (_ >=? 3072); exact H.
Qed.

(** C6.  From the initial module, whatever sequence of [start], [stop],
    [pause], [play] and [speed] calls is made, [playing] and [paused] are not
    both true; so exactly one of playing, paused and stopped holds. *)
Theorem playing_paused_exclusive (cs : list IT_Module.call) :
  let m := IT_Module.run_calls cs IT_Module.init in
  ~ (IT_Module.playing m = true /\ IT_Module.paused m = true)
  /\ (   (IT_Module.playing m = true /\ IT_Module.paused m = false
          /\ IT_Module.stopped m = false)
      \/ (IT_Module.playing m = false /\ IT_Module.paused m = true
          /\ IT_Module.stopped m = false)
      \/ (IT_Module.playing m = false /\ IT_Module.paused m = false
          /\ IT_Module.stopped m = true)).
Proof.
  cbn zeta.
  assert (H : not_both (IT_Module.run_calls cs IT_Module.init)).
  { unfold IT_Module.run_calls.
    generalize IT_Module.init, (eq_refl : not_both IT_Module.init).
    induction cs as [| c cs IH]; intros m Hm; cbn; [exact Hm |].
    apply IH, run_call_not_both, Hm. }
  revert H. unfold not_both, IT_Module.stopped.
  destruct (IT_Module.playing _), (IT_Module.paused _); cbn; intros H;
    try discriminate H; split; try (intros [? ?]; discriminate); tauto.
Qed.

(** ** The channel-number assertion *)

Lemma set_channel_pitch_in_range (n : Z) (p : Pitch) (o : Z)
    (k : Piano_Keys.t) :
  1 <= n <= 4 ->
  exists k',
    Piano_Keys.set_channel_pitch n p o k = Some k'
    /\ Piano_Keys.channel_pitch n k' = (p, o)
    /\ Piano_Keys.x k' = Piano_Keys.x k
    /\ Piano_Keys.y k' = Piano_Keys.y k
    /\ forall n', 1 <= n' <= 4 -> n' <> n ->
         Piano_Keys.channel_pitch n' k' = Piano_Keys.channel_pitch n' k.
Proof.
  intros Hn.
  assert (Hcases : n = 1 \/ n = 2 \/ n = 3 \/ n = 4) by lia.
  destruct Hcases as [-> | [-> | [-> | ->]]]; cbn;
    (eexists; split; [reflexivity |]; repeat split;
     intros n' Hn' Hne;
     assert (Hcases : n' = 1 \/ n' = 2 \/ n' = 3 \/ n' = 4) by lia;
     destruct Hcases as [-> | [-> | [-> | ->]]];
     try reflexivity; contradiction).
Qed.

Lemma set_channel_pitch_out_of_range (n : Z) (p : Pitch) (o : Z)
    (k : Piano_Keys.t) :
  ~ 1 <= n <= 4 -> Piano_Keys.set_channel_pitch n p o k = None.
Proof.
  intros Hn. unfold Piano_Keys.set_channel_pitch.
  destruct (Z.geb_spec n 1), (Z.leb_spec n 4); cbn; try reflexivity; lia.
Qed.

Lemma only_channel_refl (n : Z) (k : Piano_Keys.t) : only_channel n k k.
Proof. repeat split. Qed.

Lemma only_channel_trans (n : Z) (k1 k2 k3 : Piano_Keys.t) :
  only_channel n k1 k2 -> only_channel n k2 k3 -> only_channel n k1 k3.
Proof.
  intros (Hx & Hy & H12) (Hx' & Hy' & H23). repeat split; try congruence.
  intros n' Hn' Hne. rewrite H23, H12 by assumption. reflexivity.
Qed.

Lemma set_channel_pitch_only (n : Z) (p : Pitch) (o : Z) (k : Piano_Keys.t) :
  1 <= n <= 4 ->
  exists k',
    Piano_Keys.set_channel_pitch n p o k = Some k' /\ only_channel n k k'.
Proof.
  intros Hn.
  destruct (set_channel_pitch_in_range n p o k Hn) as (k' & Hk' & _ & Hrest).
  exists k'. split; [exact Hk' | exact Hrest].
Qed.

Lemma highlight_tick_loop_succeeds (n tk : Z) (color : Fl_Color)
    (notes : list Note_Box) :
  1 <= n <= 4 ->
  forall k : Piano_Keys.t,
  exists k' notes',
    Piano_Timeline.highlight_tick_loop n tk color notes k = Some (k', notes')
    /\ only_channel n k k'
    /\ map note_view notes' = map note_view notes
    /\ map tick notes' = map tick notes.
Proof.
  intros Hn.
  induction notes as [| note notes IH]; intros k; cbn.
  - exists k, []. repeat split.
  - destruct (tick note >? tk).
    + exists k, (note :: notes). repeat split.
    + assert (Hset : exists k1,
                 (if (tick note + note_length (note_view note)
                        * note_speed (note_view note))%int >? tk
                  then Piano_Keys.set_channel_pitch n
                         (note_pitch (note_view note))
                         (note_octave (note_view note)) k
                  else Some k) = Some k1 /\ only_channel n k k1).
      { destruct (_ >? tk).
        - apply set_channel_pitch_only, Hn.
        - exists k. split; [reflexivity | apply only_channel_refl]. }
      destruct Hset as (k1 & -> & Hk1).
      destruct (IH k1) as (k' & notes' & -> & Hk' & Hviews & Hticks).
      eexists _, _. split; [reflexivity |].
      split; [eapply only_channel_trans; eassumption |].
      cbn. rewrite Hviews, Hticks.
      destruct (negb _); split; reflexivity.
Qed.

Lemma highlight_tick_succeeds (notes : list Note_Box) (n tk : Z)
    (color : Fl_Color) (k : Piano_Keys.t) :
  1 <= n <= 4 ->
  exists k' notes',
    Piano_Timeline.highlight_tick notes n tk color k = Some (k', notes')
    /\ only_channel n k k'
    /\ map note_view notes' = map note_view notes
    /\ map tick notes' = map tick notes.
Proof.
  intros Hn. unfold Piano_Timeline.highlight_tick.
  destruct (set_channel_pitch_only n REST 0 k Hn) as (k1 & -> & Hk1).
  destruct (highlight_tick_loop_succeeds n tk color notes Hn k1)
    as (k' & notes' & -> & Hk' & Hrest).
  exists k', notes'. split; [reflexivity |].
  split; [eapply only_channel_trans; eassumption | exact Hrest].
Qed.

Ltac highlight_channel n :=
  match goal with
  | |- context [Piano_Timeline.highlight_tick ?notes n ?tk ?color ?k] =>
      let k' := fresh "k'" in
      let notes' := fresh "notes'" in
      let Heq := fresh "Heq" in
      let Hk := fresh "Hk" in
      destruct (highlight_tick_succeeds notes n tk color k ltac:(lia))
        as (k' & notes' & Heq & Hk & _);
      rewrite Heq
  end.

Lemma highlight_channels_succeeds (tk : Z) (tl : Piano_Timeline.t) :
  exists tl',
    Piano_Roll.highlight_channels tk tl = Some tl' /\ same_geometry tl tl'.
Proof.
  unfold Piano_Roll.highlight_channels,
    Piano_Timeline.highlight_channel_1_tick,
    Piano_Timeline.highlight_channel_2_tick,
    Piano_Timeline.highlight_channel_3_tick,
    Piano_Timeline.highlight_channel_4_tick.
  highlight_channel 1. cbn [Piano_Timeline._keys Piano_Timeline._channel_2_notes].
  highlight_channel 2. cbn [Piano_Timeline._keys Piano_Timeline._channel_3_notes].
  highlight_channel 3. cbn [Piano_Timeline._keys Piano_Timeline._channel_4_notes].
  highlight_channel 4.
  eexists. split; [reflexivity |]. repeat split.
Qed.

(** C9.  [set_channel_pitch] fails exactly when the channel number is outside
    1..4.  Each of the four [highlight_channel_N_tick] wrappers, which pass
    the constants 1 to 4, runs to the end for every tick and timeline, and
    writes no channel pair of the keyboard other than its own; so does
    [Piano_Roll::highlight_tick], which calls the four of them. *)
Theorem channel_assertion_never_fails (tk : Z) (tl : Piano_Timeline.t)
    (r : Piano_Roll.t) :
  (forall n p o k,
      Piano_Keys.set_channel_pitch n p o k = None <-> ~ 1 <= n <= 4)
  /\ (forall n p o k, 1 <= n <= 4 ->
        exists k',
          Piano_Keys.set_channel_pitch n p o k = Some k'
          /\ Piano_Keys.channel_pitch n k' = (p, o)
          /\ only_channel n k k')
  /\ (exists tl',
        Piano_Timeline.highlight_channel_1_tick tk tl = Some tl'
        /\ only_channel 1 (Piano_Timeline._keys tl) (Piano_Timeline._keys tl'))
  /\ (exists tl',
        Piano_Timeline.highlight_channel_2_tick tk tl = Some tl'
        /\ only_channel 2 (Piano_Timeline._keys tl) (Piano_Timeline._keys tl'))
  /\ (exists tl',
        Piano_Timeline.highlight_channel_3_tick tk tl = Some tl'
        /\ only_channel 3 (Piano_Timeline._keys tl) (Piano_Timeline._keys tl'))
  /\ (exists tl',
        Piano_Timeline.highlight_channel_4_tick tk tl = Some tl'
        /\ only_channel 4 (Piano_Timeline._keys tl) (Piano_Timeline._keys tl'))
  /\ (exists r', Piano_Roll.highlight_tick tk r = Some r').
Proof.
  split; [| split].
  - intros n p o k. split.
    + intros Hnone Hn.
      destruct (set_channel_pitch_in_range n p o k Hn) as (k' & Hk' & _).
      congruence.
    + apply set_channel_pitch_out_of_range.
  - intros n p o k Hn.
    destruct (set_channel_pitch_in_range n p o k Hn)
      as (k' & Hk' & Hn' & Hrest).
    exists k'. repeat split; try assumption; apply Hrest.
  - unfold Piano_Timeline.highlight_channel_1_tick,
      Piano_Timeline.highlight_channel_2_tick,
      Piano_Timeline.highlight_channel_3_tick,
      Piano_Timeline.highlight_channel_4_tick.
    repeat split.
    + highlight_channel 1. eexists. split; [reflexivity | assumption].
    + highlight_channel 2. eexists. split; [reflexivity | assumption].
    + highlight_channel 3. eexists. split; [reflexivity | assumption].
    + highlight_channel 4. eexists. split; [reflexivity | assumption].
    + unfold Piano_Roll.highlight_tick.
      destruct (Piano_Roll._tick r =? tk); [eexists; reflexivity |].
      destruct (highlight_channels_succeeds
                  (Piano_Roll._tick (Piano_Roll.with_tick tk r))
                  (Piano_Roll._piano_timeline (Piano_Roll.with_tick tk r)))
        as (tl' & -> & _).
      eexists. reflexivity.
Qed.

Lemma channel_assertion_never_fails_witness :
  exists k',
    Piano_Keys.set_channel_pitch 3 G_NAT 5
      (Piano_Keys.mk 0 21 REST 0 REST 0 REST 0 REST 0) = Some k'
    /\ Piano_Keys.channel_pitch 3 k' = (G_NAT, 5).
Proof.
  destruct (channel_assertion_never_fails 0
              (Piano_Roll._piano_timeline example_roll) example_roll)
    as (_ & Hset & _).
  destruct (Hset 3 G_NAT 5 (Piano_Keys.mk 0 21 REST 0 REST 0 REST 0 REST 0))
    as (k' & Hk' & Hpair & _); [lia |].
  exists k'. split; [exact Hk' | exact Hpair].
Defined.

Lemma channel_assertion_free_highlight (tk : Z) (r : Piano_Roll.t) :
  exists r', Piano_Roll.highlight_tick tk r = Some r'.
Proof.
  unfold Piano_Roll.highlight_tick.
  destruct (Piano_Roll._tick r =? tk); [eexists; reflexivity |].
  destruct (highlight_channels_succeeds
              (Piano_Roll._tick (Piano_Roll.with_tick tk r))
              (Piano_Roll._piano_timeline (Piano_Roll.with_tick tk r)))
    as (tl' & -> & _).
  eexists. reflexivity.
Qed.

(** ** Following the cursor *)

Lemma scroll_to_xposition (X Y : Z) (r : Piano_Roll.t) :
  Piano_Roll.xposition (Piano_Roll.sticky_keys (Piano_Roll.scroll_to X Y r)) = X
  /\ Piano_Roll.scroll_x_max (Piano_Roll.sticky_keys (Piano_Roll.scroll_to X Y r))
     = Piano_Roll.scroll_x_max r.
Proof. split; reflexivity. Qed.

(** The test of [focus_cursor]. *)
Lemma focus_cursor_cases (center : bool) (r : Piano_Roll.t) :
  (Piano_Roll.focus_cursor center r
   = Piano_Roll.sticky_keys
       (Piano_Roll.scroll_to (Piano_Roll.focus_target center r)
          (Piano_Roll.yposition r) r)
   /\ ((Piano_Roll._following r = true /\ Piano_Roll._continuous r = true)
       \/ Piano_Roll.cursor_x_pos r
          > (Piano_Roll.xposition r + Piano_Roll.w r - WHITE_KEY_WIDTH * 2)%int
       \/ Piano_Roll.cursor_x_pos r < Piano_Roll.xposition r))
  \/ (Piano_Roll.focus_cursor center r = r
      /\ (Piano_Roll._following r && Piano_Roll._continuous r = false)
      /\ Piano_Roll.xposition r <= Piano_Roll.cursor_x_pos r
         <= (Piano_Roll.xposition r + Piano_Roll.w r - WHITE_KEY_WIDTH * 2)%int).
Proof.
  unfold Piano_Roll.focus_cursor.
  destruct (Piano_Roll._following r && Piano_Roll._continuous r) eqn:Hfc.
  - left. split; [reflexivity |]. left. apply andb_true_iff, Hfc.
  - destruct (Piano_Roll.cursor_x_pos r >? _) eqn:Hgt.
    + left. split; [reflexivity |]. right. left. apply Z.gtb_gt, Hgt.
    + destruct (Piano_Roll.cursor_x_pos r <? _) eqn:Hlt.
      * left. split; [reflexivity |]. right. right. apply Z.ltb_lt, Hlt.
      * right. split; [reflexivity |]. split; [reflexivity |].
        apply Z.ltb_ge in Hlt. rewrite Z.gtb_ltb in Hgt.
        apply Z.ltb_ge in Hgt. split; assumption.
Qed.

Lemma highlight_tick_new (tk : Z) (r : Piano_Roll.t) :
  Piano_Roll._tick r <> tk ->
  exists tl,
    Piano_Roll.highlight_tick tk r
    = Some (Piano_Roll.focus_cursor false
              (Piano_Roll.with_timeline tl (Piano_Roll.with_tick tk r)))
    /\ same_geometry (Piano_Roll._piano_timeline r) tl.
Proof.
  intros Hnew. unfold Piano_Roll.highlight_tick.
  destruct (Z.eqb_spec (Piano_Roll._tick r) tk) as [Heq | _]; [contradiction |].
  destruct (highlight_channels_succeeds
              (Piano_Roll._tick (Piano_Roll.with_tick tk r))
              (Piano_Roll._piano_timeline (Piano_Roll.with_tick tk r)))
    as (tl & -> & Hgeo).
  exists tl. split; [reflexivity | exact Hgeo].
Qed.

(** C2, as the code has it.  In continuous follow mode, highlighting a new
    tick scrolls to the cursor, not to where the cursor would be centred: the
    horizontal scroll position becomes the cursor's offset
    [(tick / ticks_per_step * ticks_per_step) * tick_width], clamped between 0
    and [scroll_x_max()].  For a tick other than -1, in a roll whose timeline
    is where the scroll position puts it, the cursor is then painted at
    [x() + WHITE_KEY_WIDTH] plus the offset less the new scroll position:
    at the left edge of the note area as long as the offset lies between 0
    and [scroll_x_max()], and to the right of that edge, by what the offset
    exceeds it, once the offset is past [scroll_x_max()]. *)
Theorem continuous_follow_scrolls_to_cursor (r : Piano_Roll.t) (tk : Z) :
  Piano_Roll._following r = true ->
  Piano_Roll._continuous r = true ->
  Piano_Roll._tick r <> tk ->
  exists r',
    Piano_Roll.highlight_tick tk r = Some r'
    /\ Piano_Roll._tick r' = tk
    /\ Piano_Roll.cursor_x_pos r'
       = ((tk / Piano_Roll.ticks_per_step r * Piano_Roll.ticks_per_step r)
          * tick_width)%int
    /\ Piano_Roll.xposition r'
       = Z.min (Z.max (Piano_Roll.cursor_x_pos r') 0) (Piano_Roll.scroll_x_max r)
    /\ Piano_Roll.scroll_x_max r' = Piano_Roll.scroll_x_max r
    /\ Piano_Roll.x r' = Piano_Roll.x r
    /\ Piano_Roll.w r' = Piano_Roll.w r
    /\ (tk <> -1 -> timeline_scrolled r ->
        timeline_scrolled r'
        /\ Piano_Roll.cursor_screen_x r'
           = (Piano_Roll.x r + WHITE_KEY_WIDTH
              + (Piano_Roll.cursor_x_pos r' - Piano_Roll.xposition r'))%int
        /\ (0 <= Piano_Roll.cursor_x_pos r' <= Piano_Roll.scroll_x_max r ->
            Piano_Roll.xposition r' = Piano_Roll.cursor_x_pos r'
            /\ Piano_Roll.cursor_screen_x r'
               = (Piano_Roll.x r + WHITE_KEY_WIDTH)%int)
        /\ (0 <= Piano_Roll.scroll_x_max r < Piano_Roll.cursor_x_pos r' ->
            Piano_Roll.xposition r' = Piano_Roll.scroll_x_max r
            /\ Piano_Roll.cursor_screen_x r'
               = (Piano_Roll.x r + WHITE_KEY_WIDTH
                  + (Piano_Roll.cursor_x_pos r'
                     - Piano_Roll.scroll_x_max r))%int)).
Proof.
  intros Hfollowing Hcontinuous Hnew.
  destruct (highlight_tick_new tk r Hnew) as (tl & -> & Htx & _ & Hw & _).
  eexists. split; [reflexivity |].
  unfold Piano_Roll.focus_cursor. cbn [Piano_Roll._following
    Piano_Roll._continuous Piano_Roll.with_timeline Piano_Roll.with_scroll
    Piano_Roll.with_tick].
  rewrite Hfollowing, Hcontinuous. cbn [andb orb].
  set (r1 := Piano_Roll.with_timeline tl (Piano_Roll.with_tick tk r)).
  assert (Htarget : Piano_Roll.focus_target false r1
                    = Z.min (Z.max (Piano_Roll.cursor_x_pos r1) 0)
                        (Piano_Roll.scroll_x_max r)).
  { unfold Piano_Roll.focus_target, Piano_Roll.scroll_x_max. subst r1. cbn.
    rewrite Hw. reflexivity. }
  assert (Hxpos : Piano_Roll.xposition
                    (Piano_Roll.sticky_keys
                       (Piano_Roll.scroll_to (Piano_Roll.focus_target false r1)
                          (Piano_Roll.yposition r1) r1))
                  = Piano_Roll.focus_target false r1) by reflexivity.
  assert (Hcx : Piano_Roll.cursor_x_pos
                  (Piano_Roll.sticky_keys
                     (Piano_Roll.scroll_to (Piano_Roll.focus_target false r1)
                        (Piano_Roll.yposition r1) r1))
                = Piano_Roll.cursor_x_pos r1) by reflexivity.
  rewrite Hxpos, Hcx, Htarget.
  split; [reflexivity |]. split; [reflexivity |]. split; [reflexivity |].
  split; [unfold Piano_Roll.scroll_x_max; subst r1; cbn; rewrite Hw;
          reflexivity |].
  split; [reflexivity |]. split; [reflexivity |].
  intros Htk Hscrolled.
  set (T := Z.min (Z.max (Piano_Roll.cursor_x_pos r1) 0)
              (Piano_Roll.scroll_x_max r)) in *.
  set (r' := Piano_Roll.sticky_keys
               (Piano_Roll.scroll_to T (Piano_Roll.yposition r1) r1)).
  assert (Htlx : Piano_Timeline.x (Piano_Roll._piano_timeline r')
                 = (Piano_Timeline.x (Piano_Roll._piano_timeline r)
                    + (Piano_Roll.xposition r - T))%int).
  { rewrite <- Htx. reflexivity. }
  assert (Hct : Piano_Roll.cursor_tick r'
                = (tk / Piano_Roll.ticks_per_step r
                   * Piano_Roll.ticks_per_step r)%int).
  { unfold Piano_Roll.cursor_tick.
    change (Piano_Roll._tick r') with tk.
    change (Piano_Roll._following r') with (Piano_Roll._following r).
    change (Piano_Roll.ticks_per_step r') with (Piano_Roll.ticks_per_step r).
    rewrite Hfollowing. destruct (Z.eqb_spec tk (-1)) as [Heq | _];
      [contradiction | reflexivity]. }
  assert (Hcx1 : Piano_Roll.cursor_x_pos r1
                 = ((tk / Piano_Roll.ticks_per_step r
                     * Piano_Roll.ticks_per_step r) * tick_width)%int)
    by reflexivity.
  unfold timeline_scrolled in *.
  assert (Hscreen : Piano_Roll.cursor_screen_x r'
                    = (Piano_Roll.x r + WHITE_KEY_WIDTH
                       + (Piano_Roll.cursor_x_pos r1 - T))%int).
  { unfold Piano_Roll.cursor_screen_x. rewrite Htlx, Hct, Hcx1, Hscrolled.
    generalize ((tk / Piano_Roll.ticks_per_step r
                 * Piano_Roll.ticks_per_step r) * tick_width)%int.
    intros c. generalize (Piano_Roll.x r) (Piano_Roll.xposition r) T.
    intros a b T'. unfold int_add, int_sub, wrap32, WHITE_KEY_WIDTH.
    Z.div_mod_to_equations. lia. }
  split.
  { rewrite Htlx, Hscrolled.
    change (Piano_Roll.x r') with (Piano_Roll.x r).
    change (Piano_Roll.xposition r') with T.
    generalize (Piano_Roll.x r) (Piano_Roll.xposition r) T.
    intros a b T'. unfold int_add, int_sub, wrap32.
    Z.div_mod_to_equations. lia. }
  split; [exact Hscreen |].
  split.
  - intros Hin.
    assert (HT : T = Piano_Roll.cursor_x_pos r1) by (subst T; lia).
    split; [exact HT |].
    rewrite Hscreen, HT.
    generalize (Piano_Roll.x r) (Piano_Roll.cursor_x_pos r1).
    intros a c. unfold int_add, int_sub, wrap32, WHITE_KEY_WIDTH.
    Z.div_mod_to_equations. lia.
  - intros Hout.
    assert (HT : T = Piano_Roll.scroll_x_max r) by (subst T; lia).
    split; [exact HT |].
    rewrite Hscreen, HT. reflexivity.
Qed.

(** The example roll follows in continuous mode and has no tick yet. *)
Lemma example_following_mode :
  Piano_Roll._following example_following = true
  /\ Piano_Roll._continuous example_following = true
  /\ Piano_Roll._tick example_following = -1.
Proof. vm_compute. repeat split. Qed.

Lemma example_following_bounds :
  Piano_Roll.ticks_per_step example_following = 12
  /\ Piano_Roll.scroll_x_max example_following = 9120.
Proof. vm_compute. split; reflexivity. Qed.

Lemma example_following_origin :
  Piano_Roll.x example_following = 0
  /\ Piano_Roll.xposition example_following = 0
  /\ Piano_Timeline.x (Piano_Roll._piano_timeline example_following) = 0.
Proof. vm_compute. repeat split. Qed.

Lemma example_following_tick_1200 :
  option_map cursor_readout (Piano_Roll.highlight_tick 1200 example_following)
  = Some (3600, 150, 400).
Proof. vm_compute. reflexivity. Qed.

(** In the example: at tick 1200 the viewport starts at the cursor, which is
    painted at the left edge of the note area, x = 150; at tick 3060, near
    the end of the song, the viewport stops at the largest position 9120 and
    the cursor is painted 60 pixels further right, at x = 210. *)
Lemma continuous_follow_scrolls_to_cursor_witness :
  (exists r',
     Piano_Roll.highlight_tick 1200 example_following = Some r'
     /\ Piano_Roll.xposition r' = 3600
     /\ Piano_Roll.cursor_screen_x r' = 150)
  /\ (exists r',
        Piano_Roll.highlight_tick 3060 example_following = Some r'
        /\ Piano_Roll.xposition r' = 9120
        /\ Piano_Roll.cursor_screen_x r' = 210).
Proof.
  destruct example_following_mode as (Hf & Hc & Ht).
  destruct example_following_bounds as (Htps & Hmax).
  destruct example_following_origin as (Hx0 & Hxp0 & Htl0).
  assert (Hscrolled : timeline_scrolled example_following).
  { unfold timeline_scrolled. rewrite Hx0, Hxp0, Htl0. reflexivity. }
  split.
  - destruct (continuous_follow_scrolls_to_cursor example_following 1200 Hf Hc)
      as (r' & Hr' & _ & Hcursor & Hx & _ & _ & _ & Hscreen).
    { rewrite Ht. discriminate. }
    exists r'. split; [exact Hr' |].
    rewrite Htps in Hcursor.
    change ((1200 / 12 * 12) * tick_width)%int with 3600 in Hcursor.
    destruct (Hscreen ltac:(discriminate) Hscrolled) as (_ & _ & Hin & _).
    rewrite Hcursor, Hmax in Hin.
    destruct (Hin ltac:(lia)) as (Hxpos & Hsx).
    split; [exact Hxpos |]. rewrite Hsx, Hx0. reflexivity.
  - destruct (continuous_follow_scrolls_to_cursor example_following 3060 Hf Hc)
      as (r' & Hr' & _ & Hcursor & Hx & _ & _ & _ & Hscreen).
    { rewrite Ht. discriminate. }
    exists r'. split; [exact Hr' |].
    rewrite Htps in Hcursor.
    change ((3060 / 12 * 12) * tick_width)%int with 9180 in Hcursor.
    destruct (Hscreen ltac:(discriminate) Hscrolled) as (_ & _ & _ & Hout).
    rewrite Hcursor, Hmax in Hout.
    destruct (Hout ltac:(lia)) as (Hxpos & Hsx).
    split; [exact Hxpos |]. rewrite Hsx, Hx0. reflexivity.
Defined.

(** C2 as it is written fails: after tick 1200 is highlighted in the example
    roll, the cursor line is at screen position 150, at the left edge of the
    note area, while the middle of the 800 pixel wide viewport is at 400. *)
Lemma continuous_follow_not_centered :
  (exists r',
      Piano_Roll.highlight_tick 1200 example_following = Some r'
      /\ Piano_Roll._following example_following = true
      /\ Piano_Roll._continuous example_following = true
      /\ Piano_Roll._tick example_following = -1
      /\ Piano_Roll.xposition r' = 3600
      /\ Piano_Roll.cursor_screen_x r' = 150
      /\ Piano_Roll.x r' + Z.quot (Piano_Roll.w r') 2 = 400)
  /\ ~ recenters_every_tick.
Proof.
  destruct example_following_mode as (Hf & Hc & Ht).
  pose proof example_following_tick_1200 as Hread.
  destruct (Piano_Roll.highlight_tick 1200 example_following) as [r' |] eqn:Hr';
    [| discriminate Hread].
  cbn [option_map] in Hread. unfold cursor_readout in Hread.
  injection Hread as Hx Hcur Hmid.
  split.
  - exists r'.
    exact (conj eq_refl (conj Hf (conj Hc (conj Ht (conj Hx (conj Hcur Hmid)))))).
  - intros Hcenter.
    specialize (Hcenter example_following r' 1200 Hf Hc).
    unfold cursor_centered in Hcenter. rewrite Hcur, Hmid in Hcenter.
    assert (H : 150 = 400)
      by (apply Hcenter; [rewrite Ht; discriminate | exact Hr']).
    discriminate H.
Qed.

(** C3.  With continuous scrolling off, [focus_cursor] leaves the piano roll
    as it is, and so the horizontal scroll position, whenever the cursor
    offset [x_pos] satisfies [xposition() <= x_pos <= xposition() + w() - 2 *
    WHITE_KEY_WIDTH]; the position changes only when [x_pos] is beyond that
    margin or left of [xposition()].  The same holds for a tick update through
    [highlight_tick].  The margin is computed in [int] arithmetic and is the
    exact sum whenever that fits an [int]. *)
Theorem non_continuous_keeps_position_inside_margin
    (r : Piano_Roll.t) (center : bool) :
  Piano_Roll._continuous r = false ->
  let margin :=
    (Piano_Roll.xposition r + Piano_Roll.w r - WHITE_KEY_WIDTH * 2)%int in
  (Piano_Roll.xposition r <= Piano_Roll.cursor_x_pos r <= margin ->
   Piano_Roll.focus_cursor center r = r)
  /\ (Piano_Roll.xposition (Piano_Roll.focus_cursor center r)
      <> Piano_Roll.xposition r ->
      Piano_Roll.cursor_x_pos r > margin
      \/ Piano_Roll.cursor_x_pos r < Piano_Roll.xposition r)
  /\ (in_int (Piano_Roll.xposition r + Piano_Roll.w r - 2 * WHITE_KEY_WIDTH) ->
      margin = Piano_Roll.xposition r + Piano_Roll.w r - 2 * WHITE_KEY_WIDTH)
  /\ (forall (tk : Z) (r' : Piano_Roll.t),
        Piano_Roll.highlight_tick tk r = Some r' ->
        Piano_Roll.xposition r
          <= Piano_Roll.cursor_x_pos (Piano_Roll.with_tick tk r) <= margin ->
        Piano_Roll.xposition r' = Piano_Roll.xposition r).
Proof.
  intros Hcontinuous margin.
  assert (Hkeep : forall r0 : Piano_Roll.t,
             Piano_Roll._continuous r0 = false ->
             Piano_Roll.xposition r0 <= Piano_Roll.cursor_x_pos r0
               <= (Piano_Roll.xposition r0 + Piano_Roll.w r0
                   - WHITE_KEY_WIDTH * 2)%int ->
             forall c, Piano_Roll.focus_cursor c r0 = r0).
  { intros r0 Hc0 Hin c.
    destruct (focus_cursor_cases c r0)
      as [(_ & [(_ & Hc1) | [Hgt | Hlt]]) | (Heq & _)];
      [congruence | lia | lia | exact Heq]. }
  split; [| split; [| split]].
  - intros Hin. apply Hkeep; assumption.
  - intros Hchanged.
    destruct (focus_cursor_cases center r)
      as [(_ & [(_ & Hc1) | [Hgt | Hlt]]) | (Heq & _)].
    + congruence.
    + left. exact Hgt.
    + right. exact Hlt.
    + rewrite Heq in Hchanged. contradiction.
  - intros Hfits. subst margin. int_norm.
    rewrite <- (wrap32_small _ Hfits); f_equal; unfold WHITE_KEY_WIDTH; lia.
  - intros tk r' Hr' Hin.
    unfold Piano_Roll.highlight_tick in Hr'.
    destruct (Piano_Roll._tick r =? tk); [congruence |].
    destruct (Piano_Roll.highlight_channels _ _) as [tl |]; [| discriminate].
    injection Hr' as <-.
    rewrite Hkeep; [reflexivity | exact Hcontinuous | exact Hin].
Qed.

Lemma example_stepping_inside_margin :
  Piano_Roll._continuous example_stepping = false
  /\ Piano_Roll.xposition example_stepping = 0
  /\ Piano_Roll.cursor_x_pos example_stepping = 180
  /\ (Piano_Roll.xposition example_stepping + Piano_Roll.w example_stepping
      - WHITE_KEY_WIDTH * 2)%int = 500.
Proof. vm_compute. repeat split. Qed.

Lemma non_continuous_keeps_position_inside_margin_witness :
  Piano_Roll.focus_cursor false example_stepping = example_stepping.
Proof.
  destruct example_stepping_inside_margin as (Hc & Hx & Hcur & Hmargin).
  pose proof (non_continuous_keeps_position_inside_margin
                example_stepping false Hc) as Hthm.
  cbv zeta in Hthm. destruct Hthm as (Hkeep & _).
  apply Hkeep. rewrite Hmargin, Hcur, Hx. lia.
Defined.

(** [set_timeline_width] leaves the timeline at least as wide as the
    viewport, so the largest scroll position is not negative. *)
Lemma set_timeline_width_scroll_x_max (r : Piano_Roll.t) :
  0 <= (Piano_Roll.w r - Piano_Roll.scrollbar_w r)%int ->
  0 <= Piano_Roll.scroll_x_max (Piano_Roll.set_timeline_width r).
Proof.
  intros Hview. unfold Piano_Roll.set_timeline_width.
  cbv zeta.
  set (r1 := Piano_Roll.with_timeline _ r).
  assert (Hw1 : (Piano_Roll.w r - Piano_Roll.scrollbar_w r)%int
                <= Piano_Timeline.w (Piano_Roll._piano_timeline r1)
                /\ in_int (Piano_Timeline.w (Piano_Roll._piano_timeline r1))).
  { subst r1. cbn. split; [lia |].
    apply Z.max_case; apply wrap32_in_int. }
  assert (Hgeo : Piano_Roll.w r1 = Piano_Roll.w r
                 /\ Piano_Roll.scrollbar_w r1 = Piano_Roll.scrollbar_w r)
    by (split; reflexivity).
  destruct Hgeo as (Hw & Hsb). destruct Hw1 as (Hle & Hint).
  assert (Hv : in_int (Piano_Roll.w r - Piano_Roll.scrollbar_w r)%int)
    by apply wrap32_in_int.
  destruct (Z.gtb_spec
              (Piano_Roll.get_last_note_x r1 + Piano_Roll.w r1
               - Piano_Roll.scrollbar_w r1 - WHITE_KEY_WIDTH)%int
              (Piano_Timeline.w (Piano_Roll._piano_timeline r1))) as [Hgt | Hng].
  - unfold Piano_Roll.scroll_x_max. cbn [Piano_Roll.with_timeline
      Piano_Roll.with_scroll Piano_Roll._piano_timeline Piano_Roll.w
      Piano_Roll.scrollbar_w Piano_Timeline.set_w Piano_Timeline.w].
    rewrite Hw, Hsb.
    set (width := (Piano_Roll.get_last_note_x r1 + _ - _ - _)%int) in *.
    assert (Hwidth : in_int width) by apply wrap32_in_int.
    unfold int_sub at 1. rewrite wrap32_small; unfold in_int, INT_MIN, INT_MAX in *; lia.
  - unfold Piano_Roll.scroll_x_max. rewrite Hw, Hsb.
    unfold int_sub at 1. rewrite wrap32_small; unfold in_int, INT_MIN, INT_MAX in *; lia.
Qed.

(** C4.  When the largest scroll position is not negative, as
    [set_timeline_width] leaves it, the position [focus_cursor] scrolls to
    lies in [[0, scroll_x_max()]] for every tick, with or without centering;
    [focus_cursor] either keeps the scroll position or moves it there, and it
    does not change [scroll_x_max()]. *)
Theorem focus_cursor_clamps (r : Piano_Roll.t) (tk : Z) (center : bool) :
  0 <= Piano_Roll.scroll_x_max r ->
  let r1 := Piano_Roll.with_tick tk r in
  let r2 := Piano_Roll.focus_cursor center r1 in
  Piano_Roll.scroll_x_max r
    = (Piano_Timeline.w (Piano_Roll._piano_timeline r)
       - (Piano_Roll.w r - Piano_Roll.scrollbar_w r))%int
  /\ 0 <= Piano_Roll.focus_target center r1 <= Piano_Roll.scroll_x_max r
  /\ (Piano_Roll.xposition r2 = Piano_Roll.xposition r
      \/ Piano_Roll.xposition r2 = Piano_Roll.focus_target center r1)
  /\ (Piano_Roll.xposition r2 <> Piano_Roll.xposition r ->
      0 <= Piano_Roll.xposition r2 <= Piano_Roll.scroll_x_max r)
  /\ Piano_Roll.scroll_x_max r2 = Piano_Roll.scroll_x_max r.
Proof.
  intros Hmax r1 r2.
  assert (Htarget : 0 <= Piano_Roll.focus_target center r1
                    <= Piano_Roll.scroll_x_max r).
  { unfold Piano_Roll.focus_target.
    change (Piano_Roll.scroll_x_max r1) with (Piano_Roll.scroll_x_max r).
    lia. }
  assert (Hcases : (Piano_Roll.xposition r2 = Piano_Roll.xposition r
                    \/ Piano_Roll.xposition r2
                       = Piano_Roll.focus_target center r1)
                   /\ Piano_Roll.scroll_x_max r2 = Piano_Roll.scroll_x_max r).
  { subst r2.
    destruct (focus_cursor_cases center r1) as [(-> & _) | (-> & _)].
    - split; [right; apply scroll_to_xposition |].
      exact (proj2 (scroll_to_xposition _ _ r1)).
    - split; [left |]; reflexivity. }
  destruct Hcases as (Hpos & Hsame).
  repeat split; try assumption; try apply Htarget.
  - destruct Hpos as [Hpos | Hpos]; [contradiction | rewrite Hpos; apply Htarget].
  - destruct Hpos as [Hpos | Hpos]; [contradiction | rewrite Hpos; apply Htarget].
Qed.

Lemma example_following_scroll_x_max :
  0 <= Piano_Roll.scroll_x_max example_following.
Proof. vm_compute. discriminate. Qed.

Lemma focus_cursor_clamps_witness :
  0 <= Piano_Roll.focus_target false
         (Piano_Roll.with_tick 100000 example_following)
    <= Piano_Roll.scroll_x_max example_following.
Proof.
  pose proof (focus_cursor_clamps example_following 100000 false
                example_following_scroll_x_max) as Hthm.
  cbv zeta in Hthm. destruct Hthm as (_ & Htarget & _). exact Htarget.
Defined.

(** ** The resync handshake *)

Lemma request_sync_coalesced (mw : Main_Window.t) :
  coalesced mw -> coalesced (Main_Window.request_sync mw).
Proof.
  unfold coalesced, Main_Window.request_sync.
  destruct (Main_Window._sync_requested mw) eqn:Hflag; cbn.
  - rewrite Hflag. intros H. exact H.
  - intros ->. reflexivity.
Qed.

Lemma playback_turn_coalesced (tick : Z) (mw : Main_Window.t) :
  coalesced mw -> coalesced (Main_Window.playback_turn tick mw).
Proof.
  intros Hmw. unfold Main_Window.playback_turn.
  destruct (IT_Module.playing (Main_Window._it_module mw)).
  - destruct (negb _).
    + apply request_sync_coalesced. exact Hmw.
    + exact Hmw.
  - apply request_sync_coalesced. exact Hmw.
Qed.

Lemma sync_cb_clears (mw mw' : Main_Window.t) :
  Main_Window.sync_cb mw = Some mw' ->
  Main_Window._sync_requested mw' = false
  /\ Main_Window.awake_queue mw' = Main_Window.awake_queue mw
  /\ Main_Window.audio_thread mw' = Main_Window.audio_thread mw
  /\ Main_Window._it_module mw' = Main_Window._it_module mw.
Proof.
  unfold Main_Window.sync_cb.
  destruct (_ && _).
  - destruct (Piano_Roll.highlight_tick _ _); [| discriminate].
    intros [= <-]. repeat split.
  - destruct (IT_Module.stopped _); intros [= <-]; repeat split.
Qed.

Lemma sync_cb_succeeds (mw : Main_Window.t) :
  exists mw', Main_Window.sync_cb mw = Some mw'.
Proof.
  unfold Main_Window.sync_cb.
  destruct (_ && _).
  - destruct (channel_assertion_free_highlight (Main_Window._tick mw)
                (Main_Window._piano_roll mw)) as (pr & ->).
    eexists. reflexivity.
  - destruct (IT_Module.stopped _); eexists; reflexivity.
Qed.

Lemma step_coalesced (mw mw' : Main_Window.t) :
  Main_Window.step mw mw' -> coalesced mw -> coalesced mw'.
Proof.
  intros Hstep Hmw.
  destruct Hstep as [mw c | mw W H | mw value | mw value | mw tick Hthread
                     | mw mw1 mw2 Htake Hsync | mw | mw | mw speed].
  - exact Hmw.
  - exact Hmw.
  - exact Hmw.
  - exact Hmw.
  - apply playback_turn_coalesced, Hmw.
  - unfold Main_Window.take_awake in Htake. unfold coalesced in *.
    destruct (Main_Window.awake_queue mw) as [| n] eqn:Hq; [discriminate |].
    injection Htake as <-.
    destruct (sync_cb_clears _ _ Hsync) as (-> & -> & _).
    cbn. destruct (Main_Window._sync_requested mw); congruence.
  - unfold Main_Window.toggle_playback, coalesced in *. cbn.
    destruct (Main_Window.stopped _); [exact Hmw |].
    destruct (Main_Window.paused _); exact Hmw.
  - unfold Main_Window.stop_playback, coalesced in *. cbn.
    destruct (negb _); exact Hmw.
  - unfold Main_Window.speed_slider_cb.
    destruct (negb _); exact Hmw.
Qed.

Lemma reachable_coalesced (pr : Piano_Roll.t) (mw : Main_Window.t) :
  Main_Window.reachable pr mw -> coalesced mw.
Proof.
  induction 1 as [| mw mw' _ IH Hstep]; [reflexivity |].
  eapply step_coalesced; eassumption.
Qed.

(** C8.  In every state reachable by turns of the playback thread, runs of
    queued [sync_cb] handlers and UI callbacks, at most one wakeup is queued,
    and one is queued exactly when [_sync_requested] is set.  A turn of the
    playback thread queues a wakeup only when the flag is clear, and sets the
    flag in the same step; a queued [sync_cb] always runs to its end and
    leaves the flag clear and the queue empty. *)
Theorem wakeups_coalesced (pr : Piano_Roll.t) (mw : Main_Window.t) :
  Main_Window.reachable pr mw ->
  (Main_Window.awake_queue mw <= 1)%nat
  /\ (Main_Window.awake_queue mw = 1%nat
      <-> Main_Window._sync_requested mw = true)
  /\ (forall tick : Z,
        let mw' := Main_Window.playback_turn tick mw in
        (Main_Window.awake_queue mw' = Main_Window.awake_queue mw
         /\ Main_Window._sync_requested mw' = Main_Window._sync_requested mw)
        \/ (Main_Window._sync_requested mw = false
            /\ Main_Window._sync_requested mw' = true
            /\ Main_Window.awake_queue mw' = S (Main_Window.awake_queue mw)))
  /\ (forall mw1 : Main_Window.t,
        Main_Window.take_awake mw = Some mw1 ->
        exists mw2,
          Main_Window.sync_cb mw1 = Some mw2
          /\ Main_Window._sync_requested mw2 = false
          /\ Main_Window.awake_queue mw2 = 0%nat).
Proof.
  intros Hreach. pose proof (reachable_coalesced pr mw Hreach) as Hmw.
  unfold coalesced in Hmw.
  split; [| split; [| split]].
  - rewrite Hmw. destruct (Main_Window._sync_requested mw); lia.
  - rewrite Hmw. destruct (Main_Window._sync_requested mw);
      split; intros H; try reflexivity; discriminate H.
  - intros tick. cbv zeta. unfold Main_Window.playback_turn.
    assert (Hreq : forall m : Main_Window.t,
               (Main_Window.awake_queue (Main_Window.request_sync m)
                = Main_Window.awake_queue m
                /\ Main_Window._sync_requested (Main_Window.request_sync m)
                   = Main_Window._sync_requested m)
               \/ (Main_Window._sync_requested m = false
                   /\ Main_Window._sync_requested (Main_Window.request_sync m)
                      = true
                   /\ Main_Window.awake_queue (Main_Window.request_sync m)
                      = S (Main_Window.awake_queue m))).
    { intros m. unfold Main_Window.request_sync.
      destruct (Main_Window._sync_requested m) eqn:Hflag; cbn.
      - left. rewrite Hflag. split; reflexivity.
      - right. repeat split. }
    destruct (IT_Module.playing (Main_Window._it_module mw)).
    + destruct (negb _); [| left; split; reflexivity].
      match goal with
      | |- context [Main_Window.request_sync ?m] => exact (Hreq m)
      end.
    + match goal with
      | |- context [Main_Window.request_sync ?m] => exact (Hreq m)
      end.
  - intros mw1 Htake.
    destruct (sync_cb_succeeds mw1) as (mw2 & Hsync).
    exists mw2. split; [exact Hsync |].
    destruct (sync_cb_clears _ _ Hsync) as (-> & -> & _).
    split; [reflexivity |].
    unfold Main_Window.take_awake in Htake.
    destruct (Main_Window.awake_queue mw) as [| n] eqn:Hq; [discriminate |].
    injection Htake as <-. cbn.
    destruct (Main_Window._sync_requested mw); congruence.
Qed.

Lemma reachable_first_turn (pr : Piano_Roll.t) :
  Main_Window.reachable pr
    (Main_Window.playback_turn (-1)
       (Main_Window.toggle_playback (Main_Window.init pr))).
Proof.
  eapply Main_Window.reachable_step.
  - eapply Main_Window.reachable_step; [apply Main_Window.reachable_init |].
    apply Main_Window.step_toggle_playback.
  - apply Main_Window.step_playback_turn. reflexivity.
Qed.

Lemma wakeups_coalesced_witness :
  (Main_Window.awake_queue
     (Main_Window.playback_turn (-1)
        (Main_Window.toggle_playback (Main_Window.init example_roll))) <= 1)%nat.
Proof.
  exact (proj1 (wakeups_coalesced example_roll _
                  (reachable_first_turn example_roll))).
Defined.

(** ** The synthetic note sequence *)

Lemma drawn_note_generated (rs : rand_stream) (i : nat) (c : Z) :
  generated_note c (drawn_note rs i c).
Proof.
  unfold generated_note, drawn_note, rand, int_rem.
  cbn [note_pitch note_length note_speed note_octave].
  set (a := Z.of_N (rs i)). set (b := Z.of_N (rs (i + 1)%nat)).
  set (d := Z.of_N (rs (i + 2)%nat)).
  assert (Ha : 0 <= Z.rem a 4 < 4) by (apply Z.rem_bound_pos; subst a; lia).
  assert (Hb : 0 <= Z.rem b 4 < 4) by (apply Z.rem_bound_pos; subst b; lia).
  assert (Hd : 0 <= Z.rem d 12 < 12) by (apply Z.rem_bound_pos; subst d; lia).
  unfold int_add.
  rewrite !wrap32_small by (unfold in_int, INT_MIN, INT_MAX; lia).
  assert (Hpitch : 1 <= Pitch_to_int (Pitch_of_int (Z.rem d 12 + 1)) <= 12).
  { set (v := Z.rem d 12 + 1) in *.
    assert (Hv : v = 1 \/ v = 2 \/ v = 3 \/ v = 4 \/ v = 5 \/ v = 6 \/ v = 7
                 \/ v = 8 \/ v = 9 \/ v = 10 \/ v = 11 \/ v = 12) by lia.
    repeat (destruct Hv as [-> | Hv]; [cbn; lia |]). subst v. rewrite Hv. cbn. lia. }
  repeat split; try lia.
  intros Hrest. rewrite Hrest in Hpitch. cbn in Hpitch. lia.
Qed.

Lemma build_note_view_loop_spec (rs : rand_stream) (c : Z) (i : nat) (t : Z)
    (notes : list Note_View) :
  INT_MIN <= t ->
  exists new,
    build_note_view_loop rs c i t notes = (notes ++ new, (i + 3 * length new)%nat)
    /\ Forall (generated_note c) new
    /\ (t < 3072 - 16 -> 3072 - 16 <= t + sum_ticks new < 3072)
    /\ (3072 - 16 <= t -> new = []).
Proof.
  funelim (build_note_view_loop rs c i t notes).
  - intros Hmin.
    match goal with
    | IH : INT_MIN <= _ -> exists new, _ |- _ => rename IH into IHloop
    end.
    pose proof (drawn_note_generated rs i channel_number) as Hnote.
    set (note := drawn_note rs i channel_number) in *.
    clearbody note.
    destruct Hnote as (Hrest & Hpitch & Hlen & Hspeed & Hoct).
    assert (Hp : 1 <= note_length note * note_speed note <= 16) by nia.
    assert (Hnext : (t + note_length note * note_speed note)%int
                    = t + note_ticks note).
    { unfold int_add, int_mul, note_ticks.
      rewrite (wrap32_small (_ * _)) by (unfold in_int, INT_MIN, INT_MAX; lia).
      apply wrap32_small. unfold in_int, INT_MIN, INT_MAX in *. lia. }
    rewrite Hnext in *. unfold note_ticks in *.
    destruct IHloop as (new & Hnew & Hall & Hbelow & Hdone); [lia |].
    exists (note :: new). rewrite Hnew, <- app_assoc. cbn [app length].
    split; [f_equal; lia |].
    split.
    { constructor; [| exact Hall].
      exact (conj Hrest (conj Hpitch (conj Hlen (conj Hspeed Hoct)))). }
    split; [| lia].
    intros _. unfold sum_ticks in *. cbn [map fold_right]. unfold note_ticks at 1 3.
    destruct (Z_lt_dec (t + note_length note * note_speed note) (3072 - 16))
      as [Hlt | Hge].
    + specialize (Hbelow Hlt). lia.
    + rewrite Hdone by lia. cbn. lia.
  - intros _. exists []. rewrite app_nil_r, Nat.mul_0_r, Nat.add_0_r.
    repeat split; [constructor | lia | lia].
Qed.

(** C10.  Whatever the random stream, [build_note_view] returns, and the
    notes it appends for channel [c] all have a pitch from C to B (never a
    rest), a length and a speed from 1 to 4 and the octave [c]; their lengths
    times speeds add up to at least 3056 and less than 3072.  Three random
    values are drawn per note. *)
Theorem build_note_view_sequence (rs : rand_stream) (i : nat) (c : Z)
    (notes : list Note_View) :
  exists new,
    build_note_view rs i c notes = (notes ++ new, (i + 3 * length new)%nat)
    /\ Forall (generated_note c) new
    /\ 3072 - 16 <= sum_ticks new < 3072
    /\ running_tick 0 new = sum_ticks new.
Proof.
  unfold build_note_view.
  destruct (build_note_view_loop_spec rs c i 0 notes) as
    (new & Hnew & Hall & Hsum & _); [unfold INT_MIN; lia |].
  exists new. split; [exact Hnew |]. split; [exact Hall |].
  split; [lia |].
  rewrite running_tick_0. apply wrap32_small.
  unfold in_int, INT_MIN, INT_MAX. lia.
Qed.

(** * Further properties *)

(** Decide an equation or inequality between [int] expressions once the
    sizes are numbers. *)
Ltac int_lia :=
  change octave_height with 168 in *;
  change note_row_height with 14 in *;
  change black_key_offset with (-3) in *;
  unfold int_add, int_sub, int_mul, white_key_height, black_key_height,
    tick_width, WHITE_KEY_HEIGHT, BLACK_KEY_HEIGHT, WHITE_KEY_WIDTH,
    BLACK_KEY_WIDTH, TICK_WIDTH, in_int, INT_MIN, INT_MAX, wrap32 in *;
  Z.div_mod_to_equations; lia.

(** ** The keyboard *)

Lemma calc_sizes_loop_placed (X Y : Z) (slots : list (Z * Note_Key)) :
  forall white_delta black_delta : Z,
    calc_sizes_loop Y slots (map (new_key X Y) slots) white_delta black_delta
    = map (place_key X Y)
        (calc_sizes_loop 0 slots (map (new_key 0 0) slots)
           white_delta black_delta).
Proof.
  induction slots as [| [_y nk] slots IH]; intros wd bd; [reflexivity |].
  cbn [map calc_sizes_loop new_key].
  destruct (key_white nk) eqn:Hwhite; cbn [map]; rewrite IH; f_equal;
    unfold place_key, resize_key;
    cbn [key_box_x key_box_y key_box_w key_box_h key_box_white
         key_box_label key_box_color];
    f_equal; int_lia.
Qed.

Lemma keys_calc_sizes_placed (X Y : Z) :
  keys_calc_sizes (new_keys X Y) = map (place_key X Y) origin_keys.
Proof.
  unfold origin_keys, keys_calc_sizes, new_keys.
  change (map (new_key X Y) key_slots)
    with (new_key X Y (0, mkNote_Key 0 0 B_NAT true)
          :: map (new_key X Y) (tl key_slots)).
  change (map (new_key 0 0) key_slots)
    with (new_key 0 0 (0, mkNote_Key 0 0 B_NAT true)
          :: map (new_key 0 0) (tl key_slots)).
  cbn [new_key key_white key_box_y].
  apply (calc_sizes_loop_placed X Y key_slots 0 0).
Qed.

Lemma placed_key_at (X Y : Z) (i : nat) (key0 : Key_Box) :
  nth_error origin_keys i = Some key0 ->
  nth_error (keys_calc_sizes (new_keys X Y)) i = Some (place_key X Y key0).
Proof.
  intros Hkey. rewrite keys_calc_sizes_placed, nth_error_map, Hkey.
  reflexivity.
Qed.

Lemma note_pitch_listed (p : Pitch) : p <> REST -> In p note_pitches.
Proof.
  intros Hp. destruct p; [contradiction | ..]; cbn; tauto.
Qed.

Lemma keyboard_octave_listed (o : Z) : 1 <= o <= 8 -> In o keyboard_octaves.
Proof.
  intros Ho.
  assert (H : o = 1 \/ o = 2 \/ o = 3 \/ o = 4 \/ o = 5 \/ o = 6 \/ o = 7
              \/ o = 8) by lia.
  cbn. intuition auto.
Qed.

Lemma pitch_to_y_pos_offset (Y : Z) (p : Pitch) (o : Z) :
  p <> REST -> 1 <= o <= 8 -> in_int Y -> in_int (Y + 1344) ->
  Set_Channel.pitch_to_y_pos Y p o = Y + row_offset p o
  /\ 0 <= row_offset p o <= 1344 - 14.
Proof.
  intros Hrest Ho HY HY'. unfold row_offset.
  assert (Hp : 1 <= Pitch_to_int p <= 12)
    by (destruct p; cbn; try lia; contradiction).
  split; [| lia].
  rewrite pitch_to_y_pos_wrap, wrap32_small; [lia |].
  unfold in_int, INT_MIN, INT_MAX in *. lia.
Qed.

(** The keyboard at the origin: the key of every note lies inside the
    keyboard and spans the note's row. *)
Lemma origin_keys_span_rows :
  forallb
    (fun p =>
       forallb
         (fun o =>
            match key_index p o with
            | Some i =>
                match nth_error origin_keys i with
                | Some key =>
                    (0 <=? key_box_y key)
                    && (key_box_y key <=? row_offset p o)
                    && (row_offset p o + 14
                        <=? key_box_y key + key_box_h key)
                    && (key_box_y key + key_box_h key <=? 1344)
                | None => false
                end
            | None => false
            end) keyboard_octaves) note_pitches = true.
Proof. vm_compute. reflexivity. Qed.

(** X1.  On the keyboard the constructor builds at [(X, Y)] and
    [calc_sizes] lays out, the key that [set_key_color] addresses for a note
    of pitch [p] (not a rest) in octave [o] (1 to 8) spans the row in which
    [set_channel] puts the boxes of such notes: the key starts at or above
    the row and ends at or below it; and the key lies within the keyboard's
    height. *)
Theorem keys_span_note_rows (X Y : Z) (p : Pitch) (o : Z) :
  p <> REST -> 1 <= o <= 8 -> in_int Y -> in_int (Y + 1344) ->
  exists i key,
    key_index p o = Some i
    /\ nth_error (keys_calc_sizes (new_keys X Y)) i = Some key
    /\ key_box_x key = X
    /\ key_box_y key <= Set_Channel.pitch_to_y_pos Y p o
    /\ Set_Channel.pitch_to_y_pos Y p o + note_row_height
       <= key_box_y key + key_box_h key
    /\ Y <= key_box_y key
    /\ key_box_y key + key_box_h key <= Y + keys_height.
Proof.
  intros Hp Ho HY HY'.
  pose proof origin_keys_span_rows as Hall.
  rewrite forallb_forall in Hall.
  specialize (Hall p (note_pitch_listed p Hp)).
  rewrite forallb_forall in Hall.
  specialize (Hall o (keyboard_octave_listed o Ho)).
  destruct (key_index p o) as [i |]; [| discriminate Hall].
  destruct (nth_error origin_keys i) as [key0 |] eqn:Hkey0;
    [| discriminate Hall].
  apply andb_prop in Hall. destruct Hall as (Hall & Hend).
  apply andb_prop in Hall. destruct Hall as (Hall & Hbelow).
  apply andb_prop in Hall. destruct Hall as (Htop & Habove).
  apply Z.leb_le in Htop, Habove, Hbelow, Hend.
  destruct (pitch_to_y_pos_offset Y p o Hp Ho HY HY') as (-> & Hrow).
  exists i, (place_key X Y key0).
  split; [reflexivity |].
  split; [apply placed_key_at, Hkey0 |].
  unfold place_key, resize_key.
  cbn [key_box_x key_box_y key_box_h].
  rewrite wrap32_small by (unfold in_int, INT_MIN, INT_MAX in *; lia).
  change note_row_height with 14. change keys_height with 1344.
  repeat split; lia.
Qed.

Lemma keys_span_note_rows_witness :
  exists key,
    nth_error (keys_calc_sizes (new_keys 0 21)) 54 = Some key
    /\ key_box_y key <= Set_Channel.pitch_to_y_pos 21 C_NAT 4
    /\ Set_Channel.pitch_to_y_pos 21 C_NAT 4 + note_row_height
       <= key_box_y key + key_box_h key.
Proof.
  destruct (keys_span_note_rows 0 21 C_NAT 4)
    as (i & key & Hi & Hkey & _ & Hy & Hh & _).
  - discriminate.
  - lia.
  - unfold in_int, INT_MIN, INT_MAX. lia.
  - unfold in_int, INT_MIN, INT_MAX. lia.
  - injection Hi as <-. exists key. split; [exact Hkey |]. split; assumption.
Defined.

(** Every key at the origin lies within the keyboard's height. *)
Lemma origin_keys_inside :
  forallb
    (fun key =>
       (0 <=? key_box_y key) && (0 <=? key_box_h key)
       && (key_box_y key + key_box_h key <=? 1344)) origin_keys = true.
Proof. vm_compute. reflexivity. Qed.

Lemma origin_key_inside (i : nat) (key : Key_Box) :
  nth_error origin_keys i = Some key ->
  0 <= key_box_y key /\ 0 <= key_box_h key
  /\ key_box_y key + key_box_h key <= 1344.
Proof.
  intros Hkey. pose proof origin_keys_inside as Hall.
  rewrite forallb_forall in Hall.
  specialize (Hall key (nth_error_In _ _ Hkey)).
  apply andb_prop in Hall. destruct Hall as (Hall & Hend).
  apply andb_prop in Hall. destruct Hall as (Hy & Hh).
  apply Z.leb_le in Hy, Hh, Hend. repeat split; assumption.
Qed.

(** The white keys at the origin: in each octave they follow one another
    from the top of the octave to its bottom without a gap. *)
Lemma origin_white_keys_tile :
  forallb
    (fun _y =>
       match nth_error origin_keys (12 * _y), nth_error origin_keys (12 * _y + 6) with
       | Some first, Some last =>
           (key_box_y first =? 168 * Z.of_nat _y)
           && (key_box_y last + key_box_h last =? 168 * (Z.of_nat _y + 1))
       | _, _ => false
       end
       && forallb
            (fun j =>
               match nth_error origin_keys (12 * _y + j),
                     nth_error origin_keys (12 * _y + j + 1) with
               | Some key, Some next =>
                   key_box_white key && key_box_white next
                   && (key_box_w key =? 150) && (key_box_w next =? 150)
                   && (0 <=? key_box_y key)
                   && (key_box_y next =? key_box_y key + key_box_h key)
                   && (key_box_y next + key_box_h next <=? 1344)
               | _, _ => false
               end) (seq 0 6)) (seq 0 8) = true.
Proof. vm_compute. reflexivity. Qed.

(** X2.  The seven white keys of every octave tile it: the first starts at
    the top of the octave, each next one starts where the one before ends,
    and the last ends at the bottom of the octave, [octave_height] further
    down; all are [WHITE_KEY_WIDTH] wide. *)
Theorem white_keys_tile_octave (X Y : Z) (_y j : nat) :
  (_y < 8)%nat -> (j < 6)%nat -> in_int Y -> in_int (Y + 1344) ->
  exists first last key next,
    nth_error (keys_calc_sizes (new_keys X Y)) (12 * _y) = Some first
    /\ nth_error (keys_calc_sizes (new_keys X Y)) (12 * _y + 6) = Some last
    /\ nth_error (keys_calc_sizes (new_keys X Y)) (12 * _y + j) = Some key
    /\ nth_error (keys_calc_sizes (new_keys X Y)) (12 * _y + j + 1) = Some next
    /\ key_box_y first = Y + octave_height * Z.of_nat _y
    /\ key_box_y last + key_box_h last
       = Y + octave_height * (Z.of_nat _y + 1)
    /\ key_box_y next = key_box_y key + key_box_h key
    /\ key_box_white key = true /\ key_box_white next = true
    /\ key_box_w key = WHITE_KEY_WIDTH /\ key_box_w next = WHITE_KEY_WIDTH.
Proof.
  intros Hy Hj HY HY'.
  pose proof origin_white_keys_tile as Hall.
  rewrite forallb_forall in Hall.
  specialize (Hall _y). rewrite in_seq in Hall.
  specialize (Hall ltac:(lia)).
  apply andb_prop in Hall. destruct Hall as (Hends & Hall).
  rewrite forallb_forall in Hall.
  specialize (Hall j). rewrite in_seq in Hall.
  specialize (Hall ltac:(lia)).
  destruct (nth_error origin_keys (12 * _y)) as [first |] eqn:Hfirst;
    [| discriminate Hends].
  destruct (nth_error origin_keys (12 * _y + 6)) as [last |] eqn:Hlast;
    [| discriminate Hends].
  destruct (nth_error origin_keys (12 * _y + j)) as [key |] eqn:Hkey;
    [| discriminate Hall].
  destruct (nth_error origin_keys (12 * _y + j + 1)) as [next |] eqn:Hnext;
    [| discriminate Hall].
  apply andb_prop in Hends. destruct Hends as (Hf & Hl).
  apply Z.eqb_eq in Hf, Hl.
  repeat (apply andb_prop in Hall;
          let H := fresh "Hc" in destruct Hall as (Hall & H)).
  apply Z.eqb_eq in Hc3, Hc2, Hc0. apply Z.leb_le in Hc1, Hc.
  exists (place_key X Y first), (place_key X Y last),
    (place_key X Y key), (place_key X Y next).
  rewrite (placed_key_at X Y _ _ Hfirst), (placed_key_at X Y _ _ Hlast),
    (placed_key_at X Y _ _ Hkey), (placed_key_at X Y _ _ Hnext).
  unfold place_key, resize_key.
  cbn [key_box_x key_box_y key_box_h key_box_w key_box_white].
  change octave_height with 168. unfold WHITE_KEY_WIDTH.
  pose proof (origin_key_inside _ _ Hfirst).
  pose proof (origin_key_inside _ _ Hlast).
  pose proof (origin_key_inside _ _ Hkey).
  pose proof (origin_key_inside _ _ Hnext).
  rewrite !wrap32_small by (unfold in_int, INT_MIN, INT_MAX in *; lia).
  repeat split; try reflexivity; try assumption; lia.
Qed.

Lemma white_keys_tile_octave_witness :
  exists key next,
    nth_error (keys_calc_sizes (new_keys 0 21)) 14 = Some key
    /\ nth_error (keys_calc_sizes (new_keys 0 21)) 15 = Some next
    /\ key_box_y next = key_box_y key + key_box_h key.
Proof.
  destruct (white_keys_tile_octave 0 21 1 2)
    as (first & last & key & next & _ & _ & Hkey & Hnext & _ & _ & Hy & _).
  - lia.
  - lia.
  - unfold in_int, INT_MIN, INT_MAX. lia.
  - unfold in_int, INT_MIN, INT_MAX. lia.
  - exists key, next. split; [exact Hkey |]. split; [exact Hnext | exact Hy].
Defined.

(** ** Addressing and colouring keys *)

Lemma color_key_at_length (i : nat) (c : Key_Color) (keys : list Key_Box) :
  length (color_key_at i c keys) = length keys.
Proof.
  revert i. induction keys as [| key keys IH]; intros [| i]; cbn;
    try reflexivity.
  rewrite IH. reflexivity.
Qed.

Lemma color_key_at_same (i : nat) (c : Key_Color) (keys : list Key_Box) :
  nth_error (color_key_at i c keys) i
  = option_map (color_key c) (nth_error keys i).
Proof.
  revert i. induction keys as [| key keys IH]; intros [| i]; cbn;
    try reflexivity.
  apply IH.
Qed.

Lemma color_key_at_other (i j : nat) (c : Key_Color) (keys : list Key_Box) :
  j <> i -> nth_error (color_key_at i c keys) j = nth_error keys j.
Proof.
  revert i j. induction keys as [| key keys IH]; intros [| i] [| j] Hne; cbn;
    try reflexivity; try contradiction.
  apply IH. congruence.
Qed.

(** The index of every note's key: inside the array, at the slot of the
    note's octave row and pitch. *)
Lemma key_index_slots :
  forallb
    (fun p =>
       forallb
         (fun o =>
            match key_index p o with
            | Some i =>
                Nat.ltb i 96
                && match nth_error key_slots i with
                   | Some (_y, nk) =>
                       (_y =? 8 - o) && Pitch_eqb (key_pitch nk) p
                   | None => false
                   end
            | None => false
            end) keyboard_octaves) note_pitches = true.
Proof. vm_compute. reflexivity. Qed.

Lemma key_index_in_range (p : Pitch) (o : Z) :
  p <> REST -> 1 <= o <= 8 ->
  exists i nk,
    key_index p o = Some i
    /\ (i < 96)%nat
    /\ nth_error key_slots i = Some (8 - o, nk)
    /\ key_pitch nk = p.
Proof.
  intros Hp Ho.
  pose proof key_index_slots as Hall.
  rewrite forallb_forall in Hall.
  specialize (Hall p (note_pitch_listed p Hp)).
  rewrite forallb_forall in Hall.
  specialize (Hall o (keyboard_octave_listed o Ho)).
  destruct (key_index p o) as [i |]; [| discriminate Hall].
  apply andb_prop in Hall. destruct Hall as (Hi & Hslot).
  destruct (nth_error key_slots i) as [[_y nk] |] eqn:Hnth;
    [| discriminate Hslot].
  apply andb_prop in Hslot. destruct Hslot as (Hy & Hpitch).
  apply Z.eqb_eq in Hy. apply Pitch_eqb_eq in Hpitch. apply Nat.ltb_lt in Hi.
  subst _y. exists i, nk.
  exact (conj eq_refl (conj Hi (conj Hnth Hpitch))).
Qed.

Lemma key_index_out_of_range (p : Pitch) (o : Z) :
  in_int o -> ~ 1 <= o <= 8 -> key_index p o = None.
Proof.
  intros Hint Ho. unfold in_int, INT_MIN, INT_MAX in Hint.
  unfold key_index.
  remember (wrap_size (NUM_OCTAVES - o)) as _y eqn:Hy.
  destruct p; [reflexivity | ..]; cbn;
    try match goal with
        | |- context [nth_error PITCH_TO_KEY_INDEX ?n] =>
            let v := eval vm_compute in (nth_error PITCH_TO_KEY_INDEX n) in
            change (nth_error PITCH_TO_KEY_INDEX n) with v; cbv iota beta
        end;
    match goal with
    | |- (if ?b then _ else _) = None =>
        destruct b eqn:Hlt; [exfalso | reflexivity]
    end;
    apply Z.ltb_lt in Hlt; subst _y; unfold wrap_size, NUM_OCTAVES in Hlt;
    Z.div_mod_to_equations; lia.
Qed.

(** X3.  On a full key array, [set_key_color] for a note of pitch [p] (not a
    rest) recolours exactly one key when the octave is from 1 to 8: the key
    in octave row [8 - octave] whose [NOTE_KEYS] entry has pitch [p]; every
    other key is untouched.  For any other octave, or for a rest, the index
    it computes lies outside the array or the pitch table. *)
Theorem set_key_color_addresses_note_key (p : Pitch) (o : Z) (c : Key_Color)
    (keys : list Key_Box) :
  length keys = 96%nat -> in_int o ->
  (p <> REST -> 1 <= o <= 8 ->
   exists i nk key keys',
     set_key_color p o c keys = Some keys'
     /\ nth_error key_slots i = Some (8 - o, nk)
     /\ key_pitch nk = p
     /\ nth_error keys i = Some key
     /\ nth_error keys' i = Some (color_key c key)
     /\ length keys' = 96%nat
     /\ forall j, j <> i -> nth_error keys' j = nth_error keys j)
  /\ (~ 1 <= o <= 8 -> set_key_color p o c keys = None)
  /\ set_key_color REST o c keys = None.
Proof.
  intros Hlen Hint. split; [| split].
  - intros Hp Ho.
    destruct (key_index_in_range p o Hp Ho) as (i & nk & Hi & Hlt & Hslot & Hnk).
    destruct (nth_error keys i) as [key |] eqn:Hkey.
    + exists i, nk, key, (color_key_at i c keys).
      unfold set_key_color. rewrite Hi, Hkey.
      split; [reflexivity |]. split; [exact Hslot |]. split; [exact Hnk |].
      split; [reflexivity |].
      split; [rewrite color_key_at_same, Hkey; reflexivity |].
      split; [rewrite color_key_at_length; exact Hlen |].
      intros j Hj. apply color_key_at_other, Hj.
    + apply nth_error_None in Hkey. lia.
  - intros Ho. unfold set_key_color.
    rewrite (key_index_out_of_range p o Hint Ho). reflexivity.
  - reflexivity.
Qed.

Lemma set_key_color_addresses_note_key_witness :
  exists keys',
    set_key_color G_NAT 3 (FL_NOTE NOTE_RED_LIGHT) (new_keys 0 21) = Some keys'
    /\ length keys' = 96%nat.
Proof.
  destruct (set_key_color_addresses_note_key G_NAT 3 (FL_NOTE NOTE_RED_LIGHT)
              (new_keys 0 21))
    as (Hset & _).
  - reflexivity.
  - unfold in_int, INT_MIN, INT_MAX. lia.
  - destruct Hset as (i & nk & key & keys' & Hkeys' & _ & _ & _ & _ & Hlen & _).
    + discriminate.
    + lia.
    + exists keys'. split; [exact Hkeys' | exact Hlen].
Defined.

(** What [calc_sizes] keeps of a key, and the width it gives it. *)
Lemma calc_sizes_loop_keeps (y_top : Z) (slots : list (Z * Note_Key)) :
  forall (keys : list Key_Box) (white_delta black_delta : Z) (i : nat)
         (_y : Z) (nk : Note_Key) (key0 : Key_Box),
    nth_error slots i = Some (_y, nk) ->
    nth_error keys i = Some key0 ->
    exists key,
      nth_error (calc_sizes_loop y_top slots keys white_delta black_delta) i
      = Some key
      /\ key_box_white key = key_box_white key0
      /\ key_box_label key = key_box_label key0
      /\ key_box_color key = key_box_color key0
      /\ key_box_x key = key_box_x key0
      /\ key_box_w key
         = (if key_white nk then WHITE_KEY_WIDTH else BLACK_KEY_WIDTH).
Proof.
  induction slots as [| [_y' nk'] slots IH];
    intros keys wd bd i _y nk key0 Hslot Hkey.
  - destruct i; discriminate Hslot.
  - destruct keys as [| key' keys]; [destruct i; discriminate Hkey |].
    destruct i as [| i].
    + injection Hslot as -> ->. injection Hkey as ->.
      cbn [calc_sizes_loop]. destruct (key_white nk); eexists;
        (split; [reflexivity |]); repeat split.
    + cbn [calc_sizes_loop nth_error] in *.
      destruct (key_white nk'); cbn [nth_error]; eapply IH; eassumption.
Qed.

(** The table entry of a pitch is that of a white key exactly when the
    pitch's row index is one [is_white_key] accepts. *)
Lemma note_keys_white :
  forallb
    (fun nk =>
       Bool.eqb (key_white nk) (is_white_key (12 - Pitch_to_int (key_pitch nk))))
    NOTE_KEYS = true.
Proof. vm_compute. reflexivity. Qed.

Lemma key_slot_listed (i : nat) (_y : Z) (nk : Note_Key) :
  nth_error key_slots i = Some (_y, nk) ->
  In nk NOTE_KEYS /\ In _y octave_rows.
Proof.
  intros Hslot. apply nth_error_In in Hslot.
  unfold key_slots in Hslot. apply in_flat_map in Hslot.
  destruct Hslot as (_y' & Hy & Hin). apply in_map_iff in Hin.
  destruct Hin as (nk' & [= <- <-] & Hnk). split; assumption.
Qed.

(** X4.  The key addressed for a note is the key of that note: it is a white
    key, [WHITE_KEY_WIDTH] wide, exactly when the note's row index
    [12 - pitch] is one [is_white_key] accepts, and a black key,
    [BLACK_KEY_WIDTH] wide, otherwise; it carries a label exactly when the
    pitch is C, and the label is then the entry of [C_KEY_LABELS] for the
    note's octave; its colour is white or the foreground colour
    accordingly. *)
Theorem keys_named_after_notes (X Y : Z) (p : Pitch) (o : Z) :
  p <> REST -> 1 <= o <= 8 ->
  exists i key,
    key_index p o = Some i
    /\ nth_error (keys_calc_sizes (new_keys X Y)) i = Some key
    /\ key_box_white key = is_white_key (12 - Pitch_to_int p)
    /\ key_box_w key
       = (if is_white_key (12 - Pitch_to_int p)
          then WHITE_KEY_WIDTH else BLACK_KEY_WIDTH)
    /\ key_box_label key
       = (if Pitch_eqb p C_NAT
          then nth_error C_KEY_LABELS (Z.to_nat (o - 1)) else None)
    /\ key_box_color key
       = (if is_white_key (12 - Pitch_to_int p)
          then FL_WHITE else FL_FOREGROUND_COLOR).
Proof.
  intros Hp Ho.
  destruct (key_index_in_range p o Hp Ho) as (i & nk & Hi & _ & Hslot & Hnk).
  assert (Hnew : nth_error (new_keys X Y) i = Some (new_key X Y (8 - o, nk))).
  { unfold new_keys. rewrite nth_error_map, Hslot. reflexivity. }
  assert (Hloop : keys_calc_sizes (new_keys X Y)
                  = calc_sizes_loop Y key_slots (new_keys X Y) 0 0)
    by reflexivity.
  destruct (calc_sizes_loop_keeps Y key_slots (new_keys X Y) 0 0 i _ _ _
              Hslot Hnew)
    as (key & Hkey & Hwhite & Hlabel & Hcolor & _ & Hw).
  exists i, key. split; [exact Hi |]. rewrite Hloop. split; [exact Hkey |].
  rewrite Hwhite, Hw, Hlabel, Hcolor.
  pose proof note_keys_white as Htable. rewrite forallb_forall in Htable.
  specialize (Htable nk (proj1 (key_slot_listed _ _ _ Hslot))).
  apply Bool.eqb_prop in Htable. rewrite Hnk in Htable. rewrite <- Htable.
  unfold new_key. rewrite Hnk.
  destruct (key_white nk); cbn [key_box_white key_box_label key_box_color];
    repeat split.
  - destruct (Pitch_eqb p C_NAT); [| reflexivity].
    f_equal. unfold wrap_size, NUM_OCTAVES.
    rewrite Z.mod_small by lia. f_equal. lia.
  - destruct (Pitch_eqb p C_NAT) eqn:HC; [| reflexivity].
    apply Pitch_eqb_eq in HC. rewrite HC in Htable. discriminate Htable.
Qed.

Lemma keys_named_after_notes_witness :
  exists key,
    nth_error (keys_calc_sizes (new_keys 0 21)) 54 = Some key
    /\ key_box_label key = Some "C4"%string.
Proof.
  destruct (keys_named_after_notes 0 21 C_NAT 4)
    as (i & key & Hi & Hkey & _ & _ & Hlabel & _).
  - discriminate.
  - lia.
  - injection Hi as <-. exists key. split; [exact Hkey | exact Hlabel].
Defined.

(** ** The painted rows *)

Lemma draw_rows_loop_placed (Y : Z) (rows : list Z) :
  forall c : Z,
    draw_rows_loop rows (wrap32 (Y + c))
    = map (place_row Y) (draw_rows_loop rows (wrap32 c)).
Proof.
  induction rows as [| _x rows IH]; intros c; [reflexivity |].
  cbn [draw_rows_loop map]. f_equal.
  - unfold place_row. cbn [fst snd]. f_equal. int_lia.
  - replace (wrap32 (Y + c) + note_row_height)%int
      with (wrap32 (Y + (wrap32 c + 14))) by int_lia.
    replace (wrap32 c + note_row_height)%int
      with (wrap32 (wrap32 c + 14)) by int_lia.
    apply IH.
Qed.

Lemma draw_rows_placed (Y : Z) :
  in_int Y -> draw_rows Y = map (place_row Y) (draw_rows 0).
Proof.
  intros HY. unfold draw_rows.
  rewrite <- (wrap32_small Y HY) at 1.
  replace Y with (Y + 0) at 1 by lia.
  apply (draw_rows_loop_placed Y row_slots 0).
Qed.

(** The rows painted at the origin: the row of every note is at the
    note's offset and is light exactly when the note's key is white. *)
Lemma origin_rows_match :
  forallb
    (fun p =>
       forallb
         (fun o =>
            match key_index p o with
            | Some i =>
                match nth_error (new_keys 0 0) i,
                      nth_error (draw_rows 0)
                        (Z.to_nat ((8 - o) * 12 + (12 - Pitch_to_int p))) with
                | Some key, Some (y_pos, light) =>
                    (y_pos =? row_offset p o)
                    && Bool.eqb light (key_box_white key)
                | _, _ => false
                end
            | None => false
            end) keyboard_octaves) note_pitches = true.
Proof. vm_compute. reflexivity. Qed.

(** X5.  [draw] paints 96 rows.  The row painted for pitch [p] (not a rest)
    of octave [o] (1 to 8), counted from the top, is at the y position
    [set_channel] gives the boxes of such notes, and it is painted in the
    light colour exactly when the key the keyboard has for the note is a
    white key. *)
Theorem rows_match_notes_and_keys (Y : Z) (p : Pitch) (o : Z) :
  p <> REST -> 1 <= o <= 8 -> in_int Y -> in_int (Y + 1344) ->
  length (draw_rows Y) = 96%nat
  /\ exists i key,
       key_index p o = Some i
       /\ nth_error (new_keys 0 0) i = Some key
       /\ nth_error (draw_rows Y)
            (Z.to_nat ((8 - o) * 12 + (12 - Pitch_to_int p)))
          = Some (Set_Channel.pitch_to_y_pos Y p o, key_box_white key).
Proof.
  intros Hp Ho HY HY'.
  rewrite (draw_rows_placed Y HY). split; [reflexivity |].
  destruct (pitch_to_y_pos_offset Y p o Hp Ho HY HY') as (-> & Hrow).
  pose proof origin_rows_match as Hall.
  rewrite forallb_forall in Hall.
  specialize (Hall p (note_pitch_listed p Hp)).
  rewrite forallb_forall in Hall.
  specialize (Hall o (keyboard_octave_listed o Ho)).
  destruct (key_index p o) as [i |]; [| discriminate Hall].
  destruct (nth_error (new_keys 0 0) i) as [key |] eqn:Hkey;
    [| discriminate Hall].
  destruct (nth_error (draw_rows 0) _) as [[y_pos light] |] eqn:Hnth;
    [| discriminate Hall].
  apply andb_prop in Hall. destruct Hall as (Hy & Hlight).
  apply Z.eqb_eq in Hy. apply Bool.eqb_prop in Hlight. subst y_pos light.
  exists i, key. split; [reflexivity |]. split; [exact Hkey |].
  rewrite nth_error_map, Hnth. unfold place_row. cbn [option_map fst snd].
  rewrite wrap32_small by (unfold in_int, INT_MIN, INT_MAX in *; lia).
  reflexivity.
Qed.

Lemma rows_match_notes_and_keys_witness :
  length (draw_rows 21) = 96%nat
  /\ nth_error (draw_rows 21) 59
     = Some (Set_Channel.pitch_to_y_pos 21 C_NAT 4, true).
Proof.
  destruct (rows_match_notes_and_keys 21 C_NAT 4)
    as (Hlen & i & key & Hi & Hkey & Hrow).
  - discriminate.
  - lia.
  - unfold in_int, INT_MIN, INT_MAX. lia.
  - unfold in_int, INT_MIN, INT_MAX. lia.
  - split; [exact Hlen |].
    injection Hi as <-. injection Hkey as <-. exact Hrow.
Defined.

(** ** Showing the channels on the keyboard *)

Lemma reset_key_colors_loop_at (slots : list (Z * Note_Key)) :
  forall (keys : list Key_Box) (i : nat),
    nth_error (reset_key_colors_loop slots keys) i
    = match nth_error slots i, nth_error keys i with
      | Some (_, nk), Some key =>
          Some (color_key
                  (if key_white nk then FL_WHITE else FL_FOREGROUND_COLOR) key)
      | _, _ => None
      end.
Proof.
  induction slots as [| [_y nk] slots IH]; intros keys i.
  - destruct i; reflexivity.
  - destruct keys as [| key keys].
    + destruct i as [| i]; cbn; [reflexivity |].
      destruct (nth_error slots i) as [[? ?] |]; reflexivity.
    + destruct i as [| i]; cbn; [reflexivity | apply IH].
Qed.

Lemma reset_key_colors_length (keys : list Key_Box) :
  length keys = 96%nat -> length (reset_key_colors keys) = 96%nat.
Proof.
  unfold reset_key_colors. intros Hlen.
  assert (H : forall slots ks,
             length ks = length slots ->
             length (reset_key_colors_loop slots ks) = length slots).
  { induction slots as [| [? ?] slots IH]; intros [| key ks] Hl; cbn in *;
      try reflexivity; try discriminate.
    rewrite IH; [reflexivity | lia]. }
  rewrite H; [reflexivity | rewrite Hlen; reflexivity].
Qed.

Lemma reset_key_colors_at (keys : list Key_Box) (i : nat) (key : Key_Box) :
  length keys = 96%nat ->
  nth_error keys i = Some key ->
  nth_error (reset_key_colors keys) i
  = Some (color_key (key_base_color i) key).
Proof.
  intros Hlen Hkey. unfold reset_key_colors, key_base_color.
  rewrite reset_key_colors_loop_at, Hkey.
  destruct (nth_error key_slots i) as [[_y nk] |] eqn:Hslot; [reflexivity |].
  apply nth_error_None in Hslot.
  assert (Hi : (i < length keys)%nat)
    by (apply nth_error_Some; congruence).
  rewrite Hlen in Hi. change (length key_slots) with 96%nat in Hslot. lia.
Qed.

Lemma color_key_twice (c c' : Key_Color) (key : Key_Box) :
  color_key c (color_key c' key) = color_key c key.
Proof. reflexivity. Qed.

Lemma set_channel_key_color_at (p : Pitch) (o : Z) (c : Fl_Color)
    (keys : list Key_Box) :
  showable p o -> length keys = 96%nat ->
  exists keys',
    set_channel_key_color p o c (Some keys) = Some keys'
    /\ length keys' = 96%nat
    /\ forall i,
         nth_error keys' i
         = if lights_key p o i
           then option_map (color_key (FL_NOTE c)) (nth_error keys i)
           else nth_error keys i.
Proof.
  intros Hshow Hlen. unfold set_channel_key_color, lights_key.
  destruct (Pitch_eqb p REST) eqn:Hrest; cbn [negb andb].
  - exists keys. repeat split; assumption.
  - assert (Hp : p <> REST).
    { intros ->. discriminate Hrest. }
    destruct Hshow as [-> | Ho]; [contradiction |].
    destruct (key_index_in_range p o Hp Ho) as (j & nk & Hj & Hlt & _).
    unfold set_key_color. rewrite Hj.
    destruct (nth_error keys j) as [key |] eqn:Hkey.
    + exists (color_key_at j (FL_NOTE c) keys).
      split; [reflexivity |].
      split; [rewrite color_key_at_length; exact Hlen |].
      intros i. destruct (Nat.eqb_spec j i) as [<- | Hne].
      * apply color_key_at_same.
      * apply color_key_at_other. congruence.
    + apply nth_error_None in Hkey. lia.
Qed.

(** X6.  On a full key array, and when every channel is at rest or in an
    octave from 1 to 8, [update_key_colors] runs to the end and changes
    nothing but colours: every key ends up in the light colour of the
    highest-numbered channel whose note is the key's, and in its own white or
    foreground colour when no channel sounds it. *)
Theorem update_key_colors_shows_channels (k : Piano_Keys.t)
    (keys : list Key_Box) :
  length keys = 96%nat ->
  showable (Piano_Keys._channel_1_pitch k) (Piano_Keys._channel_1_octave k) ->
  showable (Piano_Keys._channel_2_pitch k) (Piano_Keys._channel_2_octave k) ->
  showable (Piano_Keys._channel_3_pitch k) (Piano_Keys._channel_3_octave k) ->
  showable (Piano_Keys._channel_4_pitch k) (Piano_Keys._channel_4_octave k) ->
  exists keys',
    update_key_colors k keys = Some keys'
    /\ length keys' = 96%nat
    /\ forall i key,
         nth_error keys i = Some key ->
         nth_error keys' i = Some (color_key (shown_color k i) key).
Proof.
  intros Hlen H1 H2 H3 H4. unfold update_key_colors.
  pose proof (reset_key_colors_length keys Hlen) as Hlen0.
  destruct (set_channel_key_color_at _ _ NOTE_RED_LIGHT _ H1 Hlen0)
    as (keys1 & -> & Hlen1 & Hat1).
  destruct (set_channel_key_color_at _ _ NOTE_BLUE_LIGHT _ H2 Hlen1)
    as (keys2 & -> & Hlen2 & Hat2).
  destruct (set_channel_key_color_at _ _ NOTE_GREEN_LIGHT _ H3 Hlen2)
    as (keys3 & -> & Hlen3 & Hat3).
  destruct (set_channel_key_color_at _ _ NOTE_BROWN_LIGHT _ H4 Hlen3)
    as (keys4 & -> & Hlen4 & Hat4).
  exists keys4. split; [reflexivity |]. split; [exact Hlen4 |].
  intros i key Hkey.
  rewrite Hat4, Hat3, Hat2, Hat1, (reset_key_colors_at keys i key Hlen Hkey).
  unfold shown_color.
  destruct (lights_key (Piano_Keys._channel_4_pitch k) _ i);
    destruct (lights_key (Piano_Keys._channel_3_pitch k) _ i);
    destruct (lights_key (Piano_Keys._channel_2_pitch k) _ i);
    destruct (lights_key (Piano_Keys._channel_1_pitch k) _ i);
    reflexivity.
Qed.

Lemma update_key_colors_shows_channels_witness :
  exists keys',
    update_key_colors (Piano_Keys.mk 0 21 C_NAT 4 C_NAT 4 D_NAT 4 REST 0)
      (new_keys 0 21) = Some keys'
    /\ length keys' = 96%nat.
Proof.
  destruct (update_key_colors_shows_channels
              (Piano_Keys.mk 0 21 C_NAT 4 C_NAT 4 D_NAT 4 REST 0)
              (new_keys 0 21))
    as (keys' & Hkeys' & Hlen & _).
  - reflexivity.
  - right. cbn. lia.
  - right. cbn. lia.
  - right. cbn. lia.
  - left. reflexivity.
  - exists keys'. split; [exact Hkeys' | exact Hlen].
Defined.

(** ** Highlighting the note that sounds *)

Lemma Fl_Color_eqb_eq (c d : Fl_Color) : Fl_Color_eqb c d = true -> c = d.
Proof. destruct c, d; cbn; intros H; try reflexivity; discriminate H. Qed.

(** The colour step of the highlight loop paints the box. *)
Lemma recolor_note (c : Fl_Color) (note : Note_Box) :
  (if negb (Fl_Color_eqb (box_color note) c) then color_note c note else note)
  = color_note c note.
Proof.
  destruct (Fl_Color_eqb (box_color note) c) eqn:Heq; [| reflexivity].
  apply Fl_Color_eqb_eq in Heq. destruct note. cbn in *. subst. reflexivity.
Qed.

Lemma sum_ticks_app (a b : list Note_View) :
  sum_ticks (a ++ b) = sum_ticks a + sum_ticks b.
Proof.
  unfold sum_ticks. induction a as [| n a IH]; cbn; [reflexivity |].
  rewrite IH. lia.
Qed.

Lemma sum_ticks_lasting (notes : list Note_View) :
  Forall lasting notes -> 0 <= sum_ticks notes.
Proof.
  unfold sum_ticks, lasting.
  induction 1 as [| n l Hn _ IH]; cbn; lia.
Qed.

Lemma set_channel_loop_spans (X Y : Z) (color : Fl_Color)
    (notes : list Note_View) :
  forall t : Z,
    Forall lasting notes -> 0 <= t -> in_int (t + sum_ticks notes) ->
    Forall
      (fun b =>
         t <= tick b
         /\ t_right b = tick b + note_ticks (note_view b)
         /\ 0 <= note_ticks (note_view b)
         /\ tick b + note_ticks (note_view b) <= t + sum_ticks notes
         /\ box_color b = color)
      (set_channel_loop X Y color notes t [])
    /\ running_tick t notes = t + sum_ticks notes.
Proof.
  induction notes as [| note notes IH]; intros t Hlast Ht Hsum.
  - split; [constructor |]. unfold sum_ticks. cbn. lia.
  - inversion Hlast as [| ? ? Hnote Hrest]; subst.
    unfold lasting in Hnote.
    pose proof (sum_ticks_lasting notes Hrest) as Hnotes.
    assert (Hcons : sum_ticks (note :: notes)
                    = note_ticks note + sum_ticks notes) by reflexivity.
    rewrite Hcons in *.
    assert (Hstep : (t + note_length note * note_speed note)%int
                    = t + note_ticks note).
    { unfold int_add, int_mul. fold (note_ticks note).
      rewrite (wrap32_small (note_ticks note))
        by (unfold in_int, INT_MIN, INT_MAX in *; lia).
      apply wrap32_small. unfold in_int, INT_MIN, INT_MAX in *. lia. }
    cbn [set_channel_loop running_tick]. rewrite Hstep.
    destruct (IH (t + note_ticks note) Hrest) as (Hboxes & Hrun).
    { lia. }
    { replace (t + note_ticks note + sum_ticks notes)
        with (t + (note_ticks note + sum_ticks notes)) by lia. exact Hsum. }
    split; [| rewrite Hrun; lia].
    assert (Hlater : Forall
              (fun b =>
                 t <= tick b
                 /\ t_right b = tick b + note_ticks (note_view b)
                 /\ 0 <= note_ticks (note_view b)
                 /\ tick b + note_ticks (note_view b)
                    <= t + (note_ticks note + sum_ticks notes)
                 /\ box_color b = color)
              (set_channel_loop X Y color notes (t + note_ticks note) [])).
    { eapply Forall_impl; [| exact Hboxes]. cbv beta.
      intros b (H1 & H2 & H3 & H4 & H5). repeat split; try assumption; lia. }
    destruct (negb (Pitch_eqb (note_pitch note) REST)); [| exact Hlater].
    rewrite set_channel_loop_from. cbn [app].
    constructor; [| exact Hlater].
    unfold t_right. cbn [tick note_view box_color].
    rewrite Hstep. repeat split; lia.
Qed.

Lemma highlight_tick_loop_past (cn tk : Z) (hcolor : Fl_Color)
    (past rest : list Note_Box) (k : Piano_Keys.t) :
  Forall (fun b => tick b <= tk /\ t_right b <= tk) past ->
  Piano_Timeline.highlight_tick_loop cn tk hcolor (past ++ rest) k
  = match Piano_Timeline.highlight_tick_loop cn tk hcolor rest k with
    | Some (k', rest') => Some (k', map (color_note hcolor) past ++ rest')
    | None => None
    end.
Proof.
  induction 1 as [| b past (Hleft & Hright) _ IH]; cbn [app map].
  - destruct (Piano_Timeline.highlight_tick_loop cn tk hcolor rest k)
      as [[k' rest'] |]; reflexivity.
  - cbn [Piano_Timeline.highlight_tick_loop]. fold (t_right b).
    destruct (Z.gtb_spec (tick b) tk) as [Hgt | _]; [lia |].
    destruct (Z.gtb_spec (t_right b) tk) as [Hgt | _]; [lia |].
    rewrite IH, recolor_note.
    destruct (Piano_Timeline.highlight_tick_loop cn tk hcolor rest k)
      as [[k' rest'] |]; reflexivity.
Qed.

Lemma highlight_tick_loop_future (cn tk : Z) (hcolor : Fl_Color)
    (future : list Note_Box) (k : Piano_Keys.t) :
  Forall (fun b => tk < tick b) future ->
  Piano_Timeline.highlight_tick_loop cn tk hcolor future k = Some (k, future).
Proof.
  intros Hfuture. destruct Hfuture as [| b future Hb _]; [reflexivity |].
  cbn [Piano_Timeline.highlight_tick_loop].
  destruct (Z.gtb_spec (tick b) tk) as [_ | Hle]; [reflexivity | lia].
Qed.

Lemma colored_boxes (c : Fl_Color) (boxes : list Note_Box) :
  map box_color (map (color_note c) boxes) = repeat c (length boxes).
Proof.
  induction boxes as [| b boxes IH]; cbn; [reflexivity |].
  rewrite IH. reflexivity.
Qed.

Lemma filter_is_note_boxes (X Y : Z) (color : Fl_Color)
    (notes : list Note_View) (t : Z) :
  length (set_channel_loop X Y color notes t [])
  = length (filter is_note notes).
Proof.
  rewrite <- (set_channel_loop_views X Y color notes t), length_map.
  reflexivity.
Qed.

(** X7.  Highlighting the boxes [set_channel] made of a note sequence, at a
    tick [tk] that falls within the note [note] of the sequence (the notes
    before it take [sum_ticks pre] ticks), leaves on the keyboard, for the
    channel, the pitch and octave of [note], or a rest when [note] is one;
    no other channel changes; the boxes of the notes up to and including
    [note] are painted in the highlight colour and the later ones keep
    theirs.  It holds for notes of non-negative duration whose total fits an
    [int]. *)
Theorem highlight_tick_shows_sounding_note (X Y : Z) (color hcolor : Fl_Color)
    (pre post : list Note_View) (note : Note_View) (cn tk : Z)
    (k : Piano_Keys.t) :
  1 <= cn <= 4 ->
  Forall lasting (pre ++ note :: post) ->
  in_int (sum_ticks (pre ++ note :: post)) ->
  sum_ticks pre <= tk < sum_ticks pre + note_ticks note ->
  exists k' boxes',
    Piano_Timeline.highlight_tick
      (set_channel X Y [] (pre ++ note :: post) color) cn tk hcolor k
    = Some (k', boxes')
    /\ Piano_Keys.channel_pitch cn k'
       = (if is_note note then (note_pitch note, note_octave note)
          else (REST, 0))
    /\ only_channel cn k k'
    /\ map box_color boxes'
       = repeat hcolor (length (filter is_note (pre ++ [note])))
         ++ repeat color (length (filter is_note post)).
Proof.
  intros Hcn Hlast Hsum Htk.
  destruct (set_channel_loop_spans X Y color (pre ++ note :: post) 0 Hlast)
    as (Hboxes & _).
  { lia. }
  { exact Hsum. }
  unfold set_channel in *.
  rewrite set_channel_loop_app in Hboxes |- *.
  apply Forall_app in Hlast. destruct Hlast as (Hpre & Hlast).
  inversion Hlast as [| ? ? Hnote Hpost]; subst. unfold lasting in Hnote.
  assert (Hsplit : sum_ticks (pre ++ note :: post)
                   = sum_ticks pre + (note_ticks note + sum_ticks post)).
  { rewrite sum_ticks_app. reflexivity. }
  pose proof (sum_ticks_lasting post Hpost) as Hpost0.
  pose proof (sum_ticks_lasting pre Hpre) as Hpre0.
  rewrite Hsplit in Hsum.
  destruct (set_channel_loop_spans X Y color pre 0 Hpre)
    as (Hprebox & Hrun).
  { lia. }
  { unfold in_int, INT_MIN, INT_MAX in *. lia. }
  rewrite Hrun in *. rewrite Z.add_0_l in *.
  rewrite set_channel_loop_from in Hboxes |- *.
  apply Forall_app in Hboxes. destruct Hboxes as (_ & Hnext).
  set (past := set_channel_loop X Y color pre 0 []) in *.
  assert (Hpast : Forall (fun b => tick b <= tk /\ t_right b <= tk) past).
  { eapply Forall_impl; [| exact Hprebox]. cbv beta.
    intros b (H1 & H2 & H3 & H4 & _). rewrite H2. lia. }
  assert (Hstep : (sum_ticks pre + note_length note * note_speed note)%int
                  = sum_ticks pre + note_ticks note).
  { unfold int_add, int_mul. fold (note_ticks note).
    rewrite (wrap32_small (note_ticks note))
      by (unfold in_int, INT_MIN, INT_MAX in *; lia).
    apply wrap32_small. unfold in_int, INT_MIN, INT_MAX in *. lia. }
  destruct (set_channel_loop_spans X Y color post
              (sum_ticks pre + note_ticks note) Hpost)
    as (Hpostbox & _).
  { lia. }
  { unfold in_int, INT_MIN, INT_MAX in *. lia. }
  set (future := set_channel_loop X Y color post
                   (sum_ticks pre + note_ticks note) []) in *.
  assert (Hfuture : Forall (fun b => tk < tick b) future).
  { eapply Forall_impl; [| exact Hpostbox]. cbv beta.
    intros b (H1 & _). lia. }
  assert (Hcolors : map box_color future
                    = repeat color (length (filter is_note post))).
  { unfold future.
    rewrite <- (filter_is_note_boxes X Y color post
                  (sum_ticks pre + note_ticks note)).
    fold future. clear - Hpostbox.
    induction Hpostbox as [| b l (_ & _ & _ & _ & Hc) _ IHl]; cbn;
      [reflexivity |]. rewrite Hc, IHl. reflexivity. }
  assert (Hpastlen : length past = length (filter is_note pre))
    by apply filter_is_note_boxes.
  unfold Piano_Timeline.highlight_tick.
  destruct (set_channel_pitch_in_range cn REST 0 k Hcn)
    as (k0 & -> & Hk0 & Hx0 & Hy0 & Hother0).
  cbn [set_channel_loop]. rewrite Hstep.
  rewrite filter_app, length_app, repeat_app. cbn [filter].
  unfold is_note at 1 3.
  destruct (negb (Pitch_eqb (note_pitch note) REST)) eqn:Hisnote.
  - cbn [app]. rewrite (set_channel_loop_from _ _ _ post _ [_]).
    rewrite highlight_tick_loop_past by exact Hpast.
    cbn [app Piano_Timeline.highlight_tick_loop tick note_view].
    destruct (Z.gtb_spec (sum_ticks pre) tk) as [Hgt | _]; [lia |].
    rewrite Hstep.
    destruct (Z.gtb_spec (sum_ticks pre + note_ticks note) tk) as [_ | Hle];
      [| lia].
    destruct (set_channel_pitch_in_range cn (note_pitch note)
                (note_octave note) k0 Hcn)
      as (k1 & -> & Hk1 & Hx1 & Hy1 & Hother1).
    fold future. rewrite (highlight_tick_loop_future _ _ _ _ _ Hfuture).
    rewrite recolor_note.
    eexists _, _. split; [reflexivity |]. split; [exact Hk1 |].
    split.
    + repeat split; try congruence.
      intros n' Hn' Hne. rewrite Hother1, Hother0 by assumption. reflexivity.
    + rewrite map_app, colored_boxes. cbn [map box_color color_note length repeat].
      rewrite Hcolors, <- Hpastlen, <- app_assoc. reflexivity.
  - fold future.
    rewrite highlight_tick_loop_past by exact Hpast.
    rewrite (highlight_tick_loop_future _ _ _ _ _ Hfuture).
    eexists _, _. split; [reflexivity |]. split; [exact Hk0 |].
    split.
    + repeat split; assumption.
    + rewrite map_app, colored_boxes. cbn [length repeat].
      rewrite Hcolors, <- Hpastlen, app_nil_r. reflexivity.
Qed.

Lemma highlight_tick_shows_sounding_note_witness :
  exists k' boxes',
    Piano_Timeline.highlight_tick
      (set_channel 0 21 []
         ([ mkNote_View 2 REST 3 3; mkNote_View 1 C_NAT 3 2 ]
          ++ mkNote_View 4 G_NAT 3 1 :: [ mkNote_View 2 B_NAT 3 2 ])
         NOTE_GREEN)
      3 9 NOTE_GREEN_LIGHT (Piano_Keys.mk 0 21 REST 0 REST 0 REST 0 REST 0)
    = Some (k', boxes')
    /\ Piano_Keys.channel_pitch 3 k' = (G_NAT, 3).
Proof.
  destruct (highlight_tick_shows_sounding_note 0 21 NOTE_GREEN
              NOTE_GREEN_LIGHT
              [ mkNote_View 2 REST 3 3; mkNote_View 1 C_NAT 3 2 ]
              [ mkNote_View 2 B_NAT 3 2 ] (mkNote_View 4 G_NAT 3 1) 3 9
              (Piano_Keys.mk 0 21 REST 0 REST 0 REST 0 REST 0))
    as (k' & boxes' & Hrun & Hpitch & _).
  - lia.
  - repeat constructor; unfold lasting; cbn; lia.
  - unfold in_int, INT_MIN, INT_MAX. cbn. lia.
  - cbn. lia.
  - exists k', boxes'. split; [exact Hrun | exact Hpitch].
Defined.

(** ** Highlighting changes colours only *)

Lemma highlight_tick_loop_colors_only (cn tk : Z) (hcolor c : Fl_Color)
    (notes : list Note_Box) :
  forall (k k' : Piano_Keys.t) (notes' : list Note_Box),
    Piano_Timeline.highlight_tick_loop cn tk hcolor notes k = Some (k', notes') ->
    map (color_note c) notes' = map (color_note c) notes.
Proof.
  induction notes as [| note notes IH]; intros k k' notes' Hrun;
    cbn [Piano_Timeline.highlight_tick_loop] in Hrun.
  - injection Hrun as <- <-. reflexivity.
  - destruct (tick note >? tk).
    + injection Hrun as <- <-. reflexivity.
    + destruct (if _ >? tk then _ else _) as [k1 |]; [| discriminate Hrun].
      destruct (Piano_Timeline.highlight_tick_loop cn tk hcolor notes k1)
        as [[k2 rest] |] eqn:Hrest; [| discriminate Hrun].
      injection Hrun as <- <-. rewrite recolor_note. cbn [map].
      rewrite (IH _ _ _ Hrest). reflexivity.
Qed.

Lemma highlight_tick_colors_only (notes : list Note_Box) (cn tk : Z)
    (hcolor c : Fl_Color) (k k' : Piano_Keys.t) (notes' : list Note_Box) :
  Piano_Timeline.highlight_tick notes cn tk hcolor k = Some (k', notes') ->
  map (color_note c) notes' = map (color_note c) notes.
Proof.
  unfold Piano_Timeline.highlight_tick.
  destruct (Piano_Keys.set_channel_pitch cn REST 0 k) as [k0 |];
    [| discriminate].
  apply highlight_tick_loop_colors_only.
Qed.

(** X8.  Highlighting a tick on all four channels always runs to the end,
    and it changes nothing of the timeline but the keyboard's channel pairs
    and the colours of note boxes: resetting the note colours afterwards
    gives the boxes that resetting them before gives, and the timeline keeps
    its rectangle. *)
Theorem reset_note_colors_undoes_highlight (tk : Z) (tl : Piano_Timeline.t) :
  exists tl',
    Piano_Roll.highlight_channels tk tl = Some tl'
    /\ Piano_Timeline.reset_note_colors tl'
       = Piano_Timeline.set_keys (Piano_Timeline._keys tl')
           (Piano_Timeline.reset_note_colors tl)
    /\ same_geometry tl tl'
    /\ Piano_Keys.x (Piano_Timeline._keys tl')
       = Piano_Keys.x (Piano_Timeline._keys tl)
    /\ Piano_Keys.y (Piano_Timeline._keys tl')
       = Piano_Keys.y (Piano_Timeline._keys tl).
Proof.
  unfold Piano_Roll.highlight_channels,
    Piano_Timeline.highlight_channel_1_tick,
    Piano_Timeline.highlight_channel_2_tick,
    Piano_Timeline.highlight_channel_3_tick,
    Piano_Timeline.highlight_channel_4_tick.
  destruct tl as [x y w h k n1 n2 n3 n4].
  cbn [Piano_Timeline._keys Piano_Timeline._channel_1_notes
       Piano_Timeline._channel_2_notes Piano_Timeline._channel_3_notes
       Piano_Timeline._channel_4_notes Piano_Timeline.x Piano_Timeline.y
       Piano_Timeline.w Piano_Timeline.h].
  destruct (highlight_tick_succeeds n1 1 tk NOTE_RED_LIGHT k ltac:(lia))
    as (k1 & n1' & H1 & (Hx1 & Hy1 & _) & _).
  rewrite H1.
  cbn [Piano_Timeline._keys Piano_Timeline._channel_1_notes
       Piano_Timeline._channel_2_notes Piano_Timeline._channel_3_notes
       Piano_Timeline._channel_4_notes Piano_Timeline.x Piano_Timeline.y
       Piano_Timeline.w Piano_Timeline.h].
  destruct (highlight_tick_succeeds n2 2 tk NOTE_BLUE_LIGHT k1 ltac:(lia))
    as (k2 & n2' & H2 & (Hx2 & Hy2 & _) & _).
  rewrite H2.
  cbn [Piano_Timeline._keys Piano_Timeline._channel_1_notes
       Piano_Timeline._channel_2_notes Piano_Timeline._channel_3_notes
       Piano_Timeline._channel_4_notes Piano_Timeline.x Piano_Timeline.y
       Piano_Timeline.w Piano_Timeline.h].
  destruct (highlight_tick_succeeds n3 3 tk NOTE_GREEN_LIGHT k2 ltac:(lia))
    as (k3 & n3' & H3 & (Hx3 & Hy3 & _) & _).
  rewrite H3.
  cbn [Piano_Timeline._keys Piano_Timeline._channel_1_notes
       Piano_Timeline._channel_2_notes Piano_Timeline._channel_3_notes
       Piano_Timeline._channel_4_notes Piano_Timeline.x Piano_Timeline.y
       Piano_Timeline.w Piano_Timeline.h].
  destruct (highlight_tick_succeeds n4 4 tk NOTE_BROWN_LIGHT k3 ltac:(lia))
    as (k4 & n4' & H4 & (Hx4 & Hy4 & _) & _).
  rewrite H4.
  eexists. split; [reflexivity |].
  unfold Piano_Timeline.reset_note_colors, Piano_Timeline.set_keys,
    same_geometry.
  cbn [Piano_Timeline._keys Piano_Timeline._channel_1_notes
       Piano_Timeline._channel_2_notes Piano_Timeline._channel_3_notes
       Piano_Timeline._channel_4_notes Piano_Timeline.x Piano_Timeline.y
       Piano_Timeline.w Piano_Timeline.h].
  rewrite (highlight_tick_colors_only _ _ _ _ NOTE_RED _ _ _ H1),
    (highlight_tick_colors_only _ _ _ _ NOTE_BLUE _ _ _ H2),
    (highlight_tick_colors_only _ _ _ _ NOTE_GREEN _ _ _ H3),
    (highlight_tick_colors_only _ _ _ _ NOTE_BROWN _ _ _ H4).
  repeat split; congruence.
Qed.

(** ** Layout and scrolling of the piano roll *)

Lemma resize_move_note (X Y dx dy : Z) (note : Note_Box) :
  resize_note (X + dx)%int (Y + dy)%int (move_note dx dy note)
  = move_note dx dy (resize_note X Y note).
Proof.
  unfold resize_note, move_note, Calc_Sizes.tick_to_x_pos,
    Calc_Sizes.pitch_to_y_pos.
  cbn [note_view tick box_x box_y box_w box_h box_color].
  change (wrap32 NUM_OCTAVES) with 8.
  change (wrap32 NUM_NOTES_PER_OCTAVE) with 12.
  f_equal; int_lia.
Qed.

(** X9.  [calc_sizes] commutes with moving the timeline: laying the note
    boxes out after the timeline has moved by [(dx, dy)] gives the boxes that
    moving the laid-out boxes gives.  So a timeline whose boxes are where
    [calc_sizes] puts them stays so when it is scrolled. *)
Theorem calc_sizes_commutes_with_move (dx dy : Z) (tl : Piano_Timeline.t) :
  Piano_Timeline.calc_sizes (Piano_Timeline.move dx dy tl)
  = Piano_Timeline.move dx dy (Piano_Timeline.calc_sizes tl)
  /\ (Piano_Timeline.calc_sizes tl = tl ->
      Piano_Timeline.calc_sizes (Piano_Timeline.move dx dy tl)
      = Piano_Timeline.move dx dy tl).
Proof.
  assert (Hcomm : Piano_Timeline.calc_sizes (Piano_Timeline.move dx dy tl)
                  = Piano_Timeline.move dx dy (Piano_Timeline.calc_sizes tl)).
  { destruct tl as [x y w h k n1 n2 n3 n4].
    unfold Piano_Timeline.calc_sizes, Piano_Timeline.move, resize_notes.
    cbn [Piano_Timeline._keys Piano_Timeline._channel_1_notes
         Piano_Timeline._channel_2_notes Piano_Timeline._channel_3_notes
         Piano_Timeline._channel_4_notes Piano_Timeline.x Piano_Timeline.y
         Piano_Timeline.w Piano_Timeline.h].
    rewrite !map_map.
    f_equal; apply map_ext; intros note; apply resize_move_note. }
  split; [exact Hcomm |].
  intros Hfixed. rewrite Hcomm, Hfixed. reflexivity.
Qed.

Lemma calc_sizes_commutes_with_move_witness :
  Piano_Timeline.calc_sizes
    (Piano_Timeline.move (-3600) 0
       (Piano_Timeline.set_channel_1 [ mkNote_View 2 C_NAT 1 3 ]
          (Piano_Timeline.mk 0 21 784 1344
             (Piano_Keys.mk 0 21 REST 0 REST 0 REST 0 REST 0) [] [] [] [])))
  = Piano_Timeline.move (-3600) 0
      (Piano_Timeline.set_channel_1 [ mkNote_View 2 C_NAT 1 3 ]
         (Piano_Timeline.mk 0 21 784 1344
            (Piano_Keys.mk 0 21 REST 0 REST 0 REST 0 REST 0) [] [] [] [])).
Proof.
  apply (proj2 (calc_sizes_commutes_with_move (-3600) 0 _)).
  reflexivity.
Defined.

Lemma scroll_to_fields (X Y : Z) (r : Piano_Roll.t) :
  Piano_Roll.xposition (Piano_Roll.scroll_to X Y r) = X
  /\ Piano_Roll.yposition (Piano_Roll.scroll_to X Y r) = Y
  /\ Piano_Roll.scroll_x_max (Piano_Roll.scroll_to X Y r)
     = Piano_Roll.scroll_x_max r
  /\ Piano_Roll.scroll_y_max (Piano_Roll.scroll_to X Y r)
     = Piano_Roll.scroll_y_max r
  /\ Piano_Roll.w (Piano_Roll.scroll_to X Y r) = Piano_Roll.w r
  /\ Piano_Roll.h (Piano_Roll.scroll_to X Y r) = Piano_Roll.h r.
Proof. repeat split. Qed.

Lemma sticky_keys_fields (r : Piano_Roll.t) :
  Piano_Roll.xposition (Piano_Roll.sticky_keys r) = Piano_Roll.xposition r
  /\ Piano_Roll.yposition (Piano_Roll.sticky_keys r) = Piano_Roll.yposition r
  /\ Piano_Roll.scroll_x_max (Piano_Roll.sticky_keys r)
     = Piano_Roll.scroll_x_max r
  /\ Piano_Roll.scroll_y_max (Piano_Roll.sticky_keys r)
     = Piano_Roll.scroll_y_max r
  /\ Piano_Roll.w (Piano_Roll.sticky_keys r) = Piano_Roll.w r
  /\ Piano_Roll.h (Piano_Roll.sticky_keys r) = Piano_Roll.h r.
Proof. repeat split. Qed.

(** X10.  [set_size] with a new size leaves the viewport inside the
    content: the size is the new one, and neither scroll position exceeds
    its maximum for the new size.  With the current size it changes
    nothing. *)
Theorem set_size_clamps_scroll (W H : Z) (r : Piano_Roll.t) :
  W <> Piano_Roll.w r \/ H <> Piano_Roll.h r ->
  let r' := Piano_Roll.set_size W H r in
  Piano_Roll.w r' = W /\ Piano_Roll.h r' = H
  /\ Piano_Roll.xposition r' <= Piano_Roll.scroll_x_max r'
  /\ Piano_Roll.yposition r' <= Piano_Roll.scroll_y_max r'
  /\ Piano_Roll.set_size (Piano_Roll.w r) (Piano_Roll.h r) r = r.
Proof.
  intros Hnew r'.
  assert (Hsame : Piano_Roll.set_size (Piano_Roll.w r) (Piano_Roll.h r) r = r).
  { unfold Piano_Roll.set_size. rewrite !Z.eqb_refl. reflexivity. }
  subst r'. unfold Piano_Roll.set_size.
  assert (Hcond : negb (W =? Piano_Roll.w r) || negb (H =? Piano_Roll.h r)
                  = true).
  { destruct (Z.eqb_spec W (Piano_Roll.w r)), (Z.eqb_spec H (Piano_Roll.h r));
      cbn; try reflexivity. destruct Hnew; contradiction. }
  rewrite Hcond. cbv zeta.
  set (r1 := Piano_Roll.set_timeline_width (Piano_Roll.with_size W H r)).
  assert (Hr1 : Piano_Roll.w r1 = W /\ Piano_Roll.h r1 = H).
  { subst r1. unfold Piano_Roll.set_timeline_width. cbv zeta.
    destruct (_ >? _); split; reflexivity. }
  clearbody r1. destruct Hr1 as (Hw1 & Hh1).
  set (r2 := if Piano_Roll.xposition r1 >? Piano_Roll.scroll_x_max r1
             then Piano_Roll.sticky_keys
                    (Piano_Roll.scroll_to (Piano_Roll.scroll_x_max r1)
                       (Piano_Roll.yposition r1) r1)
             else r1).
  assert (Hr2 : Piano_Roll.w r2 = W /\ Piano_Roll.h r2 = H
                /\ Piano_Roll.xposition r2 <= Piano_Roll.scroll_x_max r2).
  { subst r2.
    destruct (Z.gtb_spec (Piano_Roll.xposition r1)
                (Piano_Roll.scroll_x_max r1)) as [Hgt | Hle].
    - destruct (scroll_to_xposition (Piano_Roll.scroll_x_max r1)
                  (Piano_Roll.yposition r1) r1) as (-> & ->).
      destruct (sticky_keys_fields
                  (Piano_Roll.scroll_to (Piano_Roll.scroll_x_max r1)
                     (Piano_Roll.yposition r1) r1))
        as (_ & _ & _ & _ & -> & ->).
      destruct (scroll_to_fields (Piano_Roll.scroll_x_max r1)
                  (Piano_Roll.yposition r1) r1)
        as (_ & _ & _ & _ & -> & ->).
      repeat split; [exact Hw1 | exact Hh1 | lia].
    - repeat split; assumption. }
  clearbody r2. destruct Hr2 as (Hw2 & Hh2 & Hx2).
  destruct (Z.gtb_spec (Piano_Roll.yposition r2) (Piano_Roll.scroll_y_max r2))
    as [Hgt | Hle].
  - destruct (scroll_to_fields (Piano_Roll.xposition r2)
                (Piano_Roll.scroll_y_max r2) r2)
      as (-> & -> & -> & -> & -> & ->).
    repeat split; try assumption; lia.
  - repeat split; assumption.
Qed.

Lemma example_following_size :
  Piano_Roll.w example_following = 800
  /\ Piano_Roll.h example_following = 556.
Proof. vm_compute. split; reflexivity. Qed.

Lemma set_size_clamps_scroll_witness :
  Piano_Roll.xposition (Piano_Roll.set_size 500 400 example_following)
  <= Piano_Roll.scroll_x_max (Piano_Roll.set_size 500 400 example_following).
Proof.
  pose proof (set_size_clamps_scroll 500 400 example_following) as Hthm.
  cbv zeta in Hthm. destruct Hthm as (_ & _ & Hx & _); [| exact Hx].
  left. rewrite (proj1 example_following_size). discriminate.
Defined.

(** X11.  The scrollbar callbacks never scroll past the end of the content:
    once the largest horizontal position is not negative, the horizontal
    one leaves the viewport at a position no greater than it, whether or
    not the roll then refocuses on the cursor; when not following it
    scrolls to the smaller of the scrollbar's value and that maximum.  The
    vertical one scrolls to the smaller of the value and the largest
    vertical position, and keeps the horizontal position. *)
Theorem scrollbars_stay_in_content (value : Z) (r : Piano_Roll.t) :
  0 <= Piano_Roll.scroll_x_max r ->
  Piano_Roll.xposition (Piano_Roll.hscrollbar_cb value r)
    <= Piano_Roll.scroll_x_max (Piano_Roll.hscrollbar_cb value r)
  /\ Piano_Roll.scroll_x_max (Piano_Roll.hscrollbar_cb value r)
     = Piano_Roll.scroll_x_max r
  /\ Piano_Roll.yposition (Piano_Roll.hscrollbar_cb value r)
     = Piano_Roll.yposition r
  /\ (Piano_Roll._following r = false ->
      Piano_Roll.xposition (Piano_Roll.hscrollbar_cb value r)
      = Z.min value (Piano_Roll.scroll_x_max r))
  /\ Piano_Roll.yposition (Piano_Roll.scrollbar_cb value r)
     = Z.min value (Piano_Roll.scroll_y_max r)
  /\ Piano_Roll.xposition (Piano_Roll.scrollbar_cb value r)
     = Piano_Roll.xposition r
  /\ Piano_Roll.scroll_y_max (Piano_Roll.scrollbar_cb value r)
     = Piano_Roll.scroll_y_max r.
Proof.
  intros Hmax. unfold Piano_Roll.hscrollbar_cb. cbv zeta.
  set (r1 := Piano_Roll.sticky_keys
               (Piano_Roll.scroll_to (Z.min value (Piano_Roll.scroll_x_max r))
                  (Piano_Roll.yposition r) r)).
  assert (Hr1 : Piano_Roll.xposition r1 = Z.min value (Piano_Roll.scroll_x_max r)
                /\ Piano_Roll.scroll_x_max r1 = Piano_Roll.scroll_x_max r
                /\ Piano_Roll.yposition r1 = Piano_Roll.yposition r
                /\ Piano_Roll._following r1 = Piano_Roll._following r)
    by (repeat split).
  destruct Hr1 as (Hx1 & Hm1 & Hy1 & Hf1).
  rewrite Hf1.
  split; [| split; [| split; [| split]]].
  - destruct (Piano_Roll._following r); [| rewrite Hx1, Hm1; lia].
    destruct (focus_cursor_cases false r1) as [(-> & _) | (-> & _)].
    + destruct (scroll_to_xposition (Piano_Roll.focus_target false r1)
                  (Piano_Roll.yposition r1) r1) as (-> & ->).
      unfold Piano_Roll.focus_target. lia.
    + rewrite Hx1, Hm1. lia.
  - destruct (Piano_Roll._following r); [| exact Hm1].
    destruct (focus_cursor_cases false r1) as [(-> & _) | (-> & _)];
      [| exact Hm1].
    rewrite (proj2 (scroll_to_xposition _ _ r1)). exact Hm1.
  - destruct (Piano_Roll._following r); [| exact Hy1].
    destruct (focus_cursor_cases false r1) as [(-> & _) | (-> & _)];
      [| exact Hy1].
    exact Hy1.
  - intros ->. exact Hx1.
  - repeat split.
Qed.

Lemma scrollbars_stay_in_content_witness :
  Piano_Roll.xposition (Piano_Roll.hscrollbar_cb 100000 example_following)
  <= Piano_Roll.scroll_x_max (Piano_Roll.hscrollbar_cb 100000 example_following).
Proof.
  exact (proj1 (scrollbars_stay_in_content 100000 example_following
                  example_following_scroll_x_max)).
Defined.

Lemma set_timeline_width_eq (r : Piano_Roll.t) :
  Piano_Roll.set_timeline_width r
  = Piano_Roll.with_timeline
      (Piano_Timeline.set_w (timeline_width_for r)
         (Piano_Roll._piano_timeline r)) r.
Proof.
  destruct r as [x y w h xp yp sw sh tk fo co pa tps tl n1 n2 n3 n4 sl].
  destruct tl as [tx ty tw th k b1 b2 b3 b4].
  unfold Piano_Roll.set_timeline_width, timeline_width_for. cbv zeta.
  cbn [Piano_Roll.with_timeline Piano_Roll.with_scroll Piano_Roll.w
       Piano_Roll.scrollbar_w Piano_Roll._song_length
       Piano_Roll._piano_timeline Piano_Roll.xposition Piano_Roll.yposition
       Piano_Timeline.set_w Piano_Timeline.w].
  change (Piano_Roll.get_last_note_x
            (Piano_Roll.mk x y w h xp yp sw sh tk fo co pa tps
               (Piano_Timeline.mk tx ty
                  (Z.max (WHITE_KEY_WIDTH + sl * tick_width)%int (w - sw)%int)
                  th k b1 b2 b3 b4) n1 n2 n3 n4 sl))
    with (Piano_Roll.get_last_note_x
            (Piano_Roll.mk x y w h xp yp sw sh tk fo co pa tps
               (Piano_Timeline.mk tx ty tw th k b1 b2 b3 b4) n1 n2 n3 n4 sl)).
  destruct (_ >? _); reflexivity.
Qed.

Lemma timeline_width_for_set_w (tw' : Z) (r : Piano_Roll.t) :
  timeline_width_for
    (Piano_Roll.with_timeline
       (Piano_Timeline.set_w tw' (Piano_Roll._piano_timeline r)) r)
  = timeline_width_for r.
Proof.
  destruct r as [x y w h xp yp sw sh tk fo co pa tps tl n1 n2 n3 n4 sl].
  destruct tl as [tx ty tw th k b1 b2 b3 b4].
  unfold timeline_width_for, Piano_Roll.get_last_note_x,
    Piano_Roll.get_channel_last_note_x.
  cbn [Piano_Roll.with_timeline Piano_Roll.with_scroll Piano_Roll.w
       Piano_Roll.scrollbar_w Piano_Roll._song_length
       Piano_Roll._piano_timeline Piano_Roll.xposition Piano_Roll.yposition
       Piano_Timeline.set_w Piano_Timeline.w Piano_Timeline.x
       Piano_Timeline._channel_1_notes Piano_Timeline._channel_2_notes
       Piano_Timeline._channel_3_notes Piano_Timeline._channel_4_notes].
  reflexivity.
Qed.

Lemma timeline_width_for_bounds (r : Piano_Roll.t) :
  (WHITE_KEY_WIDTH + Piano_Roll._song_length r * tick_width)%int
  <= timeline_width_for r
  /\ (Piano_Roll.w r - Piano_Roll.scrollbar_w r)%int <= timeline_width_for r
  /\ (Piano_Roll.get_last_note_x r + Piano_Roll.w r - Piano_Roll.scrollbar_w r
      - WHITE_KEY_WIDTH)%int
     <= timeline_width_for r.
Proof.
  unfold timeline_width_for. cbv zeta.
  destruct (Z.gtb_spec
              (Piano_Roll.get_last_note_x r + Piano_Roll.w r
               - Piano_Roll.scrollbar_w r - WHITE_KEY_WIDTH)%int
              (Z.max
                 (WHITE_KEY_WIDTH + Piano_Roll._song_length r * tick_width)%int
                 (Piano_Roll.w r - Piano_Roll.scrollbar_w r)%int)); lia.
Qed.

(** X12.  [set_timeline_width] changes the width of the timeline and nothing
    else.  The width it sets is at least the width of the song
    ([WHITE_KEY_WIDTH + _song_length * tick_width]), at least the width of
    the viewport beside the scrollbar, and at least what lets the last note
    be scrolled to the left edge; and calling it again changes nothing. *)
Theorem set_timeline_width_fits (r : Piano_Roll.t) :
  let r' := Piano_Roll.set_timeline_width r in
  r' = Piano_Roll.with_timeline
         (Piano_Timeline.set_w
            (Piano_Timeline.w (Piano_Roll._piano_timeline r'))
            (Piano_Roll._piano_timeline r)) r
  /\ (WHITE_KEY_WIDTH + Piano_Roll._song_length r * tick_width)%int
     <= Piano_Timeline.w (Piano_Roll._piano_timeline r')
  /\ (Piano_Roll.w r - Piano_Roll.scrollbar_w r)%int
     <= Piano_Timeline.w (Piano_Roll._piano_timeline r')
  /\ (Piano_Roll.get_last_note_x r + Piano_Roll.w r - Piano_Roll.scrollbar_w r
      - WHITE_KEY_WIDTH)%int
     <= Piano_Timeline.w (Piano_Roll._piano_timeline r')
  /\ Piano_Roll.set_timeline_width r' = r'.
Proof.
  cbv zeta. rewrite !set_timeline_width_eq, !timeline_width_for_set_w.
  generalize (timeline_width_for_bounds r).
  generalize (timeline_width_for r). intros tw' Hw.
  destruct r as [x y w h xp yp sw sh tk fo co pa tps tl n1 n2 n3 n4 sl].
  destruct tl as [tx ty tw th k b1 b2 b3 b4].
  cbn [Piano_Roll.with_timeline Piano_Roll.with_scroll Piano_Roll.w
       Piano_Roll.scrollbar_w Piano_Roll._song_length
       Piano_Roll._piano_timeline Piano_Roll.xposition Piano_Roll.yposition
       Piano_Timeline.set_w Piano_Timeline.w Piano_Timeline.x
       Piano_Timeline.y Piano_Timeline.h Piano_Timeline._keys
       Piano_Timeline._channel_1_notes Piano_Timeline._channel_2_notes
       Piano_Timeline._channel_3_notes Piano_Timeline._channel_4_notes].
  cbn [Piano_Roll.w Piano_Roll.scrollbar_w Piano_Roll._song_length] in Hw.
  split; [reflexivity |].
  destruct Hw as (Hsong & Hview & Hlast).
  repeat split; assumption.
Qed.

Lemma generated_notes_are_notes (c : Z) (notes : list Note_View) :
  Forall (generated_note c) notes -> filter is_note notes = notes.
Proof.
  induction 1 as [| n l (Hrest & _) _ IH]; cbn; [reflexivity |].
  apply is_note_true in Hrest. rewrite Hrest, IH. reflexivity.
Qed.

Lemma timeline_width_for_song (r : Piano_Roll.t) :
  (WHITE_KEY_WIDTH + Piano_Roll._song_length r * tick_width)%int
  <= timeline_width_for r.
Proof.
  unfold timeline_width_for. cbv zeta. destruct (_ >? _) eqn:Hgt; [| lia].
  apply Z.gtb_gt in Hgt. lia.
Qed.

(** X13.  Whatever the random stream and the geometry, the piano roll the
    constructor builds has a song of 3072 ticks; on each of the four channels
    the notes are playable notes in the octave of the channel number, they
    end before the song does, every one of them has its box on the timeline,
    in order and in the channel's colour; and the timeline is wide enough
    for the whole song.  The roll starts unscrolled, without cursor and not
    following. *)
Theorem constructed_roll (rs : rand_stream) (X Y W H sb : Z) (n : Z) :
  let r := Piano_Roll.make rs X Y W H sb in
  Piano_Roll._song_length r = 3072
  /\ Forall (generated_note (if (1 <=? n) && (n <=? 3) then n else 4))
       (channel_notes n r)
  /\ 3072 - 16 <= sum_ticks (channel_notes n r) < Piano_Roll._song_length r
  /\ map note_view (channel_boxes n (Piano_Roll._piano_timeline r))
     = channel_notes n r
  /\ Forall (fun b => box_color b = channel_color n)
       (channel_boxes n (Piano_Roll._piano_timeline r))
  /\ WHITE_KEY_WIDTH + 3072 * tick_width
     <= Piano_Timeline.w (Piano_Roll._piano_timeline r)
  /\ Piano_Roll.xposition r = 0 /\ Piano_Roll.yposition r = 0
  /\ Piano_Roll._tick r = -1 /\ Piano_Roll._following r = false
  /\ Piano_Roll._continuous r = true.
Proof.
  cbv zeta. unfold Piano_Roll.make, Piano_Roll.set_timeline, build_note_view.
  cbn [Piano_Roll._channel_1_notes Piano_Roll._channel_2_notes
       Piano_Roll._channel_3_notes Piano_Roll._channel_4_notes].
  destruct (build_note_view_loop_spec rs 1 0 0 [])
    as (new1 & -> & Hall1 & Hsum1 & _); [unfold INT_MIN; lia |].
  destruct (build_note_view_loop_spec rs 2 (0 + 3 * length new1) 0 [])
    as (new2 & -> & Hall2 & Hsum2 & _); [unfold INT_MIN; lia |].
  destruct (build_note_view_loop_spec rs 3
              (0 + 3 * length new1 + 3 * length new2) 0 [])
    as (new3 & -> & Hall3 & Hsum3 & _); [unfold INT_MIN; lia |].
  destruct (build_note_view_loop_spec rs 4
              (0 + 3 * length new1 + 3 * length new2 + 3 * length new3) 0 [])
    as (new4 & -> & Hall4 & Hsum4 & _); [unfold INT_MIN; lia |].
  cbn [app fst]. rewrite set_timeline_width_eq.
  match goal with
  | |- context [timeline_width_for ?r0] =>
      pose proof (timeline_width_for_song r0) as Hwide;
      generalize dependent (timeline_width_for r0)
  end.
  intros tw Hwide.
  cbn [Piano_Roll._song_length Piano_Roll.with_song Piano_Roll.with_timeline
       Piano_Roll.with_scroll] in Hwide.
  change (WHITE_KEY_WIDTH + 3072 * tick_width)%int with 9366 in Hwide.
  assert (Hcolors : forall c notes,
             Forall (fun b => box_color b = c) (set_channel X Y [] notes c)).
  { intros c notes. unfold set_channel.
    assert (Hgen : forall t ch,
               Forall (fun b => box_color b = c) ch ->
               Forall (fun b => box_color b = c)
                 (set_channel_loop X Y c notes t ch)).
    { induction notes as [| note notes IH]; intros t ch Hch; cbn;
        [exact Hch |].
      apply IH. destruct (negb _); [| exact Hch].
      apply Forall_app. split; [exact Hch |]. repeat constructor. }
    apply Hgen. constructor. }
  assert (Hviews : forall c k notes,
             Forall (generated_note k) notes ->
             map note_view (set_channel X Y [] notes c) = notes).
  { intros c k notes Hgen. unfold set_channel.
    rewrite set_channel_loop_views. eapply generated_notes_are_notes, Hgen. }
  unfold channel_notes, channel_boxes, channel_color.
  split; [reflexivity |].
  destruct (Z.eqb_spec n 1) as [-> | Hn1];
    [| destruct (Z.eqb_spec n 2) as [-> | Hn2];
       [| destruct (Z.eqb_spec n 3) as [-> | Hn3]]];
    cbn [Piano_Roll._channel_1_notes Piano_Roll._channel_2_notes
         Piano_Roll._channel_3_notes Piano_Roll._channel_4_notes
         Piano_Roll._piano_timeline Piano_Roll.with_timeline
         Piano_Roll.with_scroll Piano_Roll.with_song
         Piano_Roll._song_length Piano_Roll.xposition Piano_Roll.yposition
         Piano_Roll._tick Piano_Roll._following Piano_Roll._continuous
         Piano_Timeline.set_w Piano_Timeline.w
         Piano_Timeline._channel_1_notes Piano_Timeline._channel_2_notes
         Piano_Timeline._channel_3_notes Piano_Timeline._channel_4_notes
         Piano_Timeline.set_channel_1 Piano_Timeline.set_channel_2
         Piano_Timeline.set_channel_3 Piano_Timeline.set_channel_4
         Piano_Timeline.x Piano_Timeline.y andb Z.leb Z.compare
         Pos.compare Pos.compare_cont];
    change (WHITE_KEY_WIDTH + 3072 * tick_width) with 9366;
    (split;
     [try assumption
     | split;
       [lia
       | split;
         [eapply Hviews; eassumption
         | split;
           [apply Hcolors
           | split; [exact Hwide | repeat split; reflexivity]]]]]).
  replace ((1 <=? n) && (n <=? 3)) with false; [exact Hall4 |].
  symmetry. apply andb_false_iff.
  destruct (Z.leb_spec 1 n); [right | left; reflexivity].
  apply Z.leb_gt. lia.
Qed.

(** ** The window: piano roll, module and playback thread *)

Lemma same_mode_refl (r : Piano_Roll.t) : same_mode r r.
Proof. repeat split. Qed.

Lemma same_mode_trans (r1 r2 r3 : Piano_Roll.t) :
  same_mode r1 r2 -> same_mode r2 r3 -> same_mode r1 r3.
Proof.
  unfold same_mode. intros (H1 & H2 & H3) (H4 & H5 & H6).
  repeat split; congruence.
Qed.

Lemma scroll_to_mode (X Y : Z) (r : Piano_Roll.t) :
  same_mode r (Piano_Roll.scroll_to X Y r).
Proof. repeat split. Qed.

Lemma sticky_keys_mode (r : Piano_Roll.t) :
  same_mode r (Piano_Roll.sticky_keys r).
Proof. repeat split. Qed.

Lemma focus_cursor_mode (center : bool) (r : Piano_Roll.t) :
  same_mode r (Piano_Roll.focus_cursor center r).
Proof.
  unfold Piano_Roll.focus_cursor. cbv zeta.
  destruct (_ || _); [| apply same_mode_refl].
  eapply same_mode_trans; [apply scroll_to_mode | apply sticky_keys_mode].
Qed.

Lemma set_timeline_width_mode (r : Piano_Roll.t) :
  same_mode r (Piano_Roll.set_timeline_width r).
Proof. rewrite set_timeline_width_eq. repeat split. Qed.

Lemma set_size_mode (W H : Z) (r : Piano_Roll.t) :
  same_mode r (Piano_Roll.set_size W H r).
Proof.
  unfold Piano_Roll.set_size. destruct (_ || _); [| apply same_mode_refl].
  cbv zeta.
  set (r1 := Piano_Roll.set_timeline_width (Piano_Roll.with_size W H r)).
  assert (H1 : same_mode r r1).
  { eapply same_mode_trans;
      [| apply (set_timeline_width_mode (Piano_Roll.with_size W H r))].
    repeat split. }
  clearbody r1.
  set (r2 := if Piano_Roll.xposition r1 >? Piano_Roll.scroll_x_max r1
             then _ else r1).
  assert (H2 : same_mode r r2).
  { subst r2. destruct (_ >? _); [| exact H1].
    eapply same_mode_trans; [exact H1 |].
    eapply same_mode_trans; [apply scroll_to_mode | apply sticky_keys_mode]. }
  clearbody r2.
  destruct (_ >? _); [| exact H2].
  eapply same_mode_trans; [exact H2 | apply scroll_to_mode].
Qed.

Lemma hscrollbar_cb_mode (value : Z) (r : Piano_Roll.t) :
  same_mode r (Piano_Roll.hscrollbar_cb value r).
Proof.
  unfold Piano_Roll.hscrollbar_cb. cbv zeta.
  set (r1 := Piano_Roll.sticky_keys _).
  assert (H1 : same_mode r r1).
  { subst r1.
    eapply same_mode_trans; [apply scroll_to_mode | apply sticky_keys_mode]. }
  clearbody r1.
  destruct (Piano_Roll._following r1); [| exact H1].
  eapply same_mode_trans; [exact H1 | apply focus_cursor_mode].
Qed.

Lemma highlight_tick_mode (tk : Z) (r r' : Piano_Roll.t) :
  Piano_Roll.highlight_tick tk r = Some r' ->
  Piano_Roll._following r' = Piano_Roll._following r
  /\ Piano_Roll._paused r' = Piano_Roll._paused r
  /\ Piano_Roll._tick r' = tk.
Proof.
  unfold Piano_Roll.highlight_tick.
  destruct (Z.eqb_spec (Piano_Roll._tick r) tk) as [Heq | Hnew].
  - intros [= <-]. repeat split. exact Heq.
  - cbv zeta. destruct (Piano_Roll.highlight_channels _ _) as [tl |];
      [| discriminate].
    intros [= <-].
    destruct (focus_cursor_mode false
                (Piano_Roll.with_timeline tl (Piano_Roll.with_tick tk r)))
      as (Hf & Hp & Ht).
    rewrite Hf, Hp, Ht. repeat split.
Qed.

Lemma play_mode (m : IT_Module.t) :
  IT_Module.playing (IT_Module.play m) = IT_Module.playing m
  /\ IT_Module.paused (IT_Module.play m) = IT_Module.paused m
  /\ IT_Module.speed (IT_Module.play m) = IT_Module.speed m.
Proof.
  destruct m as [ct pl pa sp]. unfold IT_Module.play.
  cbn [IT_Module.ready IT_Module.playing IT_Module._playing negb orb
       IT_Module._current_tick IT_Module._speed IT_Module._paused].
  destruct pl; cbn [negb]; [| repeat split].
  cbv zeta. cbn [IT_Module._current_tick IT_Module._playing IT_Module._paused
                 IT_Module._speed Z.eqb].
  destruct (_ >=? _); repeat split.
Qed.

Lemma playback_inv_roll (pr : Piano_Roll.t) (mw : Main_Window.t) :
  same_mode (Main_Window._piano_roll mw) pr ->
  playback_inv mw ->
  playback_inv (Main_Window.with_playback pr (Main_Window._it_module mw) mw).
Proof.
  intros (Hf & Hp & Ht) (Ifo & Ipa & Iex & Ith & Ist).
  destruct mw as [pr0 m tk sr th q].
  unfold playback_inv, Main_Window.with_playback, Main_Window.playing,
    Main_Window.paused, Main_Window.stopped in *.
  cbn [Main_Window._piano_roll Main_Window._it_module Main_Window._tick
       Main_Window.audio_thread] in *.
  rewrite Hf, Hp, Ht. repeat split; try tauto; apply Ist; assumption.
Qed.

Lemma playback_inv_request_sync (mw : Main_Window.t) :
  playback_inv mw -> playback_inv (Main_Window.request_sync mw).
Proof.
  unfold Main_Window.request_sync. destruct (negb _); [| tauto].
  destruct mw as [pr0 m tk sr th q]. exact (fun H => H).
Qed.

Lemma step_playback_inv (mw mw' : Main_Window.t) :
  Main_Window.step mw mw' -> playback_inv mw -> playback_inv mw'.
Proof.
  intros Hstep Hinv. destruct Hstep.
  - apply playback_inv_roll; [repeat split | exact Hinv].
  - apply playback_inv_roll; [| exact Hinv].
    eapply same_mode_trans; [| apply set_size_mode]. repeat split.
  - apply playback_inv_roll; [| exact Hinv]. apply scroll_to_mode.
  - apply playback_inv_roll; [| exact Hinv]. apply hscrollbar_cb_mode.
  - (* a turn of the playback thread *)
    destruct Hinv as (Ifo & Ipa & Iex & Ith & Ist).
    destruct mw as [pr m tk sr th q].
    unfold Main_Window.playing, Main_Window.paused, Main_Window.stopped in *.
    cbn [Main_Window._piano_roll Main_Window._it_module Main_Window._tick
         Main_Window.audio_thread] in *.
    assert (Hpl : IT_Module.playing m = true)
      by (apply Ith; congruence).
    unfold Main_Window.playback_turn.
    cbn [Main_Window._piano_roll Main_Window._it_module Main_Window._tick
         Main_Window.audio_thread Main_Window._sync_requested
         Main_Window.awake_queue].
    rewrite Hpl. cbv zeta.
    destruct (play_mode m) as (Hp1 & Hp2 & _).
    assert (Hstop : IT_Module.stopped (IT_Module.play m) = false).
    { unfold IT_Module.stopped. rewrite Hp1, Hpl. reflexivity. }
    destruct (negb _); [apply playback_inv_request_sync |];
      unfold playback_inv, Main_Window.playing, Main_Window.paused,
        Main_Window.stopped;
      cbn [Main_Window._piano_roll Main_Window._it_module Main_Window._tick
           Main_Window.audio_thread];
      rewrite Hp1, Hp2, Hstop;
      (repeat split; try assumption; try discriminate; intros _; exact Hpl).
  - (* the toolkit runs a queued [sync_cb] *)
    destruct Hinv as (Ifo & Ipa & Iex & Ith & Ist).
    destruct mw as [pr m tk sr th q].
    unfold Main_Window.take_awake in H.
    cbn [Main_Window.awake_queue] in H.
    destruct q as [| q]; [discriminate |]. injection H as <-.
    unfold Main_Window.playing, Main_Window.paused, Main_Window.stopped in *.
    cbn [Main_Window._piano_roll Main_Window._it_module Main_Window._tick
         Main_Window.audio_thread Main_Window._sync_requested
         Main_Window.awake_queue] in *.
    unfold Main_Window.sync_cb in H0.
    cbn [Main_Window._piano_roll Main_Window._it_module Main_Window._tick
         Main_Window.audio_thread Main_Window._sync_requested
         Main_Window.awake_queue] in H0.
    destruct (IT_Module.playing m && (tk >? 0)) eqn:Hcond.
    + destruct (Piano_Roll.highlight_tick tk pr) as [pr' |] eqn:Hhl;
        [| discriminate].
      injection H0 as <-.
      destruct (highlight_tick_mode _ _ _ Hhl) as (Hf & Hp & _).
      apply andb_prop in Hcond. destruct Hcond as (Hpl & _).
      unfold playback_inv, Main_Window.playing, Main_Window.paused,
        Main_Window.stopped.
      cbn [Main_Window._piano_roll Main_Window._it_module Main_Window._tick
           Main_Window.audio_thread].
      rewrite Hf, Hp. repeat split; try tauto;
        unfold IT_Module.stopped in *; rewrite Hpl in *; discriminate.
    + destruct (IT_Module.stopped m) eqn:Hst; injection H0 as <-.
      * unfold playback_inv, Main_Window.playing, Main_Window.paused,
          Main_Window.stopped.
        cbn [Main_Window._piano_roll Main_Window._it_module Main_Window._tick
             Main_Window.audio_thread].
        unfold IT_Module.stopped in Hst.
        apply andb_prop in Hst. destruct Hst as (Hpl & Hpa).
        apply negb_true_iff in Hpl. apply negb_true_iff in Hpa.
        specialize (Ist eq_refl).
        repeat split; try tauto; try reflexivity; try congruence;
          rewrite ?Hpl, ?Hpa; reflexivity.
      * unfold playback_inv, Main_Window.playing, Main_Window.paused,
          Main_Window.stopped.
        cbn [Main_Window._piano_roll Main_Window._it_module Main_Window._tick
             Main_Window.audio_thread].
        repeat split; try tauto; congruence.
  - (* Play/Pause *)
    destruct Hinv as (Ifo & Ipa & Iex & Ith & Ist).
    destruct mw as [pr m tk sr th q]. destruct m as [ct pl pa sp].
    unfold Main_Window.playing, Main_Window.paused, Main_Window.stopped,
      IT_Module.stopped, IT_Module.playing, IT_Module.paused,
      IT_Module.current_tick in *.
    cbn [Main_Window._piano_roll Main_Window._it_module Main_Window._tick
         Main_Window.audio_thread IT_Module._playing IT_Module._paused
         IT_Module._current_tick] in *.
    unfold Main_Window.toggle_playback, Main_Window.stop_audio_thread,
      Main_Window.start_audio_thread, Main_Window.with_playback,
      Main_Window.stopped, Main_Window.paused, IT_Module.stopped,
      IT_Module.playing, IT_Module.paused, playback_inv,
      Main_Window.playing, IT_Module.start, IT_Module.pause,
      IT_Module.current_tick.
    cbv zeta.
    cbn [Main_Window._piano_roll Main_Window._it_module Main_Window._tick
         Main_Window.audio_thread Main_Window._sync_requested
         Main_Window.awake_queue IT_Module._playing IT_Module._paused
         IT_Module._current_tick IT_Module._speed].
    destruct pl, pa; cbn [negb andb] in *; try discriminate;
      cbn [Main_Window._piano_roll Main_Window._it_module Main_Window._tick
           Main_Window.audio_thread Main_Window._sync_requested
           Main_Window.awake_queue IT_Module._playing IT_Module._paused
           IT_Module._current_tick IT_Module._speed negb andb];
      repeat split; try discriminate; try tauto; try congruence.
    all: unfold Piano_Roll.start_following; cbv zeta;
      destruct (_ =? _); reflexivity.
  - (* Stop *)
    destruct Hinv as (Ifo & Ipa & Iex & Ith & Ist).
    destruct mw as [pr m tk sr th q]. destruct m as [ct pl pa sp].
    unfold Main_Window.playing, Main_Window.paused, Main_Window.stopped,
      IT_Module.stopped, IT_Module.playing, IT_Module.paused,
      IT_Module.current_tick in *.
    cbn [Main_Window._piano_roll Main_Window._it_module Main_Window._tick
         Main_Window.audio_thread IT_Module._playing IT_Module._paused
         IT_Module._current_tick] in *.
    unfold Main_Window.stop_playback, Main_Window.stop_audio_thread,
      IT_Module.stopped, IT_Module.playing, IT_Module.paused, playback_inv,
      Main_Window.playing, Main_Window.paused, Main_Window.stopped,
      IT_Module.stop, IT_Module.current_tick.
    cbv zeta.
    cbn [Main_Window._piano_roll Main_Window._it_module Main_Window._tick
         Main_Window.audio_thread Main_Window._sync_requested
         Main_Window.awake_queue IT_Module._playing IT_Module._paused
         IT_Module._current_tick IT_Module._speed].
    destruct pl, pa; cbn [negb andb] in *; try discriminate;
      cbn [Main_Window._piano_roll Main_Window._it_module Main_Window._tick
           Main_Window.audio_thread Main_Window._sync_requested
           Main_Window.awake_queue IT_Module._playing IT_Module._paused
           IT_Module._current_tick IT_Module._speed negb andb];
      repeat split; try discriminate; try tauto; try congruence;
      try (apply Ist; reflexivity).
  - (* the speed slider *)
    unfold Main_Window.speed_slider_cb. destruct (negb _); [| exact Hinv].
    destruct Hinv as (Ifo & Ipa & Iex & Ith & Ist).
    destruct mw as [pr m tk sr th q]. destruct m as [ct pl pa sp].
    exact (conj Ifo (conj Ipa (conj Iex (conj Ith Ist)))).
Qed.

Lemma reachable_playback_inv (pr : Piano_Roll.t) (mw : Main_Window.t) :
  fresh_roll pr -> Main_Window.reachable pr mw -> playback_inv mw.
Proof.
  intros (Hf & Hp & Ht) Hreach. induction Hreach as [| mw mw' _ IH Hstep].
  - unfold playback_inv, Main_Window.init, Main_Window.playing,
      Main_Window.paused, Main_Window.stopped.
    cbn [Main_Window._piano_roll Main_Window._it_module Main_Window._tick
         Main_Window.audio_thread].
    rewrite Hf, Hp, Ht. repeat split; try discriminate.
    intros H. exfalso. apply H. reflexivity.
  - exact (step_playback_inv _ _ Hstep IH).
Qed.

Lemma make_fresh (rs : rand_stream) (X Y W H sb : Z) :
  fresh_roll (Piano_Roll.make rs X Y W H sb).
Proof.
  unfold Piano_Roll.make, Piano_Roll.set_timeline, build_note_view.
  cbn [Piano_Roll._channel_1_notes Piano_Roll._channel_2_notes
       Piano_Roll._channel_3_notes Piano_Roll._channel_4_notes].
  destruct (build_note_view_loop_spec rs 1 0 0 [])
    as (new1 & -> & _); [unfold INT_MIN; lia |].
  destruct (build_note_view_loop_spec rs 2 (0 + 3 * length new1) 0 [])
    as (new2 & -> & _); [unfold INT_MIN; lia |].
  destruct (build_note_view_loop_spec rs 3
              (0 + 3 * length new1 + 3 * length new2) 0 [])
    as (new3 & -> & _); [unfold INT_MIN; lia |].
  destruct (build_note_view_loop_spec rs 4
              (0 + 3 * length new1 + 3 * length new2 + 3 * length new3) 0 [])
    as (new4 & -> & _); [unfold INT_MIN; lia |].
  cbn [app fst]. rewrite set_timeline_width_eq. repeat split.
Qed.

Lemma example_roll_fresh : fresh_roll example_roll.
Proof.
  pose proof (make_fresh example_stream 0 21 800 556 16) as (Hf & Hp & Ht).
  unfold example_roll, Piano_Roll.scroll_to_y_max.
  destruct (scroll_to_mode
              (Piano_Roll.xposition
                 (Piano_Roll.make example_stream 0 21 800 556 16))
              (Piano_Roll.scroll_y_max
                 (Piano_Roll.make example_stream 0 21 800 556 16))
              (Piano_Roll.make example_stream 0 21 800 556 16))
    as (Hf' & Hp' & Ht').
  unfold fresh_roll. rewrite Hf', Hp', Ht'. exact (conj Hf (conj Hp Ht)).
Qed.

Lemma example_window_reachable :
  Main_Window.reachable example_roll example_window.
Proof. apply reachable_first_turn. Qed.

Lemma example_stopped_window_reachable :
  Main_Window.reachable example_roll example_stopped_window.
Proof.
  eapply Main_Window.reachable_step; [apply example_window_reachable |].
  apply Main_Window.step_stop_playback.
Qed.

Lemma example_window_playing : Main_Window.playing example_window = true.
Proof. reflexivity. Qed.

Lemma example_stopped_window_stopped :
  Main_Window.stopped example_stopped_window = true.
Proof. reflexivity. Qed.

(** X14.  In every state the window reaches from a freshly built piano roll,
    the piano roll follows exactly when the module is playing and is paused
    exactly when the module is paused, the module is never both, and a
    playback thread is running exactly when the module is playing. *)
Theorem roll_mirrors_module (pr : Piano_Roll.t) (mw : Main_Window.t) :
  fresh_roll pr ->
  Main_Window.reachable pr mw ->
  Piano_Roll._following (Main_Window._piano_roll mw) = Main_Window.playing mw
  /\ Piano_Roll._paused (Main_Window._piano_roll mw) = Main_Window.paused mw
  /\ ~ (Main_Window.playing mw = true /\ Main_Window.paused mw = true)
  /\ (Main_Window.audio_thread mw <> None <-> Main_Window.playing mw = true).
Proof.
  intros Hfresh Hreach.
  destruct (reachable_playback_inv pr mw Hfresh Hreach)
    as (Ifo & Ipa & Iex & Ith & _).
  split; [exact Ifo |]. split; [exact Ipa |]. split; [| exact Ith].
  intros (Hpl & Hpa). rewrite Hpl, Hpa in Iex. discriminate.
Qed.

Lemma roll_mirrors_module_witness :
  Piano_Roll._following (Main_Window._piano_roll example_window)
  = Main_Window.playing example_window
  /\ Piano_Roll._paused (Main_Window._piano_roll example_window)
     = Main_Window.paused example_window
  /\ ~ (Main_Window.playing example_window = true
        /\ Main_Window.paused example_window = true)
  /\ (Main_Window.audio_thread example_window <> None
      <-> Main_Window.playing example_window = true).
Proof.
  exact (roll_mirrors_module example_roll example_window
           example_roll_fresh example_window_reachable).
Defined.

(** X15.  In every state the window reaches from a freshly built piano roll,
    a stopped module means everything is rewound: the module's tick counter
    is 0, the window's tick and the piano roll's cursor tick are -1, and no
    playback thread is running. *)
Theorem stopped_is_rewound (pr : Piano_Roll.t) (mw : Main_Window.t) :
  fresh_roll pr ->
  Main_Window.reachable pr mw ->
  Main_Window.stopped mw = true ->
  IT_Module.current_tick (Main_Window._it_module mw) = 0
  /\ Main_Window._tick mw = -1
  /\ Piano_Roll._tick (Main_Window._piano_roll mw) = -1
  /\ Main_Window.audio_thread mw = None.
Proof.
  intros Hfresh Hreach Hstopped.
  destruct (reachable_playback_inv pr mw Hfresh Hreach)
    as (_ & _ & _ & Ith & Ist).
  destruct (Ist Hstopped) as (Hroll & Htick & Hmod).
  split; [exact Hmod |]. split; [exact Htick |]. split; [exact Hroll |].
  destruct (Main_Window.audio_thread mw) as [tick |] eqn:Hth; [| reflexivity].
  assert (Hpl : Main_Window.playing mw = true) by (apply Ith; discriminate).
  unfold Main_Window.stopped, IT_Module.stopped in Hstopped.
  unfold Main_Window.playing in Hpl. rewrite Hpl in Hstopped. discriminate.
Qed.

Lemma stopped_is_rewound_witness :
  IT_Module.current_tick (Main_Window._it_module example_stopped_window) = 0
  /\ Main_Window._tick example_stopped_window = -1
  /\ Piano_Roll._tick (Main_Window._piano_roll example_stopped_window) = -1
  /\ Main_Window.audio_thread example_stopped_window = None.
Proof.
  exact (stopped_is_rewound example_roll example_stopped_window
           example_roll_fresh example_stopped_window_reachable
           example_stopped_window_stopped).
Defined.

(** X16.  Pausing and resuming loses nothing: from any reachable state in
    which the module is playing, Play/Pause twice gives back the same piano
    roll, module, tick, request flag and queue; only the playback thread is a
    new one, whose local tick starts at -1. *)
Theorem pause_resume_round_trip (pr : Piano_Roll.t) (mw : Main_Window.t) :
  fresh_roll pr ->
  Main_Window.reachable pr mw ->
  Main_Window.playing mw = true ->
  Main_Window.paused (Main_Window.toggle_playback mw) = true
  /\ Main_Window.audio_thread (Main_Window.toggle_playback mw) = None
  /\ Main_Window.toggle_playback (Main_Window.toggle_playback mw)
     = Main_Window.mk (Main_Window._piano_roll mw) (Main_Window._it_module mw)
         (Main_Window._tick mw) (Main_Window._sync_requested mw) (Some (-1))
         (Main_Window.awake_queue mw).
Proof.
  intros Hfresh Hreach Hplaying.
  destruct (reachable_playback_inv pr mw Hfresh Hreach)
    as (Ifo & Ipa & Iex & _).
  rewrite Hplaying in Ifo, Iex. cbn [andb] in Iex. rewrite Iex in Ipa.
  destruct mw as [r m tk sr th q]. destruct m as [ct pl pa sp].
  unfold Main_Window.playing, Main_Window.paused, IT_Module.playing,
    IT_Module.paused in *.
  cbn [Main_Window._piano_roll Main_Window._it_module IT_Module._playing
       IT_Module._paused] in *.
  subst pl pa.
  destruct r as [x y w h xp yp sw sh rtk fo co rpa tps tl n1 n2 n3 n4 sl].
  cbn [Piano_Roll._following Piano_Roll._paused] in Ifo, Ipa. subst fo rpa.
  repeat split.
Qed.

Lemma pause_resume_round_trip_witness :
  Main_Window.paused (Main_Window.toggle_playback example_window) = true
  /\ Main_Window.audio_thread (Main_Window.toggle_playback example_window)
     = None
  /\ Main_Window.toggle_playback (Main_Window.toggle_playback example_window)
     = Main_Window.mk (Main_Window._piano_roll example_window)
         (Main_Window._it_module example_window)
         (Main_Window._tick example_window)
         (Main_Window._sync_requested example_window) (Some (-1))
         (Main_Window.awake_queue example_window).
Proof.
  exact (pause_resume_round_trip example_roll example_window
           example_roll_fresh example_window_reachable
           example_window_playing).
Defined.

Lemma reset_following_fields (r : Piano_Roll.t) :
  Piano_Roll.xposition (Piano_Roll.reset_following r) = Piano_Roll.xposition r
  /\ Piano_Roll.yposition (Piano_Roll.reset_following r)
     = Piano_Roll.yposition r
  /\ Piano_Roll._tick (Piano_Roll.reset_following r) = Piano_Roll._tick r.
Proof. repeat split. Qed.

(** X17.  Play from a stopped state starts at the beginning: in every
    reachable state in which the module is stopped, Play/Pause sets the
    module playing at tick 0, starts a playback thread, makes the piano roll
    follow and scrolls it to the horizontal position 0, keeping the vertical
    one. *)
Theorem play_from_stop_rewinds_view (pr : Piano_Roll.t) (mw : Main_Window.t) :
  fresh_roll pr ->
  Main_Window.reachable pr mw ->
  Main_Window.stopped mw = true ->
  let mw' := Main_Window.toggle_playback mw in
  Main_Window.playing mw' = true
  /\ IT_Module.current_tick (Main_Window._it_module mw') = 0
  /\ Main_Window.audio_thread mw' = Some (-1)
  /\ Piano_Roll._following (Main_Window._piano_roll mw') = true
  /\ Piano_Roll.xposition (Main_Window._piano_roll mw') = 0
  /\ Piano_Roll.yposition (Main_Window._piano_roll mw')
     = Piano_Roll.yposition (Main_Window._piano_roll mw).
Proof.
  intros Hfresh Hreach Hstopped.
  destruct (reachable_playback_inv pr mw Hfresh Hreach)
    as (_ & _ & _ & _ & Ist).
  destruct (Ist Hstopped) as (Hroll & _ & Hmod).
  destruct mw as [r m tk sr th q]. destruct m as [ct pl pa sp].
  unfold Main_Window.stopped, IT_Module.stopped, IT_Module.playing,
    IT_Module.paused, IT_Module.current_tick in *.
  cbn [Main_Window._piano_roll Main_Window._it_module IT_Module._playing
       IT_Module._paused IT_Module._current_tick] in *.
  subst ct.
  destruct pl, pa; try discriminate.
  cbv zeta.
  unfold Main_Window.toggle_playback, Main_Window.stop_audio_thread,
    Main_Window.start_audio_thread, Main_Window.with_playback,
    Main_Window.stopped, Main_Window.playing, IT_Module.stopped,
    IT_Module.playing, IT_Module.paused, IT_Module.start,
    IT_Module.current_tick.
  cbn [Main_Window._piano_roll Main_Window._it_module Main_Window._tick
       Main_Window.audio_thread Main_Window._sync_requested
       Main_Window.awake_queue IT_Module._playing IT_Module._paused
       IT_Module._current_tick IT_Module._speed negb andb].
  split; [reflexivity |]. split; [reflexivity |]. split; [reflexivity |].
  unfold Piano_Roll.start_following. cbv zeta.
  destruct (reset_following_fields (Piano_Roll.with_following true false r))
    as (Hx & Hy & Ht).
  rewrite Ht.
  change (Piano_Roll._tick (Piano_Roll.with_following true false r))
    with (Piano_Roll._tick r).
  rewrite Hroll. cbn [Z.eqb Pos.eqb].
  destruct (scroll_to_fields 0
              (Piano_Roll.yposition
                 (Piano_Roll.reset_following
                    (Piano_Roll.with_following true false r)))
              (Piano_Roll.reset_following
                 (Piano_Roll.with_following true false r)))
    as (Hsx & Hsy & _).
  destruct (sticky_keys_fields
              (Piano_Roll.scroll_to 0
                 (Piano_Roll.yposition
                    (Piano_Roll.reset_following
                       (Piano_Roll.with_following true false r)))
                 (Piano_Roll.reset_following
                    (Piano_Roll.with_following true false r))))
    as (Hkx & Hky & _).
  rewrite Hkx, Hky, Hsx, Hsy, Hy.
  repeat split.
Qed.

Lemma play_from_stop_rewinds_view_witness :
  Main_Window.playing (Main_Window.toggle_playback example_stopped_window)
  = true
  /\ IT_Module.current_tick
       (Main_Window._it_module
          (Main_Window.toggle_playback example_stopped_window)) = 0
  /\ Main_Window.audio_thread
       (Main_Window.toggle_playback example_stopped_window) = Some (-1)
  /\ Piano_Roll._following
       (Main_Window._piano_roll
          (Main_Window.toggle_playback example_stopped_window)) = true
  /\ Piano_Roll.xposition
       (Main_Window._piano_roll
          (Main_Window.toggle_playback example_stopped_window)) = 0
  /\ Piano_Roll.yposition
       (Main_Window._piano_roll
          (Main_Window.toggle_playback example_stopped_window))
     = Piano_Roll.yposition (Main_Window._piano_roll example_stopped_window).
Proof.
  exact (play_from_stop_rewinds_view example_roll example_stopped_window
           example_roll_fresh example_stopped_window_reachable
           example_stopped_window_stopped).
Defined.

(** X18.  Stop always ends stopped and without playback thread, and a second
    Stop changes nothing. *)
Theorem stop_playback_idempotent (mw : Main_Window.t) :
  Main_Window.stopped (Main_Window.stop_playback mw) = true
  /\ Main_Window.audio_thread (Main_Window.stop_playback mw) = None
  /\ Main_Window.stop_playback (Main_Window.stop_playback mw)
     = Main_Window.stop_playback mw.
Proof.
  destruct mw as [r m tk sr th q]. destruct m as [ct pl pa sp].
  unfold Main_Window.stop_playback, Main_Window.stop_audio_thread,
    Main_Window.stopped, IT_Module.stopped, IT_Module.playing,
    IT_Module.paused, IT_Module.stop.
  cbv zeta.
  cbn [Main_Window._piano_roll Main_Window._it_module Main_Window._tick
       Main_Window.audio_thread Main_Window._sync_requested
       Main_Window.awake_queue IT_Module._playing IT_Module._paused
       IT_Module._current_tick IT_Module._speed].
  destruct pl, pa; cbn [negb andb];
    cbn [Main_Window._piano_roll Main_Window._it_module Main_Window._tick
         Main_Window.audio_thread Main_Window._sync_requested
         Main_Window.awake_queue IT_Module._playing IT_Module._paused
         IT_Module._current_tick IT_Module._speed negb andb];
    repeat split.
Qed.

Lemma example_started_thread :
  Main_Window.audio_thread
    (Main_Window.toggle_playback (Main_Window.init example_roll))
  = Some (-1).
Proof. reflexivity. Qed.

Lemma example_started_reachable :
  Main_Window.reachable example_roll
    (Main_Window.toggle_playback (Main_Window.init example_roll)).
Proof.
  eapply Main_Window.reachable_step; [apply Main_Window.reachable_init |].
  apply Main_Window.step_toggle_playback.
Qed.

(** X19.  The playback thread never finds the module not playing: Play/Pause
    and Stop join the thread before they pause or stop the module, so in
    every reachable state a turn of the thread's loop advances the module
    with [play] and the thread goes on, its local tick being the module's
    tick; the branch that resets the tick and leaves the loop is never
    taken. *)
Theorem playback_thread_never_breaks (pr : Piano_Roll.t) (mw : Main_Window.t)
    (tick : Z) :
  fresh_roll pr ->
  Main_Window.reachable pr mw ->
  Main_Window.audio_thread mw = Some tick ->
  let mw' := Main_Window.playback_turn tick mw in
  Main_Window._it_module mw' = IT_Module.play (Main_Window._it_module mw)
  /\ Main_Window.audio_thread mw'
     = Some (IT_Module.current_tick (Main_Window._it_module mw'))
  /\ Main_Window._piano_roll mw' = Main_Window._piano_roll mw
  /\ (tick <> IT_Module.current_tick (Main_Window._it_module mw') ->
      Main_Window._tick mw'
      = IT_Module.current_tick (Main_Window._it_module mw')
      /\ Main_Window._sync_requested mw' = true)
  /\ (tick = IT_Module.current_tick (Main_Window._it_module mw') ->
      Main_Window._tick mw' = Main_Window._tick mw
      /\ Main_Window._sync_requested mw' = Main_Window._sync_requested mw).
Proof.
  intros Hfresh Hreach Hthread.
  destruct (reachable_playback_inv pr mw Hfresh Hreach)
    as (_ & _ & _ & Ith & _).
  assert (Hpl : Main_Window.playing mw = true)
    by (apply Ith; rewrite Hthread; discriminate).
  destruct mw as [r m tk sr th q].
  unfold Main_Window.playing in Hpl.
  cbn [Main_Window._it_module Main_Window.audio_thread] in *.
  cbv zeta. unfold Main_Window.playback_turn.
  cbn [Main_Window._piano_roll Main_Window._it_module Main_Window._tick
       Main_Window.audio_thread Main_Window._sync_requested
       Main_Window.awake_queue].
  rewrite Hpl.
  destruct (Z.eqb_spec tick (IT_Module.current_tick (IT_Module.play m)))
    as [Heq | Hneq]; cbn [negb].
  - cbn [Main_Window._piano_roll Main_Window._it_module Main_Window._tick
         Main_Window.audio_thread Main_Window._sync_requested].
    split; [reflexivity |]. split; [rewrite Heq; reflexivity |].
    split; [reflexivity |]. split; [intros Hne; contradiction |].
    intros _. split; reflexivity.
  - unfold Main_Window.request_sync.
    cbn [Main_Window._piano_roll Main_Window._it_module Main_Window._tick
         Main_Window.audio_thread Main_Window._sync_requested
         Main_Window.awake_queue].
    destruct sr; cbn [negb];
      cbn [Main_Window._piano_roll Main_Window._it_module Main_Window._tick
           Main_Window.audio_thread Main_Window._sync_requested];
      (split; [reflexivity |]); (split; [reflexivity |]);
      (split; [reflexivity |]);
      (split; [intros _; split; reflexivity | intros Heq; contradiction]).
Qed.

Lemma playback_thread_never_breaks_witness :
  Main_Window._it_module example_window
  = IT_Module.play
      (Main_Window._it_module
         (Main_Window.toggle_playback (Main_Window.init example_roll)))
  /\ Main_Window.audio_thread example_window
     = Some (IT_Module.current_tick (Main_Window._it_module example_window))
  /\ Main_Window._piano_roll example_window
     = Main_Window._piano_roll
         (Main_Window.toggle_playback (Main_Window.init example_roll))
  /\ (-1 <> IT_Module.current_tick (Main_Window._it_module example_window) ->
      Main_Window._tick example_window
      = IT_Module.current_tick (Main_Window._it_module example_window)
      /\ Main_Window._sync_requested example_window = true)
  /\ (-1 = IT_Module.current_tick (Main_Window._it_module example_window) ->
      Main_Window._tick example_window
      = Main_Window._tick
          (Main_Window.toggle_playback (Main_Window.init example_roll))
      /\ Main_Window._sync_requested example_window
         = Main_Window._sync_requested
             (Main_Window.toggle_playback (Main_Window.init example_roll))).
Proof.
  exact (playback_thread_never_breaks example_roll
           (Main_Window.toggle_playback (Main_Window.init example_roll)) (-1)
           example_roll_fresh example_started_reachable
           example_started_thread).
Defined.

(** ** The playback counter and the frame counter *)

Lemma run_call_tick_ok (c : IT_Module.call) (m : IT_Module.t) :
  call_speed_ok c -> tick_ok m -> tick_ok (IT_Module.run_call c m).
Proof.
  destruct m as [ct pl pa sp].
  unfold tick_ok, speed_ok, IT_Module.current_tick, IT_Module.speed, INT_MAX.
  cbn [IT_Module._current_tick IT_Module._speed].
  intros Hc (Hct & Hsp).
  destruct c as [| | | | s]; cbn [IT_Module.run_call call_speed_ok] in *.
  - unfold IT_Module.start. cbn. lia.
  - unfold IT_Module.stop. cbn. lia.
  - unfold IT_Module.pause. cbn. lia.
  - unfold IT_Module.play.
    cbn [IT_Module.ready IT_Module.playing IT_Module._playing negb orb
         IT_Module._current_tick IT_Module._speed IT_Module._paused].
    destruct pl; cbn [negb];
      [| cbn [IT_Module._current_tick IT_Module._speed]; lia].
    cbv zeta.
    cbn [IT_Module._current_tick IT_Module._playing IT_Module._paused
         IT_Module._speed Z.eqb].
    unfold int_add. rewrite wrap32_small
      by (unfold in_int, INT_MIN, INT_MAX; lia).
    destruct (Z.geb_spec (ct + sp) 3072);
      cbn [IT_Module._current_tick IT_Module._speed]; lia.
  - unfold IT_Module.set_speed, speed_ok, INT_MAX in *.
    cbn [IT_Module._current_tick IT_Module._speed]. lia.
Qed.

(** X20.  The tick counter stays inside the song: whatever calls are made on
    a module whose tick is from 0 to 3071, as long as every speed that is
    set is from 0 to [INT_MAX - 3071] (the slider gives 1 to 10), the tick
    is from 0 to 3071 afterwards. *)
Theorem current_tick_in_song (cs : list IT_Module.call) (m : IT_Module.t) :
  Forall call_speed_ok cs ->
  tick_ok m ->
  0 <= IT_Module.current_tick (IT_Module.run_calls cs m) < 3072.
Proof.
  intros Hcs Hm.
  assert (H : tick_ok (IT_Module.run_calls cs m)); [| exact (proj1 H)].
  unfold IT_Module.run_calls. revert m Hm.
  induction Hcs as [| c cs Hc _ IH]; intros m Hm; cbn [fold_left].
  - exact Hm.
  - apply IH. apply run_call_tick_ok; assumption.
Qed.

Lemma current_tick_in_song_witness :
  0 <= IT_Module.current_tick
         (IT_Module.run_calls
            [IT_Module.Start; IT_Module.Speed 2000; IT_Module.Play;
             IT_Module.Play; IT_Module.Pause]
            IT_Module.init) < 3072.
Proof.
  apply (current_tick_in_song
           [IT_Module.Start; IT_Module.Speed 2000; IT_Module.Play;
            IT_Module.Play; IT_Module.Pause]
           IT_Module.init).
  - repeat constructor; vm_compute; intros H; discriminate H.
  - vm_compute. repeat split; intros H; discriminate H.
Defined.

(** X21.  The frame counter smooths: when [draw] runs in a later second than
    the one recorded (by less than 2^31 seconds), with counters so far not
    negative and small enough not to overflow, it restarts the frame count,
    records the time, and the new frames-per-second value lies between the
    old value and the frames counted per second elapsed. *)
Theorem frames_per_second_smoothed (current_time : Z) (c : Frame_Counter.t) :
  0 <= Frame_Counter._frames c ->
  0 <= Frame_Counter._frames_per_second c ->
  Frame_Counter._frames_per_second c + 3 * (Frame_Counter._frames c + 1)
    <= INT_MAX ->
  Frame_Counter._frame_time c < current_time
    <= Frame_Counter._frame_time c + INT_MAX ->
  let c' := Frame_Counter.draw current_time c in
  let rate :=
    Z.quot (Frame_Counter._frames c + 1)
           (current_time - Frame_Counter._frame_time c) in
  Frame_Counter._frames c' = 0
  /\ Frame_Counter._frame_time c' = current_time
  /\ Z.min (Frame_Counter._frames_per_second c) rate
     <= Frame_Counter._frames_per_second c'
     <= Z.max (Frame_Counter._frames_per_second c) rate.
Proof.
  destruct c as [frames fps ft].
  cbn [Frame_Counter._frames Frame_Counter._frames_per_second
       Frame_Counter._frame_time].
  intros Hframes Hfps Hsmall Hlater. cbv zeta. unfold Frame_Counter.draw.
  cbn [Frame_Counter._frames Frame_Counter._frames_per_second
       Frame_Counter._frame_time].
  unfold INT_MAX in *.
  assert (Hw : forall z, - 2 ^ 31 <= z <= 2 ^ 31 - 1 -> wrap32 z = z).
  { intros z Hz. apply wrap32_small. unfold in_int, INT_MIN, INT_MAX. lia. }
  destruct (Z.gtb_spec current_time ft) as [_ | Hle]; [| lia].
  cbn [Frame_Counter._frames Frame_Counter._frames_per_second
       Frame_Counter._frame_time].
  split; [reflexivity |]. split; [reflexivity |].
  unfold int_add, int_div, int_mul.
  set (d := current_time - ft).
  assert (Hd : 1 <= d <= 2 ^ 31 - 1) by (subst d; lia).
  rewrite (Hw d) by lia.
  rewrite (Hw (frames + 1)) by lia.
  rewrite (Hw (3 * (frames + 1))) by lia.
  set (F := frames + 1) in *.
  assert (HF : 0 < F) by (subst F; lia).
  rewrite (Z.quot_div_nonneg (3 * F) d) by lia.
  rewrite (Z.quot_div_nonneg F d) by lia.
  pose proof (Z.div_pos (3 * F) d ltac:(lia) ltac:(lia)) as Hq3.
  pose proof (Z.div_pos F d ltac:(lia) ltac:(lia)) as Hq.
  assert (Hq3le : 3 * F / d <= 3 * F)
    by (apply Z.div_le_upper_bound; nia).
  assert (Hrel : 3 * (F / d) <= 3 * F / d <= 3 * (F / d) + 2).
  { pose proof (Z.div_mod F d ltac:(lia)) as E1.
    pose proof (Z.mod_pos_bound F d ltac:(lia)) as B1.
    pose proof (Z.div_mod (3 * F) d ltac:(lia)) as E3.
    pose proof (Z.mod_pos_bound (3 * F) d ltac:(lia)) as B3.
    set (q := F / d) in *. set (q3 := 3 * F / d) in *.
    set (r := F mod d) in *. set (r3 := (3 * F) mod d) in *.
    clearbody q q3 r r3. split; nia. }
  rewrite (Hw (3 * F / d)) by lia.
  rewrite (Hw (fps + 3 * F / d)) by lia.
  rewrite (Z.quot_div_nonneg (fps + 3 * F / d) 4) by lia.
  assert (Hres : 0 <= (fps + 3 * F / d) / 4 <= fps + 3 * F / d).
  { split; [apply Z.div_pos; lia |].
    apply Z.div_le_upper_bound; lia. }
  rewrite (Hw ((fps + 3 * F / d) / 4)) by lia.
  set (q := F / d) in *. set (q3 := 3 * F / d) in *. clearbody q q3.
  split.
  - apply Z.div_le_lower_bound; lia.
  - apply Z.lt_succ_r. apply Z.div_lt_upper_bound; lia.
Qed.

Lemma frames_per_second_smoothed_witness :
  Frame_Counter._frames
    (Frame_Counter.draw 102 (Frame_Counter.mk 119 30 100)) = 0
  /\ Frame_Counter._frame_time
       (Frame_Counter.draw 102 (Frame_Counter.mk 119 30 100)) = 102
  /\ Z.min 30 (Z.quot (119 + 1) (102 - 100))
     <= Frame_Counter._frames_per_second
          (Frame_Counter.draw 102 (Frame_Counter.mk 119 30 100))
     <= Z.max 30 (Z.quot (119 + 1) (102 - 100)).
Proof.
  apply (frames_per_second_smoothed 102 (Frame_Counter.mk 119 30 100)).
  - vm_compute. intros H; discriminate H.
  - vm_compute. intros H; discriminate H.
  - vm_compute. intros H; discriminate H.
  - vm_compute. split; [reflexivity | intros H; discriminate H].
Defined.
